(** * Smart-Feed v9: ratio enumeration, template retention and the
      recursive phase search, embedded from [smart_feed_v9/*.py].

    Python floats are read as exact rationals ([Qc], canonical fractions
    with Leibniz equality); [float("inf")] is the extra point [Inf] of
    [cost].  Python ints are [Z], stream identifiers are strings, the
    inventory dict is a [gmap string Qc] and the memo dict is a [gmap]
    keyed by the canonical state.  A raised exception is the [Raise]
    branch of [res]. *)

From Stdlib Require Import ZArith QArith Qcanon Qround String Lia Lqa.
From stdpp Require Import base numbers list gmap strings sorting.

Local Open Scope Z_scope.

(** ** Exceptions *)

Inductive exn := ZeroDivisionError | TypeError.

Inductive res (A : Type) : Type :=
  | Ok (a : A)
  | Raise (e : exn).
Arguments Ok {A} a.
Arguments Raise {A} e.

Global Instance res_ret : MRet res := λ A a, Ok a.
Global Instance res_bind : MBind res := λ A B f m,
  match m with Ok a => f a | Raise e => Raise e end.
Global Instance res_fmap : FMap res := λ A B f m,
  match m with Ok a => Ok (f a) | Raise e => Raise e end.

(** ** ratios.py *)

Module Ratios.

(** [itertools.product(r, repeat=k)]: the first component varies slowest. *)
Fixpoint product (r : list Z) (repeat : nat) : list (list Z) :=
  match repeat with
  | O => [[]]
  | S k => x ← r; (x ::.) <$> product r k
  end.

(** [sum(combo)] *)
Definition sum (combo : list Z) : Z := foldr Z.add 0 combo.

(** [reduce(gcd, combo)]: a left fold seeded with the first component;
    on the empty tuple [reduce] raises [TypeError]. *)
Definition reduce_gcd (combo : list Z) : res Z :=
  match combo with
  | [] => Raise TypeError
  | x :: xs => Ok (fold_left Z.gcd xs x)
  end.

(** The body of the [for combo in product(...)] loop, with [results]
    returned in append order. *)
Fixpoint collect (max_sum : Z) (combos : list (list Z)) : res (list (list Z)) :=
  match combos with
  | [] => Ok []
  | combo :: rest =>
      if decide (sum combo > max_sum) then collect max_sum rest
      else
        g ← reduce_gcd combo;
        if decide (g ≠ 1) then collect max_sum rest
        else (combo ::.) <$> collect max_sum rest
  end.

Definition generate_ratios (n_streams : nat) (max_sum : Z) : res (list (list Z)) :=
  if decide (n_streams = 1%nat) then Ok [[1]]
  else
    let upper := max_sum - Z.of_nat n_streams + 1 in
    collect max_sum (product (seqZ 1 upper) n_streams).

(** The ratio vectors the enumerator is meant to produce: [n] strictly
    positive parts, sum at most [max_sum], greatest common divisor 1. *)
Definition list_gcd (v : list Z) : Z := foldr Z.gcd 0 v.

Definition valid_ratio (n : nat) (max_sum : Z) (v : list Z) : Prop :=
  length v = n ∧ Forall (λ x, 0 < x) v ∧ sum v ≤ max_sum ∧ list_gcd v = 1.

(** What the two [continue] tests of the loop let through. *)
Definition kept (max_sum : Z) (v : list Z) : Prop :=
  sum v ≤ max_sum ∧ list_gcd v = 1.

Global Instance kept_dec max_sum v : Decision (kept max_sum v).
Proof. unfold kept. apply _. Defined.

End Ratios.


(** ** Numbers *)

Local Open Scope Qc_scope.

(** An [int] used where a float is expected. *)
Definition Z2Qc (n : Z) : Qc := Q2Qc (inject_Z n).

(** A decimal literal [a / b]. *)
Definition dec (a : Z) (b : positive) : Qc := Q2Qc (a # b).

(** [max(x, y)] and [min(x, y)] on floats. *)
Definition Qcmax (x y : Qc) : Qc := if decide (x < y) then y else x.
Definition Qcmin (x y : Qc) : Qc := if decide (y < x) then y else x.

(** [min(iterable)]; the empty case (a [ValueError] in Python) is given
    the value 0 and is never reached from [search], whose templates
    always have at least one stream. *)
Definition min_list (l : list Qc) : Qc :=
  match l with
  | [] => 0
  | x :: xs => foldl Qcmin x xs
  end.

(** [sum(iterable)] on floats. *)
Definition Qcsum (l : list Qc) : Qc := foldr Qcplus 0 l.

(** [x / y] on floats: division by zero raises. *)
Definition div (x y : Qc) : res Qc :=
  if decide (y = 0) then Raise ZeroDivisionError else Ok (x / y).

(** [round(q, 0)]: to the nearest integer, ties to the even one. *)
Definition py_round (q : Qc) : Z :=
  let f := Qfloor q in
  let r := q - Z2Qc f in
  if decide (r < dec 1 2) then f
  else if decide (dec 1 2 < r) then (f + 1)%Z
  else if Z.even f then f else (f + 1)%Z.

(** [float("inf")] next to the finite floats. *)
Inductive cost := Fin (c : Qc) | Inf.

Definition cost_add (x y : cost) : cost :=
  match x, y with
  | Fin a, Fin b => Fin (a + b)
  | _, _ => Inf
  end.

Definition cost_lt (x y : cost) : Prop :=
  match x, y with
  | Fin a, Fin b => a < b
  | Fin _, Inf => True
  | Inf, _ => False
  end.

Definition cost_le (x y : cost) : Prop :=
  match x, y with
  | Fin a, Fin b => a ≤ b
  | _, Inf => True
  | Inf, Fin _ => False
  end.

Global Instance cost_lt_dec : RelDecision cost_lt.
Proof. intros [a|] [b|]; simpl; apply _. Defined.
Global Instance cost_le_dec : RelDecision cost_le.
Proof. intros [a|] [b|]; simpl; apply _. Defined.
Global Instance cost_eq_dec : EqDecision cost.
Proof. solve_decision. Defined.

(** [sorted(l, key=key)] / [l.sort(key=key)]: Python's sort is stable, so
    elements with equal keys keep their relative order.  Insertion from
    the right end, placing an element before the first strictly larger
    one it meets and never past an equal one, is such a sort. *)
Section sort_by_key.
  Context {A : Type} (key : A → Qc).

Fixpoint insert_by_key (x : A) (l : list A) : list A :=
    match l with
    | [] => [x]
    | y :: l' =>
        if decide (key y < key x) then y :: insert_by_key x l'
        else x :: y :: l'
    end.

Definition sort_by_key (l : list A) : list A :=
    foldr insert_by_key [] l.
End sort_by_key.

(** [sorted(ids)] on strings: code-point order, which on the bytes of a
    string is [String.leb]. *)
Definition string_le (s1 s2 : string) : Prop := String.leb s1 s2 = true.
Global Instance string_le_dec : RelDecision string_le.
Proof. intros s1 s2. unfold string_le. apply _. Defined.

Definition sorted_strings (l : list string) : list string :=
  merge_sort string_le l.

(** ** models.py *)

Module WasteStream.
Record t := mk {
    stream_id : string;
    quantity_L : Qc;
    btu_per_lb : Qc;
    pH : Qc;
    f_ppm : Qc;
    solid_pct : Qc;
    salt_ppm : Qc;
    moisture_pct : Qc;
  }.
End WasteStream.

Module SystemConfig.
Record t := mk {
    F_total : Qc;
    P_system : Qc;
    BTU_diesel : Qc;
    eta : Qc;
    BTU_target : Qc;
    solid_max_pct : Qc;
    pH_min : Qc;
    pH_max : Qc;
    salt_max_ppm : Qc;
    K_F_TO_ACID : Qc;
    K_PH_TO_BASE : Qc;
    K_ACID_TO_NAOH_VOL : Qc;
    cost_diesel_per_L : Qc;
    cost_naoh_per_L : Qc;
    cost_water_per_L : Qc;
    cost_electricity_per_kWh : Qc;
    cost_labor_per_hr : Qc;
    ratio_sum_max : Z;
    W_min : Qc;
  }.

  (** The dataclass defaults. *)
Definition defaults : t := {|
    F_total := dec 11 1;
    P_system := dec 400 1;
    BTU_diesel := dec 18300 1;
    eta := dec 89 100;
    BTU_target := dec 2200 1;
    solid_max_pct := dec 15 1;
    pH_min := dec 6 1;
    pH_max := dec 9 1;
    salt_max_ppm := dec 5000 1;
    K_F_TO_ACID := dec 53 1000;
    K_PH_TO_BASE := dec 50 1;
    K_ACID_TO_NAOH_VOL := dec 828 10000000;
    cost_diesel_per_L := dec 1 1;
    cost_naoh_per_L := dec 151 100;
    cost_water_per_L := dec 199 100000;
    cost_electricity_per_kWh := dec 12 100;
    cost_labor_per_hr := dec 100 1;
    ratio_sum_max := 11;
    W_min := dec 1 2;
  |}.
End SystemConfig.

Module BlendProperties.
Record t := mk {
    btu_per_lb : Qc;
    pH : Qc;
    f_ppm : Qc;
    solid_pct : Qc;
    salt_ppm : Qc;
  }.
End BlendProperties.

Module PhaseResult.
Record t := mk {
    streams : list (string * Z);   (* the dict {stream_id: ratio_part}, in insertion order *)
    blend_props : BlendProperties.t;
    r_water : Qc;
    r_diesel : Qc;
    r_naoh : Qc;
    r_ext : Qc;
    W : Qc;
    runtime_min : Qc;
    Q_phase : Qc;
    cost_diesel : Qc;
    cost_naoh : Qc;
    cost_water : Qc;
    cost_electricity : Qc;
    cost_labor : Qc;
    cost_total : Qc;
  }.
End PhaseResult.

Module Schedule.
Record t := mk {
    phases : list PhaseResult.t;
    total_cost : cost;
    total_runtime_min : Qc;
  }.
End Schedule.

(** ** blending.py *)

Module Blending.

(** [blend_linear]: ratio-weighted mean. *)
Definition blend_linear (values : list Qc) (ratios : list Z) : Qc :=
  let total := Ratios.sum ratios in
  if decide (total = 0%Z) then 0
  else Qcsum (zip_with (λ v r, v * Z2Qc r) values ratios) / Z2Qc total.

Section with_pH.
  (** [blend_pH] mixes hydrogen-ion concentrations, [-log10] of the
      ratio-weighted mean of [10 ** -pH].  Powers and logarithms are not
      rational functions, so the mixing rule enters as a parameter; it
      only feeds the feasibility test and the base load of
      [calc_r_naoh]. *)
  Variable blend_pH : list Qc → list Z → Qc.

Definition calc_blend_properties (streams : list WasteStream.t)
      (ratios : list Z) : BlendProperties.t :=
    let ratio_list := ratios in
    {| BlendProperties.btu_per_lb :=
         blend_linear (WasteStream.btu_per_lb <$> streams) ratio_list;
       BlendProperties.pH :=
         blend_pH (WasteStream.pH <$> streams) ratio_list;
       BlendProperties.f_ppm :=
         blend_linear (WasteStream.f_ppm <$> streams) ratio_list;
       BlendProperties.solid_pct :=
         blend_linear (WasteStream.solid_pct <$> streams) ratio_list;
       BlendProperties.salt_ppm :=
         blend_linear (WasteStream.salt_ppm <$> streams) ratio_list |}.
End with_pH.

End Blending.

(** ** gatekeeper.py *)

Module Gatekeeper.
Import SystemConfig.

Definition calc_r_water (blend : BlendProperties.t) (cfg : SystemConfig.t) : res Qc :=
  a ← div (BlendProperties.solid_pct blend) (solid_max_pct cfg);
  let r_solid := Qcmax 0 (a - 1) in
  b ← div (BlendProperties.salt_ppm blend) (salt_max_ppm cfg);
  let r_salt := Qcmax 0 (b - 1) in
  Ok (Qcmax r_solid r_salt).

Definition calc_r_diesel (blend : BlendProperties.t) (r_water : Qc)
    (cfg : SystemConfig.t) : res Qc :=
  BTU_eff ← div (BlendProperties.btu_per_lb blend) (1 + r_water);
  d ← div (BTU_target cfg - BTU_eff) (BTU_diesel cfg * eta cfg);
  Ok (Qcmax 0 d).

Definition calc_r_naoh (blend : BlendProperties.t) (cfg : SystemConfig.t) : Qc :=
  let acid_load := BlendProperties.f_ppm blend * K_F_TO_ACID cfg in
  let base_load := Qcmax 0 (BlendProperties.pH blend - dec 7 1) * K_PH_TO_BASE cfg in
  let net_acid := Qcmax 0 (acid_load - base_load) in
  net_acid * K_ACID_TO_NAOH_VOL cfg.

(** Returns [(r_water, r_diesel, r_naoh)]. *)
Definition gatekeeper (blend : BlendProperties.t) (cfg : SystemConfig.t)
    : res (Qc * Qc * Qc) :=
  r_water ← calc_r_water blend cfg;
  r_diesel ← calc_r_diesel blend r_water cfg;
  let r_naoh := calc_r_naoh blend cfg in
  Ok (r_water, r_diesel, r_naoh).

Definition calc_throughput (r_water r_diesel r_naoh : Qc) (cfg : SystemConfig.t)
    : res Qc :=
  let r_ext := r_water + r_diesel + r_naoh in
  div (F_total cfg) (1 + r_ext).

(** The dict returned by [calc_phase_cost]. *)
Record phase_cost := {
  cost_diesel : Qc;
  cost_naoh : Qc;
  cost_water : Qc;
  cost_electricity : Qc;
  cost_labor : Qc;
  cost_total : Qc;
}.

Definition calc_phase_cost (W r_water r_diesel r_naoh runtime_min : Qc)
    (cfg : SystemConfig.t) : phase_cost :=
  let runtime_hr := runtime_min / dec 60 1 in
  let cost_diesel := W * r_diesel * runtime_min * cost_diesel_per_L cfg in
  let cost_naoh := W * r_naoh * runtime_min * cost_naoh_per_L cfg in
  let cost_water := W * r_water * runtime_min * cost_water_per_L cfg in
  let cost_electricity := P_system cfg * runtime_hr * cost_electricity_per_kWh cfg in
  let cost_labor := runtime_hr * cost_labor_per_hr cfg in
  {| cost_diesel := cost_diesel;
     cost_naoh := cost_naoh;
     cost_water := cost_water;
     cost_electricity := cost_electricity;
     cost_labor := cost_labor;
     cost_total := cost_diesel + cost_naoh + cost_water
                   + cost_electricity + cost_labor |}.

End Gatekeeper.

(** ** search.py *)

Module PhaseTemplate.
  (** [_PhaseTemplate] *)
Record t := mk {
    stream_ids : list string;
    ratios : list Z;
    blend : BlendProperties.t;
    r_water : Qc;
    r_diesel : Qc;
    r_naoh : Qc;
    r_ext : Qc;
    W : Qc;
    cost_per_batch : Qc;
    sum_ratios : Z;
  }.
End PhaseTemplate.

Module Search.
Import SystemConfig.

Definition _MAX_TEMPLATES_PER_SUBSET : nat := 30.
Definition _ACTIVE_THRESHOLD_L : Qc := dec 1 2.

(** [itertools.combinations(l, k)], in lexicographic order of positions. *)
Fixpoint combinations {A} (l : list A) (k : nat) : list (list A) :=
  match k with
  | O => [[]]
  | S k' =>
      match l with
      | [] => []
      | x :: xs => ((x ::.) <$> combinations xs k') ++ combinations xs k
      end
  end.

(** [{s.stream_id: s for s in streams}]: a later stream with the same
    identifier replaces an earlier one. *)
Definition streams_map (streams : list WasteStream.t) : gmap string WasteStream.t :=
  foldl (λ m s, <[WasteStream.stream_id s := s]> m) ∅ streams.

(** [sorted(streams_map.keys())] *)
Definition all_ids (streams : list WasteStream.t) : list string :=
  sorted_strings (elements (dom (streams_map streams))).

(** The subsets in the order the two nested [for] loops visit them. *)
Definition subsets (ids : list string) : list (list string) :=
  subset_size ← seq 1 (length ids); combinations ids subset_size.

(** The fixed overhead rate, electricity and labor, in $/min. *)
Definition fixed_cost_per_min (cfg : SystemConfig.t) : Qc :=
  (P_system cfg * cost_electricity_per_kWh cfg + cost_labor_per_hr cfg) / dec 60 1.

(** [templates_by_subset]: a dict keyed by [frozenset(subset)], kept in
    insertion order because [_search] iterates over its items. *)
Abbreviation index := (list (gset string * list PhaseTemplate.t)).

Section with_pH.
  Variable blend_pH : list Qc → list Z → Qc.

  (** One pass of the [for ratios in ratios_list] body: [None] when the
      combination is pruned as infeasible. *)
Definition evaluate (cfg : SystemConfig.t) (fixed_cost_per_min : Qc)
      (subset : list string) (subset_streams : list WasteStream.t)
      (ratios : list Z) : res (option PhaseTemplate.t) :=
    let blend := Blending.calc_blend_properties blend_pH subset_streams ratios in
    if decide (pH_max cfg < BlendProperties.pH blend) then Ok None
    else
      '(r_water, r_diesel, r_naoh) ← Gatekeeper.gatekeeper blend cfg;
      W ← Gatekeeper.calc_throughput r_water r_diesel r_naoh cfg;
      if decide (W < W_min cfg) then Ok None
      else
        let sum_ratios := Ratios.sum ratios in
        let material_cost_per_min :=
          W * (r_diesel * cost_diesel_per_L cfg
               + r_naoh * cost_naoh_per_L cfg
               + r_water * cost_water_per_L cfg) in
        let cost_rate_per_min := material_cost_per_min + fixed_cost_per_min in
        q ← div (Z2Qc sum_ratios) W;
        let cost_per_batch := q * cost_rate_per_min in
        Ok (Some {|
          PhaseTemplate.stream_ids := subset;
          PhaseTemplate.ratios := ratios;
          PhaseTemplate.blend := blend;
          PhaseTemplate.r_water := r_water;
          PhaseTemplate.r_diesel := r_diesel;
          PhaseTemplate.r_naoh := r_naoh;
          PhaseTemplate.r_ext := r_water + r_diesel + r_naoh;
          PhaseTemplate.W := W;
          PhaseTemplate.cost_per_batch := cost_per_batch;
          PhaseTemplate.sum_ratios := sum_ratios |}).

  (** The [templates] list of one subset, before sorting. *)
Fixpoint feasible_templates (cfg : SystemConfig.t) (fixed_cost_per_min : Qc)
      (subset : list string) (subset_streams : list WasteStream.t)
      (ratios_list : list (list Z)) : res (list PhaseTemplate.t) :=
    match ratios_list with
    | [] => Ok []
    | ratios :: rest =>
        o ← evaluate cfg fixed_cost_per_min subset subset_streams ratios;
        templates ← feasible_templates cfg fixed_cost_per_min subset subset_streams rest;
        Ok (match o with Some t => t :: templates | None => templates end)
    end.

  (** The body of the subset loops; a subset without feasible template
      gets no entry. *)
Fixpoint build_index (cfg : SystemConfig.t) (fixed_cost_per_min : Qc)
      (smap : gmap string WasteStream.t) (ratio_cache : gmap nat (list (list Z)))
      (todo : list (list string)) : res index :=
    match todo with
    | [] => Ok []
    | subset :: rest =>
        let subset_streams := omap (λ sid, smap !! sid) subset in
        let ratios_list := default [[1%Z]] (ratio_cache !! length subset) in
        templates ←
          feasible_templates cfg fixed_cost_per_min subset subset_streams ratios_list;
        later ← build_index cfg fixed_cost_per_min smap ratio_cache rest;
        Ok (match templates with
            | [] => later
            | _ =>
                let kept := take _MAX_TEMPLATES_PER_SUBSET
                              (sort_by_key PhaseTemplate.cost_per_batch templates) in
                (list_to_set subset, kept) :: later
            end)
    end.

  (** [_precompute_templates], without the three counters it also
      returns: they feed [stats] only. *)
Definition _precompute_templates (streams : list WasteStream.t)
    (cfg : SystemConfig.t) (ratio_cache : gmap nat (list (list Z))) : res index :=
  build_index cfg (fixed_cost_per_min cfg) (streams_map streams) ratio_cache
    (subsets (all_ids streams)).
End with_pH.

(** A memo entry or a return value of [_search]: [(sub_cost, phases)]. *)
Abbreviation result := (cost * list PhaseResult.t)%type.
(** The [memo] dict; its keys are the frozensets of
    [(sid, round(qty, 0))] pairs, one pair per active stream, that is,
    finite maps from active identifiers to rounded quantities. *)
Abbreviation memo_t := (gmap (gmap string Z) result).
(** A candidate phase: [(cost, template, num_batches)]. *)
Abbreviation candidate := (Qc * PhaseTemplate.t * Qc)%type.

Section with_templates.
  Variable all_templates : index.
  Variable cfg : SystemConfig.t.

  (** [{sid: qty for sid, qty in inv.items() if qty > _ACTIVE_THRESHOLD_L}] *)
Definition active_of (inv : gmap string Qc) : gmap string Qc :=
    filter (λ '(_, qty), _ACTIVE_THRESHOLD_L < qty) inv.

Definition memo_key (active : gmap string Qc) : gmap string Z :=
    py_round <$> active.

  (** [active[sid]]: the identifier is a key of [active] wherever this
      is used, because the template's subset passed [issubset]. *)
Definition qty (active : gmap string Qc) (sid : string) : Qc :=
    default 0 (active !! sid).

Definition num_batches (active : gmap string Qc) (tmpl : PhaseTemplate.t) : Qc :=
    min_list (zip_with (λ sid ratio, qty active sid / Z2Qc ratio)
                (PhaseTemplate.stream_ids tmpl) (PhaseTemplate.ratios tmpl)).

Definition candidates (active : gmap string Qc) : list candidate :=
    '(subset_key, templates) ← all_templates;
    if decide (subset_key ⊆ dom active) then
      (λ tmpl, let n := num_batches active tmpl in
               (n * PhaseTemplate.cost_per_batch tmpl, tmpl, n)) <$> templates
    else [].

  (** [new_inv = dict(inv)] followed by the update loop. *)
Definition update_inventory (inv active : gmap string Qc)
      (tmpl : PhaseTemplate.t) (num_batches : Qc) : gmap string Qc :=
    foldl (λ new_inv '(sid, ratio),
             <[sid := qty active sid - Z2Qc ratio * num_batches]> new_inv)
      inv (zip (PhaseTemplate.stream_ids tmpl) (PhaseTemplate.ratios tmpl)).

  (** The deferred [PhaseResult] construction. *)
Definition make_phase (tmpl : PhaseTemplate.t) (num_batches : Qc) : PhaseResult.t :=
    let Q_phase := Z2Qc (PhaseTemplate.sum_ratios tmpl) * num_batches in
    let runtime_min := Q_phase / PhaseTemplate.W tmpl in
    let costs :=
      Gatekeeper.calc_phase_cost (PhaseTemplate.W tmpl) (PhaseTemplate.r_water tmpl)
        (PhaseTemplate.r_diesel tmpl) (PhaseTemplate.r_naoh tmpl) runtime_min cfg in
    {| PhaseResult.streams :=
         zip (PhaseTemplate.stream_ids tmpl) (PhaseTemplate.ratios tmpl);
       PhaseResult.blend_props := PhaseTemplate.blend tmpl;
       PhaseResult.r_water := PhaseTemplate.r_water tmpl;
       PhaseResult.r_diesel := PhaseTemplate.r_diesel tmpl;
       PhaseResult.r_naoh := PhaseTemplate.r_naoh tmpl;
       PhaseResult.r_ext := PhaseTemplate.r_ext tmpl;
       PhaseResult.W := PhaseTemplate.W tmpl;
       PhaseResult.runtime_min := runtime_min;
       PhaseResult.Q_phase := Q_phase;
       PhaseResult.cost_diesel := Gatekeeper.cost_diesel costs;
       PhaseResult.cost_naoh := Gatekeeper.cost_naoh costs;
       PhaseResult.cost_water := Gatekeeper.cost_water costs;
       PhaseResult.cost_electricity := Gatekeeper.cost_electricity costs;
       PhaseResult.cost_labor := Gatekeeper.cost_labor costs;
       PhaseResult.cost_total := Gatekeeper.cost_total costs |}.

  (** The [for i, (cost_total, tmpl, num_batches) in enumerate(candidates)]
      loop of a node; [recurse] is [_search] one level deeper.  The loop
      state is [(best_sub_cost, best_phases)] and the memo. *)
Fixpoint explore (recurse : gmap string Qc → memo_t → result * memo_t)
      (inv active : gmap string Qc) (todo : list candidate)
      (best_sub_cost : cost) (best_phases : option (list PhaseResult.t))
      (memo : memo_t) : cost * option (list PhaseResult.t) * memo_t :=
    match todo with
    | [] => (best_sub_cost, best_phases, memo)
    | (cost_total, tmpl, num_batches) :: rest =>
        if decide (cost_le best_sub_cost (Fin cost_total)) then
          (best_sub_cost, best_phases, memo)                       (* break *)
        else
          let new_inv := update_inventory inv active tmpl num_batches in
          let '((remaining_cost, remaining_phases), memo) := recurse new_inv memo in
          let total_from_here := cost_add (Fin cost_total) remaining_cost in
          if decide (cost_lt total_from_here best_sub_cost) then
            let phase := make_phase tmpl num_batches in
            explore recurse inv active rest
              total_from_here (Some (phase :: remaining_phases)) memo
          else
            explore recurse inv active rest best_sub_cost best_phases memo
    end.

  (** [_search(inv, depth)] with [room = N + 1 - depth]: every recursive
      call is at [depth + 1], so [room] drops by one, and the test
      [depth > N] is the case [room = 0].  The memo is threaded through
      and handed back with the result. *)
Fixpoint _search_from (room : nat) (inv : gmap string Qc) (memo : memo_t)
      : result * memo_t :=
    let active := active_of inv in
    if decide (active = ∅) then ((Fin 0, []), memo)
    else
      match room with
      | O => ((Inf, []), memo)
      | S room' =>
          let key := memo_key active in
          match memo !! key with
          | Some hit => (hit, memo)
          | None =>
              let todo := sort_by_key (λ c : candidate, c.1.1) (candidates active) in
              let '(best_sub_cost, best_phases, memo) :=
                explore (_search_from room') inv active todo Inf None memo in
              let entry :=
                match best_phases with
                | Some phases => (best_sub_cost, phases)
                | None => (Inf, [])
                end in
              (entry, <[key := entry]> memo)
          end
      end.

Definition _search (N : nat) (inv : gmap string Qc) (depth : nat) (memo : memo_t)
      : result * memo_t :=
    _search_from (N + 1 - depth) inv memo.
End with_templates.

(** [{s.stream_id: s.quantity_L for s in streams}] *)
Definition inventory (streams : list WasteStream.t) : gmap string Qc :=
  foldl (λ m s, <[WasteStream.stream_id s := WasteStream.quantity_L s]> m) ∅ streams.

(** [ratio_cache[n] = generate_ratios(n, cfg.ratio_sum_max)] for the
    given sizes. *)
Fixpoint build_ratio_cache (sizes : list nat) (max_sum : Z)
    : res (gmap nat (list (list Z))) :=
  match sizes with
  | [] => Ok ∅
  | n :: rest =>
      ratios ← Ratios.generate_ratios n max_sum;
      cache ← build_ratio_cache rest max_sum;
      Ok (<[n := ratios]> cache)
  end.

Section with_pH.
  Variable blend_pH : list Qc → list Z → Qc.

  (** [search], returning [(best_cost, best_phases)]; the [stats] dict
      only counts and is left out. *)
Definition search (streams : list WasteStream.t) (cfg : SystemConfig.t) : res result :=
    let N := length streams in
    ratio_cache ← build_ratio_cache (seq 1 N) (ratio_sum_max cfg);
    all_templates ← _precompute_templates blend_pH streams cfg ratio_cache;
    Ok (_search all_templates cfg N (inventory streams) 0 ∅).1.

Definition build_optimized_schedule (streams : list WasteStream.t)
      (cfg : SystemConfig.t) : res (option Schedule.t) :=
    '(best_cost, best_phases) ← search streams cfg;
    if decide (best_cost = Inf) then Ok None
    else Ok (Some {|
      Schedule.phases := best_phases;
      Schedule.total_cost := best_cost;
      Schedule.total_runtime_min := Qcsum (PhaseResult.runtime_min <$> best_phases) |}).
End with_pH.

End Search.

(** ** What the pre-computation guarantees about its templates *)

Module Invariants.
Import Search SystemConfig.
Local Open Scope Qc_scope.

(** A template names at least one stream, each once, pairs every stream
    with a strictly positive ratio part, and records their sum. *)
Definition template_wf (t : PhaseTemplate.t) : Prop :=
  PhaseTemplate.stream_ids t ≠ [] ∧
  NoDup (PhaseTemplate.stream_ids t) ∧
  length (PhaseTemplate.ratios t) = length (PhaseTemplate.stream_ids t) ∧
  Forall (λ r, (0 < r)%Z) (PhaseTemplate.ratios t) ∧
  PhaseTemplate.sum_ratios t = Ratios.sum (PhaseTemplate.ratios t).

(** The cost-per-batch formula of [_precompute_templates]. *)
Definition template_costed (cfg : SystemConfig.t) (t : PhaseTemplate.t) : Prop :=
  PhaseTemplate.cost_per_batch t =
    Z2Qc (PhaseTemplate.sum_ratios t) / PhaseTemplate.W t
    * (PhaseTemplate.W t
       * (PhaseTemplate.r_diesel t * cost_diesel_per_L cfg
          + PhaseTemplate.r_naoh t * cost_naoh_per_L cfg
          + PhaseTemplate.r_water t * cost_water_per_L cfg)
       + fixed_cost_per_min cfg).

(** Every template of the index is well formed and filed under the set
    of its own stream identifiers. *)
Definition index_wf (idx : index) : Prop :=
  ∀ key ts t, (key, ts) ∈ idx → t ∈ ts →
    template_wf t ∧ key = list_to_set (PhaseTemplate.stream_ids t).

Definition index_costed (cfg : SystemConfig.t) (idx : index) : Prop :=
  ∀ key ts t, (key, ts) ∈ idx → t ∈ ts → template_costed cfg t.

(** The ratio cache has, for every size up to [N], vectors of that
    length with strictly positive parts. *)
Definition cache_ok (cache : gmap nat (list (list Z))) (N : nat) : Prop :=
  ∀ n, (1 ≤ n ≤ N)%nat →
    ∃ l, cache !! n = Some l ∧
         ∀ v, v ∈ l → length v = n ∧ Forall (λ r, (0 < r)%Z) v.

(** The ratio part of a stream in a template, when it takes part. *)
Definition ratio_of (t : PhaseTemplate.t) : gmap string Z :=
  list_to_map (zip (PhaseTemplate.stream_ids t) (PhaseTemplate.ratios t)).

(** The inventories the recursion can meet: [reachable idx inv0 d inv]
    when [inv] results from [inv0] by [d] successive candidate phases,
    each a candidate of the state it is applied to.  Pruning and memo
    hits only skip some of these states. *)
Inductive reachable (idx : index) (inv0 : gmap string Qc)
    : nat → gmap string Qc → Prop :=
  | reachable_root : reachable idx inv0 0 inv0
  | reachable_step d inv c tmpl n :
      reachable idx inv0 d inv →
      (c, tmpl, n) ∈ candidates idx (active_of inv) →
      reachable idx inv0 (S d) (update_inventory inv (active_of inv) tmpl n).

(** Some retained template can be applied when exactly the streams
    [ids] are active. *)
Definition applicable (idx : index) (ids : gset string) : Prop :=
  ∃ key ts t, (key, ts) ∈ idx ∧ key ⊆ ids ∧ t ∈ ts.

(** The memo never holds anything but [(inf, [])] for a non-terminal
    state without applicable template. *)
Definition dead_ends_ok (idx : index) (memo : memo_t) : Prop :=
  map_Forall (λ key v, ¬ applicable idx (dom key) → key ≠ ∅ → v = (Inf, [])) memo.

(** A result is consistent when its cost is the sum of the costs of its
    phases, or it is the infeasible result [(inf, [])]. *)
Definition consistent (r : result) : Prop :=
  match r.1 with
  | Fin c => c = Qcsum (PhaseResult.cost_total <$> r.2)
  | Inf => r.2 = []
  end.

End Invariants.

(** ** Reference definitions the search is compared with *)

Module Reference.
Import Search Invariants.
Local Open Scope Qc_scope.

(** The smaller of two costs; [y] only when strictly smaller, as the
    loop's test [total_from_here < best_sub_cost]. *)
Definition cost_min (x y : cost) : cost :=
  if decide (cost_lt y x) then y else x.

(** [m] is a least member of [l]. *)
Definition is_min (m : cost) (l : list cost) : Prop :=
  m ∈ l ∧ ∀ x, x ∈ l → cost_le m x.

Section with_templates.
Variable all_templates : index.
Variable cfg : SystemConfig.t.

(** The candidate loop of a node without a memo: [explore] for a
    recursive call [f] that only returns a result. *)
Fixpoint scan (f : gmap string Qc → result) (inv active : gmap string Qc)
    (todo : list candidate) (best_sub_cost : cost)
    (best_phases : option (list PhaseResult.t))
    : cost * option (list PhaseResult.t) :=
  match todo with
  | [] => (best_sub_cost, best_phases)
  | (cost_total, tmpl, num_batches) :: rest =>
      if decide (cost_le best_sub_cost (Fin cost_total)) then
        (best_sub_cost, best_phases)
      else
        let new_inv := update_inventory inv active tmpl num_batches in
        let '(remaining_cost, remaining_phases) := f new_inv in
        let total_from_here := cost_add (Fin cost_total) remaining_cost in
        if decide (cost_lt total_from_here best_sub_cost) then
          scan f inv active rest total_from_here
            (Some (make_phase cfg tmpl num_batches :: remaining_phases))
        else
          scan f inv active rest best_sub_cost best_phases
  end.

(** The search with its pruning but without memo: every state is
    expanded afresh. *)
Fixpoint pure_from (room : nat) (inv : gmap string Qc) : result :=
  let active := active_of inv in
  if decide (active = ∅) then (Fin 0, [])
  else
    match room with
    | O => (Inf, [])
    | S room' =>
        let todo :=
          sort_by_key (λ c : candidate, c.1.1) (candidates all_templates active) in
        match scan (pure_from room') inv active todo Inf None with
        | (best_sub_cost, Some phases) => (best_sub_cost, phases)
        | (_, None) => (Inf, [])
        end
    end.

(** The memo-free result of a state, with room for all its streams. *)
Definition pure (inv : gmap string Qc) : result :=
  pure_from (S (size (active_of inv))) inv.

(** The exhaustive search: the least total cost over every candidate of
    every state, with neither pruning nor memo. *)
Fixpoint opt_cost (room : nat) (inv : gmap string Qc) : cost :=
  let active := active_of inv in
  if decide (active = ∅) then Fin 0
  else
    match room with
    | O => Inf
    | S room' =>
        foldl cost_min Inf
          ((λ '(c, tmpl, n),
              cost_add (Fin c) (opt_cost room' (update_inventory inv active tmpl n)))
           <$> candidates all_templates active)
    end.

(** A phase sequence composable from the retained templates that
    depletes [inv]: each phase is a candidate of the state it is applied
    to, and the state after the last one is terminal. *)
Inductive schedule_from : gmap string Qc → list candidate → Prop :=
  | schedule_done inv : active_of inv = ∅ → schedule_from inv []
  | schedule_step inv c tmpl n rest :
      (c, tmpl, n) ∈ candidates all_templates (active_of inv) →
      schedule_from (update_inventory inv (active_of inv) tmpl n) rest →
      schedule_from inv ((c, tmpl, n) :: rest).

Definition schedule_cost (sched : list candidate) : Qc :=
  Qcsum ((λ x : candidate, x.1.1) <$> sched).

End with_templates.

(** The batch count of a returned phase: its consumed quantity over the
    sum of its ratio parts. *)
Definition batch_count (p : PhaseResult.t) : Qc :=
  PhaseResult.Q_phase p / Z2Qc (Ratios.sum (PhaseResult.streams p).*2).

(** Subtracting a phase's per-stream consumption, ratio part times batch
    count, from an inventory. *)
Definition consume (inv : gmap string Qc) (p : PhaseResult.t) : gmap string Qc :=
  foldl (λ m '(sid, r), alter (λ q, q - Z2Qc r * batch_count p) sid m)
    inv (PhaseResult.streams p).

(** What is left of [inv] after all [phases]. *)
Definition remaining (phases : list PhaseResult.t) (inv : gmap string Qc)
    : gmap string Qc :=
  foldl consume inv phases.

(** No two inventories the recursion can meet share a memo key unless
    their active parts coincide. *)
Definition collision_free (idx : index) (inv0 : gmap string Qc) : Prop :=
  ∀ d1 s1 d2 s2,
    reachable idx inv0 d1 s1 → reachable idx inv0 d2 s2 →
    memo_key (active_of s1) = memo_key (active_of s2) →
    active_of s1 = active_of s2.

(** The inventories met within [depth] phases of [inv], by exhaustive
    expansion; and a check that no two of their active parts share a
    memo key.  Together they decide [collision_free] on a given input. *)
Fixpoint states_from (idx : index) (depth : nat) (inv : gmap string Qc)
    : list (gmap string Qc) :=
  inv ::
  match depth with
  | O => []
  | S d =>
      '(c, t, n) ← candidates idx (active_of inv);
      states_from idx d (update_inventory inv (active_of inv) t n)
  end.

Fixpoint keys_consistent (seen : gmap (gmap string Z) (gmap string Qc))
    (actives : list (gmap string Qc)) : bool :=
  match actives with
  | [] => true
  | a :: rest =>
      match seen !! memo_key a with
      | Some a' => bool_decide (a = a') && keys_consistent seen rest
      | None => keys_consistent (<[memo_key a := a]> seen) rest
      end
  end.

Definition collision_check (idx : index) (inv0 : gmap string Qc) : bool :=
  keys_consistent ∅
    (active_of <$> states_from idx (size (active_of inv0)) inv0).

(** Every memo entry is the memo-free result of each reachable state
    filed under its key. *)
Definition memo_exact (idx : index) (cfg : SystemConfig.t)
    (inv0 : gmap string Qc) (memo : memo_t) : Prop :=
  ∀ key v, memo !! key = Some v →
    ∀ d s, reachable idx inv0 d s → memo_key (active_of s) = key →
      v = pure idx cfg s.

(** Two configurations that differ in their five cost rates at most. *)
Definition same_plant (cfg cfg' : SystemConfig.t) : Prop :=
  SystemConfig.F_total cfg = SystemConfig.F_total cfg' ∧
  SystemConfig.P_system cfg = SystemConfig.P_system cfg' ∧
  SystemConfig.BTU_diesel cfg = SystemConfig.BTU_diesel cfg' ∧
  SystemConfig.eta cfg = SystemConfig.eta cfg' ∧
  SystemConfig.BTU_target cfg = SystemConfig.BTU_target cfg' ∧
  SystemConfig.solid_max_pct cfg = SystemConfig.solid_max_pct cfg' ∧
  SystemConfig.pH_min cfg = SystemConfig.pH_min cfg' ∧
  SystemConfig.pH_max cfg = SystemConfig.pH_max cfg' ∧
  SystemConfig.salt_max_ppm cfg = SystemConfig.salt_max_ppm cfg' ∧
  SystemConfig.K_F_TO_ACID cfg = SystemConfig.K_F_TO_ACID cfg' ∧
  SystemConfig.K_PH_TO_BASE cfg = SystemConfig.K_PH_TO_BASE cfg' ∧
  SystemConfig.K_ACID_TO_NAOH_VOL cfg = SystemConfig.K_ACID_TO_NAOH_VOL cfg' ∧
  SystemConfig.ratio_sum_max cfg = SystemConfig.ratio_sum_max cfg' ∧
  SystemConfig.W_min cfg = SystemConfig.W_min cfg'.

(** No cost rate of [cfg'] is below that of [cfg]; raising a single
    coefficient is the case where four of the five are equal. *)
Definition costs_le (cfg cfg' : SystemConfig.t) : Prop :=
  SystemConfig.cost_diesel_per_L cfg ≤ SystemConfig.cost_diesel_per_L cfg' ∧
  SystemConfig.cost_naoh_per_L cfg ≤ SystemConfig.cost_naoh_per_L cfg' ∧
  SystemConfig.cost_water_per_L cfg ≤ SystemConfig.cost_water_per_L cfg' ∧
  SystemConfig.cost_electricity_per_kWh cfg
    ≤ SystemConfig.cost_electricity_per_kWh cfg' ∧
  SystemConfig.cost_labor_per_hr cfg ≤ SystemConfig.cost_labor_per_hr cfg'.

(** Every subset of the index holds fewer templates than the quota, so
    that the slice [templates[:K]] dropped none. *)
Definition retains_all (idx : index) : Prop :=
  ∀ key ts, (key, ts) ∈ idx → (length ts < _MAX_TEMPLATES_PER_SUBSET)%nat.

(** The same subset and ratio, at no greater cost per batch. *)
Definition no_dearer (t t' : PhaseTemplate.t) : Prop :=
  PhaseTemplate.stream_ids t = PhaseTemplate.stream_ids t' ∧
  PhaseTemplate.ratios t = PhaseTemplate.ratios t' ∧
  PhaseTemplate.cost_per_batch t ≤ PhaseTemplate.cost_per_batch t'.

(** Every template of [idx'] is in [idx] at no greater cost. *)
Definition index_le (idx idx' : index) : Prop :=
  ∀ key ts' t', (key, ts') ∈ idx' → t' ∈ ts' →
    ∃ ts t, (key, ts) ∈ idx ∧ t ∈ ts ∧ no_dearer t t'.

(** Cost rates and reactor constants under which no cost is negative. *)
Definition cfg_nonneg (cfg : SystemConfig.t) : Prop :=
  0 ≤ SystemConfig.cost_diesel_per_L cfg ∧
  0 ≤ SystemConfig.cost_naoh_per_L cfg ∧
  0 ≤ SystemConfig.cost_water_per_L cfg ∧
  0 ≤ SystemConfig.cost_electricity_per_kWh cfg ∧
  0 ≤ SystemConfig.cost_labor_per_hr cfg ∧
  0 ≤ SystemConfig.P_system cfg ∧
  0 ≤ SystemConfig.K_ACID_TO_NAOH_VOL cfg ∧
  0 < SystemConfig.W_min cfg.

End Reference.

(** ** Sample inputs *)

Module Samples.
Local Open Scope string_scope.

(** A rational stand-in for [blend_pH]: the ratio-weighted mean of the
    pH values.  Whenever all blended streams have the same pH it returns
    that pH, as the true mixing rule does. *)
Definition pH_mean (pH_values : list Qc) (ratios : list Z) : Qc :=
  Blending.blend_linear pH_values ratios.

(** One stream "A" of 10 L. *)
Definition stream_A : WasteStream.t :=
  WasteStream.mk "A" (dec 10 1) (dec 2000 1) (dec 6 1) (dec 100 1) (dec 10 1)
    (dec 3000 1) (dec 90 1).

Definition cache_1 : gmap nat (list (list Z)) := {[ 1%nat := [[1%Z]] ]}.

(** A stream "T" of 0.3 L with pH 14: strictly positive quantity, and
    infeasible alone since its pH exceeds [pH_max]. *)
Definition stream_T : WasteStream.t :=
  WasteStream.mk "T" (dec 3 10) (dec 2000 1) (dec 14 1) (dec 100 1) (dec 10 1)
    (dec 3000 1) (dec 90 1).

(** A stream "H" of 10 L with pH 14: infeasible alone as well. *)
Definition stream_H : WasteStream.t :=
  WasteStream.mk "H" (dec 10 1) (dec 2000 1) (dec 14 1) (dec 100 1) (dec 10 1)
    (dec 3000 1) (dec 90 1).

(** Two streams whose quantities, 2520 L and 5040 L, are multiples of
    every ratio part up to 10, so that all reachable inventories are
    whole litres and no two of them share a memo key. *)
Definition stream_A2520 : WasteStream.t :=
  WasteStream.mk "A" (dec 2520 1) (dec 2000 1) (dec 6 1) (dec 100 1) (dec 10 1)
    (dec 3000 1) (dec 90 1).
Definition stream_B5040 : WasteStream.t :=
  WasteStream.mk "B" (dec 5040 1) (dec 500 1) (dec 6 1) (dec 5000 1) (dec 30 1)
    (dec 1000 1) (dec 70 1).
Definition whole_litres : list WasteStream.t := [stream_A2520; stream_B5040].

(** The ratio cache of a two-stream search with the default bound 11. *)
Definition cache_2 : gmap nat (list (list Z)) :=
  match Search.build_ratio_cache (seq 1 2) 11 with
  | Ok cache => cache
  | Raise _ => ∅
  end.

(** The retained templates of [whole_litres]. *)
Definition whole_litres_index : Search.index :=
  match Search._precompute_templates pH_mean whole_litres SystemConfig.defaults
          cache_2 with
  | Ok idx => idx
  | Raise _ => []
  end.

(** Two streams, 6 L and 4 L, on which two different inventories share
    a memo key. *)
Definition stream_A6 : WasteStream.t :=
  WasteStream.mk "A" (dec 6 1) (dec 0 1) (dec 6 1) (dec 1000 1) (dec 30 1)
    (dec 4000 1) (dec 70 1).
Definition stream_B4 : WasteStream.t :=
  WasteStream.mk "B" (dec 4 1) (dec 5000 1) (dec 6 1) (dec 5000 1) (dec 0 1)
    (dec 8000 1) (dec 90 1).
Definition colliding : list WasteStream.t := [stream_A6; stream_B4].

Definition colliding_index : Search.index :=
  match Search._precompute_templates pH_mean colliding SystemConfig.defaults
          cache_2 with
  | Ok idx => idx
  | Raise _ => []
  end.

(** Three streams, 16 L, 19 L and 8 L. *)
Definition stream_A16 : WasteStream.t :=
  WasteStream.mk "A" (dec 16 1) (dec 0 1) (dec 6 1) (dec 1000 1) (dec 50 1)
    (dec 12000 1) (dec 50 1).
Definition stream_B19 : WasteStream.t :=
  WasteStream.mk "B" (dec 19 1) (dec 5000 1) (dec 6 1) (dec 100 1) (dec 5 1)
    (dec 12000 1) (dec 90 1).
Definition stream_C8 : WasteStream.t :=
  WasteStream.mk "C" (dec 8 1) (dec 0 1) (dec 6 1) (dec 100 1) (dec 30 1)
    (dec 12000 1) (dec 70 1).
Definition three_streams : list WasteStream.t := [stream_A16; stream_B19; stream_C8].

(** Two streams, 131 L and 157 L, and the default configuration with
    the diesel price raised from 1.00 to 2.00 $/L. *)
Definition stream_A131 : WasteStream.t :=
  WasteStream.mk "A" (dec 131 1) (dec 8000 1) (dec 6 1) (dec 5000 1) (dec 0 1)
    (dec 1000 1) (dec 90 1).
Definition stream_B157 : WasteStream.t :=
  WasteStream.mk "B" (dec 157 1) (dec 1000 1) (dec 6 1) (dec 15000 1) (dec 30 1)
    (dec 0 1) (dec 70 1).
Definition priced : list WasteStream.t := [stream_A131; stream_B157].

(** [dataclasses.replace(cfg, cost_diesel_per_L=diesel,
    ratio_sum_max=max_sum)]. *)
Definition replace (cfg : SystemConfig.t) (diesel : Qc) (max_sum : Z)
    : SystemConfig.t := {|
  SystemConfig.F_total := SystemConfig.F_total cfg;
  SystemConfig.P_system := SystemConfig.P_system cfg;
  SystemConfig.BTU_diesel := SystemConfig.BTU_diesel cfg;
  SystemConfig.eta := SystemConfig.eta cfg;
  SystemConfig.BTU_target := SystemConfig.BTU_target cfg;
  SystemConfig.solid_max_pct := SystemConfig.solid_max_pct cfg;
  SystemConfig.pH_min := SystemConfig.pH_min cfg;
  SystemConfig.pH_max := SystemConfig.pH_max cfg;
  SystemConfig.salt_max_ppm := SystemConfig.salt_max_ppm cfg;
  SystemConfig.K_F_TO_ACID := SystemConfig.K_F_TO_ACID cfg;
  SystemConfig.K_PH_TO_BASE := SystemConfig.K_PH_TO_BASE cfg;
  SystemConfig.K_ACID_TO_NAOH_VOL := SystemConfig.K_ACID_TO_NAOH_VOL cfg;
  SystemConfig.cost_diesel_per_L := diesel;
  SystemConfig.cost_naoh_per_L := SystemConfig.cost_naoh_per_L cfg;
  SystemConfig.cost_water_per_L := SystemConfig.cost_water_per_L cfg;
  SystemConfig.cost_electricity_per_kWh := SystemConfig.cost_electricity_per_kWh cfg;
  SystemConfig.cost_labor_per_hr := SystemConfig.cost_labor_per_hr cfg;
  SystemConfig.ratio_sum_max := max_sum;
  SystemConfig.W_min := SystemConfig.W_min cfg;
|}.

Definition diesel_2 : SystemConfig.t := replace SystemConfig.defaults (dec 2 1) 11.

(** The default configuration with ratio sums up to 5 only, so that no
    subset has more feasible templates than are retained; and the same
    with the diesel price doubled. *)
Definition sum_5 : SystemConfig.t := replace SystemConfig.defaults (dec 1 1) 5.
Definition sum_5_diesel_2 : SystemConfig.t :=
  replace SystemConfig.defaults (dec 2 1) 5.

Definition cache_2_sum_5 : gmap nat (list (list Z)) :=
  match Search.build_ratio_cache (seq 1 2) 5 with
  | Ok cache => cache
  | Raise _ => ∅
  end.

Definition sum_5_index : Search.index :=
  match Search._precompute_templates pH_mean whole_litres sum_5 cache_2_sum_5 with
  | Ok idx => idx
  | Raise _ => []
  end.


End Samples.

Local Close Scope Qc_scope.
Local Close Scope Z_scope.

(** ** The template builder as the specification words it *)

Module TemplateBuilder.
Import SystemConfig.
Local Open Scope Qc_scope.

(** A template of the specification: subset, ratio vector, throughput
    and cost-per-batch. *)
Record template := {
  subset : list string;
  ratio : list Z;
  throughput : Qc;
  cost_per_batch : Qc;
}.

(** What the specification's template shows of a [_PhaseTemplate]. *)
Definition view (t : PhaseTemplate.t) : template := {|
  subset := PhaseTemplate.stream_ids t;
  ratio := PhaseTemplate.ratios t;
  throughput := PhaseTemplate.W t;
  cost_per_batch := PhaseTemplate.cost_per_batch t |}.

Section with_pH.
Variable blend_pH : list Qc → list Z → Qc.

(** The cost oracle of this program, from the functions of blending.py
    and gatekeeper.py: a blend is feasible when its pH is at most
    [pH_max] and its throughput at least [W_min], and then the answer is
    the throughput with the cost rate in $/min, materials and fixed
    overhead.  [None] is Infeasible. *)
Definition oracle (cfg : SystemConfig.t) (subset_streams : list WasteStream.t)
    (ratios : list Z) : option (Qc * Qc) :=
  let blend := Blending.calc_blend_properties blend_pH subset_streams ratios in
  if decide (BlendProperties.pH blend ≤ pH_max cfg) then
    match Gatekeeper.gatekeeper blend cfg with
    | Ok (r_water, r_diesel, r_naoh) =>
        match Gatekeeper.calc_throughput r_water r_diesel r_naoh cfg with
        | Ok W =>
            if decide (W_min cfg ≤ W) then
              Some (W,
                    W * (r_diesel * cost_diesel_per_L cfg
                         + r_naoh * cost_naoh_per_L cfg
                         + r_water * cost_water_per_L cfg)
                    + (P_system cfg * cost_electricity_per_kWh cfg
                       + cost_labor_per_hr cfg) / dec 60 1)
            else None
        | Raise _ => None
        end
    | Raise _ => None
    end
  else None.

(** The feasible evaluated combinations of a subset: one template for
    every ratio vector the oracle does not report Infeasible, with
    cost-per-batch = (sum of ratio components / throughput) x cost-rate,
    in the order of the ratio vectors. *)
Definition feasible_combinations (cfg : SystemConfig.t)
    (streams : list WasteStream.t) (ratio_cache : gmap nat (list (list Z)))
    (subset : list string) : list template :=
  let subset_streams := omap (λ sid, Search.streams_map streams !! sid) subset in
  omap (λ ratios,
          (λ '(W, cost_rate),
             {| subset := subset; ratio := ratios; throughput := W;
                cost_per_batch := Z2Qc (Ratios.sum ratios) / W * cost_rate |})
          <$> oracle cfg subset_streams ratios)
       (default [[1%Z]] (ratio_cache !! length subset)).

End with_pH.
End TemplateBuilder.

(** ** ratios.py: the statistics helper *)

Module RatioStats.
Local Open Scope Z_scope.

(** The [for n in range(1, max_streams + 1)] loop of [ratio_stats],
    filling the dict [stats]. *)
Fixpoint ratio_stats_loop (sizes : list nat) (max_sum : Z) (stats : gmap nat nat)
    : res (gmap nat nat) :=
  match sizes with
  | [] => Ok stats
  | n :: rest =>
      ratios ← Ratios.generate_ratios n max_sum;
      ratio_stats_loop rest max_sum (<[n := length ratios]> stats)
  end.

Definition ratio_stats (max_streams : Z) (max_sum : Z) : res (gmap nat nat) :=
  ratio_stats_loop (seq 1 (Z.to_nat max_streams)) max_sum ∅.

End RatioStats.

(** ** Where returned phases come from *)

Module Returned.
Import Search.
Local Open Scope Qc_scope.

(** The phases of every result and memo entry are built by [make_phase]
    from a retained template and a positive batch count. *)
Definition from_index (idx : index) (cfg : SystemConfig.t) (p : PhaseResult.t) : Prop :=
  ∃ key ts t n, (key, ts) ∈ idx ∧ t ∈ ts ∧ 0 < n ∧ p = make_phase cfg t n.

End Returned.

(** ** Exceptions outside the search *)

Module Errors.

(** The messages of the [ValueError]s raised by the package, with the
    values their f-strings interpolate. *)
Inductive message :=
  | At_least_1_stream_required
  | Maximum_5_streams_supported (got : nat)
  | Duplicate_stream_id (sid : string)
  | Quantity_must_be_positive (sid : string)
  | Btu_cannot_be_negative (sid : string)
  | PH_must_be_between_0_and_14 (sid : string)
  | F_ppm_cannot_be_negative (sid : string)
  | Solid_pct_must_be_between_0_and_100 (sid : string)
  | Salt_ppm_cannot_be_negative (sid : string)
  | Min_arg_is_an_empty_sequence.

Inductive pyexn :=
  | Builtin (e : exn)
  | KeyError (key : string)
  | ValueError (m : message).

Inductive try (A : Type) : Type :=
  | Return (a : A)
  | Throw (e : pyexn).
Arguments Return {A} a.
Arguments Throw {A} e.

Global Instance try_ret : MRet try := λ A a, Return a.
Global Instance try_bind : MBind try := λ A B f m,
  match m with Return a => f a | Throw e => Throw e end.

(** A computation of the search layer run where more can go wrong. *)
Definition lift {A} (r : res A) : try A :=
  match r with Ok a => Return a | Raise e => Throw (Builtin e) end.

End Errors.

(** ** gatekeeper.py: [evaluate_phase] *)

Module Phase.
Import Errors SystemConfig.
Local Open Scope Qc_scope.

(** [inventory[sid]] *)
Definition getitem (inventory : gmap string Qc) (sid : string) : try Qc :=
  match inventory !! sid with
  | Some q => Return q
  | None => Throw (KeyError sid)
  end.

(** The generator [inventory[sid] / ratio for sid, ratio in zip(...)],
    run to its end as [min] does. *)
Fixpoint quotients (inventory : gmap string Qc) (pairs : list (string * Z))
    : try (list Qc) :=
  match pairs with
  | [] => Return []
  | (sid, ratio) :: rest =>
      q ← getitem inventory sid;
      x ← lift (div q (Z2Qc ratio));
      xs ← quotients inventory rest;
      Return (x :: xs)
  end.

(** [min(iterable)] with its [ValueError] on an empty iterable. *)
Definition min_of (l : list Qc) : try Qc :=
  match l with
  | [] => Throw (ValueError Min_arg_is_an_empty_sequence)
  | _ => Return (min_list l)
  end.

(** [d[k] = v] on a dict kept in insertion order: an existing key keeps
    its place and takes the new value. *)
Fixpoint dict_set (d : list (string * Z)) (k : string) (v : Z) : list (string * Z) :=
  match d with
  | [] => [(k, v)]
  | (k', v') :: d' =>
      if decide (k = k') then (k, v) :: d' else (k', v') :: dict_set d' k v
  end.

(** [dict(pairs)] *)
Definition dict (pairs : list (string * Z)) : list (string * Z) :=
  foldl (λ d '(k, v), dict_set d k v) [] pairs.

Section with_pH.
Variable blend_pH : list Qc → list Z → Qc.

Definition evaluate_phase (streams : list WasteStream.t) (ratios : list Z)
    (inventory : gmap string Qc) (cfg : SystemConfig.t)
    : try (option PhaseResult.t) :=
  let stream_ids := WasteStream.stream_id <$> streams in
  let blend := Blending.calc_blend_properties blend_pH streams ratios in
  if decide (pH_max cfg < BlendProperties.pH blend) then Return None
  else
    '(r_water, r_diesel, r_naoh) ← lift (Gatekeeper.gatekeeper blend cfg);
    let r_ext := r_water + r_diesel + r_naoh in
    W ← lift (Gatekeeper.calc_throughput r_water r_diesel r_naoh cfg);
    if decide (W < W_min cfg) then Return None
    else
      qs ← quotients inventory (zip stream_ids ratios);
      num_batches ← min_of qs;
      let Q_phase := Qcsum ((λ r, Z2Qc r * num_batches) <$> ratios) in
      runtime_min ← lift (div Q_phase W);
      let costs :=
        Gatekeeper.calc_phase_cost W r_water r_diesel r_naoh runtime_min cfg in
      Return (Some {|
        PhaseResult.streams := dict (zip stream_ids ratios);
        PhaseResult.blend_props := blend;
        PhaseResult.r_water := r_water;
        PhaseResult.r_diesel := r_diesel;
        PhaseResult.r_naoh := r_naoh;
        PhaseResult.r_ext := r_ext;
        PhaseResult.W := W;
        PhaseResult.runtime_min := runtime_min;
        PhaseResult.Q_phase := Q_phase;
        PhaseResult.cost_diesel := Gatekeeper.cost_diesel costs;
        PhaseResult.cost_naoh := Gatekeeper.cost_naoh costs;
        PhaseResult.cost_water := Gatekeeper.cost_water costs;
        PhaseResult.cost_electricity := Gatekeeper.cost_electricity costs;
        PhaseResult.cost_labor := Gatekeeper.cost_labor costs;
        PhaseResult.cost_total := Gatekeeper.cost_total costs |}).

End with_pH.
End Phase.

(** ** __init__.py: input validation *)

Module Package.
Import Errors.
Local Open Scope Qc_scope.

(** The checks on one stream, after the duplicate test, in the order of
    the source; the [isinstance] test always passes on a list of
    [WasteStream.t]. *)
Definition check_stream (s : WasteStream.t) : try unit :=
  let sid := WasteStream.stream_id s in
  if decide (WasteStream.quantity_L s ≤ 0) then
    Throw (ValueError (Quantity_must_be_positive sid))
  else if decide (WasteStream.btu_per_lb s < 0) then
    Throw (ValueError (Btu_cannot_be_negative sid))
  else if decide (¬ (0 ≤ WasteStream.pH s ∧ WasteStream.pH s ≤ dec 14 1)) then
    Throw (ValueError (PH_must_be_between_0_and_14 sid))
  else if decide (WasteStream.f_ppm s < 0) then
    Throw (ValueError (F_ppm_cannot_be_negative sid))
  else if decide (¬ (0 ≤ WasteStream.solid_pct s
                     ∧ WasteStream.solid_pct s ≤ dec 100 1)) then
    Throw (ValueError (Solid_pct_must_be_between_0_and_100 sid))
  else if decide (WasteStream.salt_ppm s < 0) then
    Throw (ValueError (Salt_ppm_cannot_be_negative sid))
  else Return ().

(** The [for s in streams] loop with its set [ids] of identifiers seen. *)
Fixpoint validate_loop (ids : gset string) (streams : list WasteStream.t)
    : try unit :=
  match streams with
  | [] => Return ()
  | s :: rest =>
      if decide (WasteStream.stream_id s ∈ ids) then
        Throw (ValueError (Duplicate_stream_id (WasteStream.stream_id s)))
      else
        let ids := ids ∪ {[WasteStream.stream_id s]} in
        _ ← check_stream s;
        validate_loop ids rest
  end.

Definition _validate_streams (streams : list WasteStream.t) : try unit :=
  if decide (streams = []) then Throw (ValueError At_least_1_stream_required)
  else if decide (5 < length streams)%nat then
    Throw (ValueError (Maximum_5_streams_supported (length streams)))
  else validate_loop ∅ streams.

(** What [_validate_streams] lets through. *)
Definition valid_stream (s : WasteStream.t) : Prop :=
  0 < WasteStream.quantity_L s ∧
  0 ≤ WasteStream.btu_per_lb s ∧
  0 ≤ WasteStream.pH s ∧ WasteStream.pH s ≤ dec 14 1 ∧
  0 ≤ WasteStream.f_ppm s ∧
  0 ≤ WasteStream.solid_pct s ∧ WasteStream.solid_pct s ≤ dec 100 1 ∧
  0 ≤ WasteStream.salt_ppm s.

Definition valid_streams (streams : list WasteStream.t) : Prop :=
  (1 ≤ length streams ≤ 5)%nat ∧
  NoDup (WasteStream.stream_id <$> streams) ∧
  Forall valid_stream streams.

End Package.

(** ** Floats with infinities and NaN *)

Module Floats.
Local Open Scope Qc_scope.

(** A float outside the search: a finite number, [inf], [-inf] or [nan].
    Finite arithmetic is exact, as elsewhere; the special values follow
    IEEE 754.  The two zeros are one [Num 0]: they differ only under a
    division by zero, which Python turns into an exception. *)
Inductive xfloat := Num (q : Qc) | PInf | NInf | NaN.

Definition xmul (x y : xfloat) : xfloat :=
  match x, y with
  | NaN, _ | _, NaN => NaN
  | Num a, Num b => Num (a * b)
  | Num a, PInf | PInf, Num a =>
      if decide (0 < a) then PInf else if decide (a < 0) then NInf else NaN
  | Num a, NInf | NInf, Num a =>
      if decide (0 < a) then NInf else if decide (a < 0) then PInf else NaN
  | PInf, PInf | NInf, NInf => PInf
  | PInf, NInf | NInf, PInf => NInf
  end.

Definition xadd (x y : xfloat) : xfloat :=
  match x, y with
  | NaN, _ | _, NaN => NaN
  | Num a, Num b => Num (a + b)
  | PInf, NInf | NInf, PInf => NaN
  | PInf, _ | _, PInf => PInf
  | NInf, _ | _, NInf => NInf
  end.

Definition xopp (x : xfloat) : xfloat :=
  match x with Num a => Num (- a) | PInf => NInf | NInf => PInf | NaN => NaN end.

(** [x / y]: a zero divisor raises. *)
Definition xdiv (x y : xfloat) : res xfloat :=
  match y with
  | Num b =>
      if decide (b = 0) then Raise ZeroDivisionError
      else Ok (xmul x (Num (/ b)))
  | PInf | NInf =>
      Ok (match x with Num _ => Num 0 | _ => NaN end)
  | NaN => Ok NaN
  end.

(** [x > 0] *)
Definition xpos (x : xfloat) : Prop :=
  match x with Num a => 0 < a | PInf => True | NInf | NaN => False end.
Global Instance xpos_dec x : Decision (xpos x).
Proof. destruct x; simpl; apply _. Defined.

(** [sum(iterable)]: a left fold from the integer 0. *)
Definition xsum (l : list xfloat) : xfloat := foldl xadd (Num 0) l.

(** The float held by a [cost]. *)
Definition of_cost (c : cost) : xfloat :=
  match c with Fin q => Num q | Inf => PInf end.

End Floats.

(** ** baseline.py *)

Module Baseline.
Import Floats SystemConfig.
Local Open Scope Qc_scope.

(** A [PhaseResult] as [calc_baseline] fills it: the runtime and the
    costs can be [inf] or [nan]. *)
Record phase := {
  streams : list (string * Z);
  blend_props : BlendProperties.t;
  r_water : Qc;
  r_diesel : Qc;
  r_naoh : Qc;
  r_ext : Qc;
  W : Qc;
  runtime_min : xfloat;
  Q_phase : Qc;
  cost_diesel : xfloat;
  cost_naoh : xfloat;
  cost_water : xfloat;
  cost_electricity : xfloat;
  cost_labor : xfloat;
  cost_total : xfloat;
}.

(** The [Schedule] it returns. *)
Record schedule := {
  phases : list phase;
  total_cost : xfloat;
  total_runtime_min : xfloat;
}.

(** [calc_phase_cost] called with a runtime that can be [inf]. *)
Definition calc_phase_cost (W r_water r_diesel r_naoh : Qc) (runtime_min : xfloat)
    (cfg : SystemConfig.t) : xfloat * xfloat * xfloat * xfloat * xfloat * xfloat :=
  let runtime_hr := xmul runtime_min (Num (/ dec 60 1)) in
  let cost_diesel :=
    xmul (xmul (Num (W * r_diesel)) runtime_min) (Num (cost_diesel_per_L cfg)) in
  let cost_naoh :=
    xmul (xmul (Num (W * r_naoh)) runtime_min) (Num (cost_naoh_per_L cfg)) in
  let cost_water :=
    xmul (xmul (Num (W * r_water)) runtime_min) (Num (cost_water_per_L cfg)) in
  let cost_electricity :=
    xmul (xmul (Num (P_system cfg)) runtime_hr) (Num (cost_electricity_per_kWh cfg)) in
  let cost_labor := xmul runtime_hr (Num (cost_labor_per_hr cfg)) in
  (cost_diesel, cost_naoh, cost_water, cost_electricity, cost_labor,
   xadd (xadd (xadd (xadd cost_diesel cost_naoh) cost_water) cost_electricity)
     cost_labor).

(** A single stream: its own properties are the "blend" properties. *)
Definition solo_blend (stream : WasteStream.t) : BlendProperties.t := {|
  BlendProperties.btu_per_lb := WasteStream.btu_per_lb stream;
  BlendProperties.pH := WasteStream.pH stream;
  BlendProperties.f_ppm := WasteStream.f_ppm stream;
  BlendProperties.solid_pct := WasteStream.solid_pct stream;
  BlendProperties.salt_ppm := WasteStream.salt_ppm stream |}.

(** The body of the [for stream in streams] loop: the phase appended. *)
Definition solo_phase (stream : WasteStream.t) (cfg : SystemConfig.t) : res phase :=
  let blend := solo_blend stream in
  '(r_water, r_diesel, r_naoh) ← Gatekeeper.gatekeeper blend cfg;
  let r_ext := r_water + r_diesel + r_naoh in
  W ← Gatekeeper.calc_throughput r_water r_diesel r_naoh cfg;
  let runtime_min :=
    if decide (0 < W) then Num (WasteStream.quantity_L stream / W) else PInf in
  let '(cost_diesel, cost_naoh, cost_water, cost_electricity, cost_labor, cost_total) :=
    calc_phase_cost W r_water r_diesel r_naoh runtime_min cfg in
  Ok {|
    streams := [(WasteStream.stream_id stream, 1%Z)];
    blend_props := blend;
    r_water := r_water;
    r_diesel := r_diesel;
    r_naoh := r_naoh;
    r_ext := r_ext;
    W := W;
    runtime_min := runtime_min;
    Q_phase := WasteStream.quantity_L stream;
    cost_diesel := cost_diesel;
    cost_naoh := cost_naoh;
    cost_water := cost_water;
    cost_electricity := cost_electricity;
    cost_labor := cost_labor;
    cost_total := cost_total |}.

Fixpoint solo_phases (streams : list WasteStream.t) (cfg : SystemConfig.t)
    : res (list phase) :=
  match streams with
  | [] => Ok []
  | stream :: rest =>
      p ← solo_phase stream cfg;
      ps ← solo_phases rest cfg;
      Ok (p :: ps)
  end.

Definition calc_baseline (streams : list WasteStream.t) (cfg : SystemConfig.t)
    : res schedule :=
  phases ← solo_phases streams cfg;
  Ok {| phases := phases;
        total_cost := xsum (cost_total <$> phases);
        total_runtime_min := xsum (runtime_min <$> phases) |}.

End Baseline.

(** ** __init__.py: the pipeline *)

Module Pipeline.
Import Errors Floats Package.
Local Open Scope Qc_scope.

(** The dict [run_optimization] returns, without the search statistics. *)
Record outcome := {
  baseline : Baseline.schedule;
  optimized : option Schedule.t;
  savings_pct : xfloat;
}.

Section with_pH.
Variable blend_pH : list Qc → list Z → Qc.

(** [run_optimization(streams, cfg, verbose=False)]; [cfg] is [None] to
    take every default.  With [verbose] the report is printed between
    the search and the savings, which changes nothing in what is
    returned. *)
Definition run_optimization (streams : list WasteStream.t)
    (cfg : option SystemConfig.t) : try outcome :=
  let cfg := default SystemConfig.defaults cfg in
  _ ← _validate_streams streams;
  baseline ← lift (Baseline.calc_baseline streams cfg);
  optimized ← lift (Search.build_optimized_schedule blend_pH streams cfg);
  savings_pct ←
    match optimized with
    | Some schedule =>
        if decide (xpos (Baseline.total_cost baseline)) then
          ratio ← lift (xdiv (of_cost (Schedule.total_cost schedule))
                          (Baseline.total_cost baseline));
          Return (xmul (xadd (Num 1) (xopp ratio)) (Num (dec 100 1)))
        else Return (Num 0)
    | None => Return (Num 0)
    end;
  Return {| baseline := baseline; optimized := optimized;
            savings_pct := savings_pct |}.

End with_pH.
End Pipeline.

(** ** __init__.py: validation of streams whose fields are any float *)

Module Unvalidated.
Import Errors Floats.
Local Open Scope Qc_scope.

(** A [WasteStream] as the caller can build it: the dataclass checks
    nothing, so a numeric field can also be [inf], [-inf] or [nan]. *)
Record stream := mk {
  stream_id : string;
  quantity_L : xfloat;
  btu_per_lb : xfloat;
  pH : xfloat;
  f_ppm : xfloat;
  solid_pct : xfloat;
  salt_ppm : xfloat;
  moisture_pct : xfloat;
}.

(** A stream with finite fields. *)
Definition of_stream (s : WasteStream.t) : stream := {|
  stream_id := WasteStream.stream_id s;
  quantity_L := Num (WasteStream.quantity_L s);
  btu_per_lb := Num (WasteStream.btu_per_lb s);
  pH := Num (WasteStream.pH s);
  f_ppm := Num (WasteStream.f_ppm s);
  solid_pct := Num (WasteStream.solid_pct s);
  salt_ppm := Num (WasteStream.salt_ppm s);
  moisture_pct := Num (WasteStream.moisture_pct s) |}.

(** [x <= y] and [x < y] on floats: false as soon as a side is [nan]. *)
Definition xle (x y : xfloat) : Prop :=
  match x, y with
  | NaN, _ | _, NaN => False
  | NInf, _ | _, PInf => True
  | Num a, Num b => a ≤ b
  | PInf, _ | _, NInf => False
  end.

Definition xlt (x y : xfloat) : Prop :=
  match x, y with
  | NaN, _ | _, NaN => False
  | PInf, _ | _, NInf => False
  | Num a, Num b => a < b
  | NInf, _ | _, PInf => True
  end.

Global Instance xle_dec x y : Decision (xle x y).
Proof. destruct x, y; simpl; apply _. Defined.
Global Instance xlt_dec x y : Decision (xlt x y).
Proof. destruct x, y; simpl; apply _. Defined.

(** The checks on one stream, after the duplicate test, in the order of
    the source. *)
Definition check_stream (s : stream) : try unit :=
  let sid := stream_id s in
  if decide (xle (quantity_L s) (Num 0)) then
    Throw (ValueError (Quantity_must_be_positive sid))
  else if decide (xlt (btu_per_lb s) (Num 0)) then
    Throw (ValueError (Btu_cannot_be_negative sid))
  else if decide (¬ (xle (Num 0) (pH s) ∧ xle (pH s) (Num (dec 14 1)))) then
    Throw (ValueError (PH_must_be_between_0_and_14 sid))
  else if decide (xlt (f_ppm s) (Num 0)) then
    Throw (ValueError (F_ppm_cannot_be_negative sid))
  else if decide (¬ (xle (Num 0) (solid_pct s)
                     ∧ xle (solid_pct s) (Num (dec 100 1)))) then
    Throw (ValueError (Solid_pct_must_be_between_0_and_100 sid))
  else if decide (xlt (salt_ppm s) (Num 0)) then
    Throw (ValueError (Salt_ppm_cannot_be_negative sid))
  else Return ().

(** The [for s in streams] loop with its set [ids] of identifiers seen. *)
Fixpoint validate_loop (ids : gset string) (streams : list stream) : try unit :=
  match streams with
  | [] => Return ()
  | s :: rest =>
      if decide (stream_id s ∈ ids) then
        Throw (ValueError (Duplicate_stream_id (stream_id s)))
      else
        let ids := ids ∪ {[stream_id s]} in
        _ ← check_stream s;
        validate_loop ids rest
  end.

Definition _validate_streams (streams : list stream) : try unit :=
  if decide (streams = []) then Throw (ValueError At_least_1_stream_required)
  else if decide (5 < length streams)%nat then
    Throw (ValueError (Maximum_5_streams_supported (length streams)))
  else validate_loop ∅ streams.

(** The values a check lets through: a quantity that is positive,
    [inf] or [nan]; a heat value, fluorine or salt content that is not
    negative, or is [inf] or [nan]; a pH or solids content that is a
    number within its range. *)
Definition positive_or_nan (x : xfloat) : Prop :=
  match x with Num q => 0 < q | PInf | NaN => True | NInf => False end.

Definition non_negative_or_nan (x : xfloat) : Prop :=
  match x with Num q => 0 ≤ q | PInf | NaN => True | NInf => False end.

Definition within (lo hi : Qc) (x : xfloat) : Prop :=
  match x with Num q => lo ≤ q ∧ q ≤ hi | _ => False end.

Definition accepted (s : stream) : Prop :=
  positive_or_nan (quantity_L s) ∧
  non_negative_or_nan (btu_per_lb s) ∧
  within 0 (dec 14 1) (pH s) ∧
  non_negative_or_nan (f_ppm s) ∧
  within 0 (dec 100 1) (solid_pct s) ∧
  non_negative_or_nan (salt_ppm s).

End Unvalidated.
Local Open Scope Z_scope.

(** * Ratio enumeration *)

Section ratio_facts.
Import Ratios.

Lemma elem_of_product r k v :
  v ∈ product r k ↔ length v = k ∧ Forall (.∈ r) v.
Proof.
  revert v. induction k as [|k IH]; intros v; simpl.
  - rewrite list_elem_of_singleton. split.
    + intros ->. by split.
    + intros [Hl _]. by apply nil_length_inv.
  - rewrite list_elem_of_bind. split.
    + intros (x & Hv & Hx). apply list_elem_of_fmap in Hv as (w & -> & Hw).
      apply IH in Hw as [Hl Hall]. simpl. split; [by rewrite Hl|by constructor].
    + intros [Hl Hall]. destruct v as [|x w]; [done|].
      inversion Hall; subst. exists x. split; [|done].
      apply list_elem_of_fmap. exists w. split; [done|]. apply IH.
      split; [by injection Hl|done].
Qed.

Lemma NoDup_product r k : NoDup r → NoDup (product r k).
Proof.
  intros Hr. induction k as [|k IH]; simpl.
  - apply NoDup_singleton.
  - apply NoDup_bind; [| |done].
    + intros x1 x2 v _ _ H1 H2.
      apply list_elem_of_fmap in H1 as (w1 & -> & _).
      apply list_elem_of_fmap in H2 as (w2 & Heq & _). by injection Heq.
    + intros x _. by apply (NoDup_fmap_2 _).
Qed.

Lemma fold_left_gcd xs x :
  0 ≤ x → fold_left Z.gcd xs x = Z.gcd x (list_gcd xs).
Proof.
  revert x. induction xs as [|y xs IH]; intros x Hx; simpl.
  - rewrite Z.gcd_0_r. by rewrite Z.abs_eq.
  - rewrite IH by apply Z.gcd_nonneg. by rewrite Z.gcd_assoc.
Qed.

Lemma reduce_gcd_pos v :
  v ≠ [] → Forall (λ x, 0 < x) v → reduce_gcd v = Ok (list_gcd v).
Proof.
  destruct v as [|x xs]; [done|]. intros _ Hpos. inversion Hpos; subst.
  simpl. f_equal. apply fold_left_gcd. lia.
Qed.

Lemma collect_filter max_sum combos :
  Forall (λ v, v ≠ [] ∧ Forall (λ x, 0 < x) v) combos →
  collect max_sum combos = Ok (filter (kept max_sum) combos).
Proof.
  induction 1 as [|v combos [Hne Hpos] _ IH]; [done|].
  simpl. rewrite (reduce_gcd_pos v Hne Hpos). simpl.
  rewrite filter_cons, IH.
  destruct (decide (kept max_sum v)) as [[Hs Hg]|Hk];
    repeat case_decide; simpl; try done; try lia.
  destruct Hk; split; [lia|done].
Qed.

Lemma sum_ge_length v : Forall (λ x, 0 < x) v → Z.of_nat (length v) ≤ sum v.
Proof. induction 1; simpl in *; lia. Qed.

Lemma sum_bounds_parts v x :
  Forall (λ x, 0 < x) v → x ∈ v → x + Z.of_nat (length v) - 1 ≤ sum v.
Proof.
  induction 1 as [|y v Hy Hv IH]; [by intros ?%elem_of_nil|].
  intros [->|Hin]%elem_of_cons; simpl.
  - pose proof (sum_ge_length v Hv). lia.
  - specialize (IH Hin). lia.
Qed.

Lemma list_gcd_singleton x : 0 < x → list_gcd [x] = x.
Proof. intros. unfold list_gcd. simpl. rewrite Z.gcd_0_r. lia. Qed.

(** [list_gcd] is the greatest common divisor: it divides every part and
    every common divisor divides it. *)
Lemma list_gcd_divides v x : x ∈ v → (list_gcd v | x).
Proof.
  induction v as [|y v IH]; [by intros ?%elem_of_nil|].
  intros [->|Hin]%elem_of_cons; simpl.
  - apply Z.gcd_divide_l.
  - etrans; [apply Z.gcd_divide_r|by apply IH].
Qed.

Lemma list_gcd_greatest v d : (∀ x, x ∈ v → (d | x)) → (d | list_gcd v).
Proof.
  induction v as [|y v IH]; intros Hd; simpl.
  - apply Z.divide_0_r.
  - apply Z.gcd_greatest; [apply Hd; left|apply IH; intros; apply Hd; by right].
Qed.

Lemma generate_ratios_elems n max_sum :
  (1 ≤ n)%nat → Z.of_nat n ≤ max_sum →
  ∃ l, generate_ratios n max_sum = Ok l ∧ NoDup l ∧
       ∀ v, v ∈ l ↔ valid_ratio n max_sum v.
Proof.
  intros Hn Hmax. unfold generate_ratios. case_decide as Hn1.
  - subst n. exists [[1]]. split; [done|]. split; [apply NoDup_singleton|].
    intros v. rewrite list_elem_of_singleton. unfold valid_ratio. split.
    + intros ->. repeat split; [by repeat constructor|simpl; lia].
    + intros (Hl & Hpos & _ & Hg). destruct v as [|x [|??]]; try done.
      inversion Hpos; subst. rewrite list_gcd_singleton in Hg by done. by subst.
  - set (upper := max_sum - Z.of_nat n + 1).
    exists (filter (kept max_sum) (product (seqZ 1 upper) n)).
    split; [|split].
    + apply collect_filter. apply Forall_forall. intros v [Hl Hall]%elem_of_product.
      split; [destruct v; simpl in *; [lia|done]|].
      eapply Forall_impl; [done|]. intros x Hx%elem_of_seqZ. lia.
    + apply NoDup_filter, NoDup_product, NoDup_seqZ.
    + intros v. rewrite list_elem_of_filter, elem_of_product. unfold kept, valid_ratio.
      split.
      * intros ((Hs & Hg) & Hl & Hall). repeat split; try done.
        eapply Forall_impl; [done|]. intros x Hx%elem_of_seqZ. lia.
      * intros (Hl & Hpos & Hs & Hg). repeat split; try done.
        apply Forall_forall. intros x Hx. apply elem_of_seqZ.
        pose proof (sum_bounds_parts v x Hpos Hx).
        rewrite Forall_forall in Hpos. specialize (Hpos x Hx). subst upper. lia.
Qed.

(** C8, as amended.  For every [n >= 1] (so for 1..5) and [max_sum >= n],
    [generate_ratios] returns, without raising, a duplicate-free list whose
    members are exactly the length-[n] vectors of strictly positive
    integers with sum at most [max_sum] and gcd 1; for [n = 2] the vectors
    (1,2) and (2,1) are both present, and distinct, once [max_sum >= 3]. *)
Theorem generate_ratios_complete (n : nat) (max_sum : Z) :
  (1 ≤ n)%nat → Z.of_nat n ≤ max_sum →
  ∃ l, generate_ratios n max_sum = Ok l ∧ NoDup l ∧
       (∀ v, v ∈ l ↔ valid_ratio n max_sum v) ∧
       (n = 2%nat → 3 ≤ max_sum → [1; 2] ∈ l ∧ [2; 1] ∈ l ∧ [1; 2] ≠ [2; 1]).
Proof.
  intros Hn Hmax.
  destruct (generate_ratios_elems n max_sum Hn Hmax) as (l & Hl & Hnd & Hiff).
  exists l. split; [done|]. split; [done|]. split; [done|].
  intros -> Hmax3. split; [|split; [|done]].
  - apply Hiff. repeat split; [by repeat constructor|simpl; lia].
  - apply Hiff. repeat split; [by repeat constructor|simpl; lia].
Qed.

Lemma generate_ratios_complete_witness :
  ∃ l, generate_ratios 2 3 = Ok l ∧ NoDup l ∧
       (∀ v, v ∈ l ↔ valid_ratio 2 3 v) ∧
       (2%nat = 2%nat → 3 ≤ 3 → [1; 2] ∈ l ∧ [2; 1] ∈ l ∧ [1; 2] ≠ [2; 1]).
Proof. apply (generate_ratios_complete 2 3); lia. Defined.

(** C8 as stated fails at [n = 2], [max_sum = 2]: the bound [max_sum >= n]
    holds, yet the only vector returned is (1,1), and (1,2), whose sum is
    3, is absent. *)
Lemma generate_ratios_2_2_lacks_1_2 :
  Z.of_nat 2 ≤ 2 ∧ generate_ratios 2 2 = Ok [[1; 1]] ∧ [1; 2] ∉ [[1; 1]].
Proof.
  split; [lia|]. split; [reflexivity|].
  intros Hin%list_elem_of_singleton. discriminate.
Qed.

End ratio_facts.
Local Open Scope Z_scope.

(** * The depth bound *)

Section depth_bound.
Import Search.

(** C6, as amended.  When the depth exceeds [N] at a non-terminal state,
    [_search] returns [(inf, [])] as an ordinary value and leaves the memo
    as it was; nothing is raised. *)
Theorem depth_bound_returns_inf (all_templates : index) (cfg : SystemConfig.t)
    (N : nat) (inv : gmap string Qc) (depth : nat) (memo : memo_t) :
  (N < depth)%nat → active_of inv ≠ ∅ →
  _search all_templates cfg N inv depth memo = ((Inf, []), memo).
Proof.
  intros Hd Hact. unfold _search.
  replace (N + 1 - depth)%nat with 0%nat by lia.
  simpl. by case_decide.
Qed.

Lemma depth_bound_returns_inf_witness :
  _search [] SystemConfig.defaults 1 (inventory [Samples.stream_A]) 2 ∅
  = ((Inf, []), ∅).
Proof.
  apply (depth_bound_returns_inf [] SystemConfig.defaults 1
           (inventory [Samples.stream_A]) 2 ∅); [lia|].
  intros E. apply (f_equal (λ m, m !! "A"%string)) in E. vm_compute in E. discriminate.
Defined.

(** C6 as stated fails: with the templates of the one-stream input "A",
    a call at depth 2 > N = 1 on the non-terminal inventory {A: 10}
    returns the pair [(inf, [])]. *)
Lemma depth_bound_is_silent :
  ∃ all_templates,
    _precompute_templates Samples.pH_mean [Samples.stream_A]
      SystemConfig.defaults Samples.cache_1 = Ok all_templates ∧
    all_templates ≠ [] ∧
    active_of (inventory [Samples.stream_A]) ≠ ∅ ∧
    (_search all_templates SystemConfig.defaults 1
       (inventory [Samples.stream_A]) 2 ∅).1 = (Inf, []).
Proof.
  eexists. split; [vm_compute; reflexivity|].
  split; [discriminate|]. split; [|vm_compute; reflexivity].
  intros E. apply (f_equal (λ m, m !! "A"%string)) in E. vm_compute in E. discriminate.
Qed.

End depth_bound.

(** * Sorting by a key *)

Section sort_facts.
Context {A : Type} (key : A → Qc).
Local Open Scope Qc_scope.

Lemma insert_by_key_Permutation x l : insert_by_key key x l ≡ₚ x :: l.
Proof.
  induction l as [|y l IH]; simpl; [done|].
  case_decide; [|done]. rewrite IH. apply Permutation_swap.
Qed.

Lemma sort_by_key_Permutation l : sort_by_key key l ≡ₚ l.
Proof.
  induction l as [|x l IH]; simpl; [done|].
  rewrite insert_by_key_Permutation. by rewrite IH.
Qed.

Lemma elem_of_sort_by_key x l : x ∈ sort_by_key key l ↔ x ∈ l.
Proof. by rewrite sort_by_key_Permutation. Qed.

Lemma length_sort_by_key l : length (sort_by_key key l) = length l.
Proof. by rewrite sort_by_key_Permutation. Qed.

Lemma insert_by_key_sorted x l :
  StronglySorted (λ a b, key a ≤ key b) l →
  StronglySorted (λ a b, key a ≤ key b) (insert_by_key key x l).
Proof.
  induction 1 as [|y l Hl IH Hy]; simpl.
  - repeat constructor.
  - case_decide as Hlt.
    + constructor; [done|].
      rewrite insert_by_key_Permutation. constructor; [|done].
      by apply Qclt_le_weak.
    + apply Qcnot_lt_le in Hlt.
      constructor; [by constructor|]. constructor; [done|].
      eapply Forall_impl; [done|]. intros z Hz. simpl in Hz. by etrans.
Qed.

Lemma sort_by_key_sorted l :
  StronglySorted (λ a b, key a ≤ key b) (sort_by_key key l).
Proof.
  induction l as [|x l IH]; simpl; [constructor|].
  by apply insert_by_key_sorted.
Qed.

(** Keeping the first [k] of the sorted list keeps [k] cheapest ones:
    what is cut off is nowhere cheaper than what is kept. *)
Lemma take_sorted_cheapest k l :
  let kept := take k (sort_by_key key l) in
  let dropped := drop k (sort_by_key key l) in
  length kept = (k `min` length l)%nat ∧
  kept ++ dropped ≡ₚ l ∧
  StronglySorted (λ a b, key a ≤ key b) kept ∧
  ∀ a b, a ∈ kept → b ∈ dropped → key a ≤ key b.
Proof.
  intros kept dropped. subst kept dropped. split; [|split; [|split]].
  - by rewrite length_take, length_sort_by_key.
  - rewrite take_drop. apply sort_by_key_Permutation.
  - pose proof (sort_by_key_sorted l) as Hs.
    rewrite <-(take_drop k) in Hs. by apply StronglySorted_app in Hs as (_ & ? & _).
  - pose proof (sort_by_key_sorted l) as Hs.
    rewrite <-(take_drop k) in Hs. by apply StronglySorted_app in Hs as (? & _ & _).
Qed.

End sort_facts.

(** * Subsets *)

Section combination_facts.
Context {A : Type}.
Implicit Types l v : list A.

Lemma elem_of_combinations l k v :
  v ∈ Search.combinations l k ↔ v `sublist_of` l ∧ length v = k.
Proof.
  revert k v. induction l as [|x l IH]; intros [|k] v; simpl.
  - rewrite list_elem_of_singleton. split.
    + intros ->. split; [constructor|done].
    + intros [_ ?]. by apply nil_length_inv.
  - rewrite elem_of_nil, sublist_nil_r. split; [done|]. by intros [-> ?].
  - rewrite list_elem_of_singleton. split.
    + intros ->. split; [apply sublist_nil_l|done].
    + intros [_ ?]. by apply nil_length_inv.
  - rewrite elem_of_app, list_elem_of_fmap, IH. split.
    + intros [(w & -> & [Hw Hl]%IH)|[Hs Hl]].
      * split; [by constructor|simpl; by rewrite Hl].
      * split; [by constructor|done].
    + intros [Hs Hl]. destruct v as [|y w]; [done|].
      apply sublist_cons_r in Hs as [Hs|(w' & Heq & Hs)].
      * by right.
      * injection Heq as <- <-. left. exists w. split; [done|].
        apply IH. split; [done|]. by injection Hl.
Qed.

Lemma NoDup_combinations l k : NoDup l → NoDup (Search.combinations l k).
Proof.
  intros Hl. revert k. induction Hl as [|x l Hx Hl IH]; intros [|k]; simpl.
  - apply NoDup_singleton.
  - constructor.
  - apply NoDup_singleton.
  - apply NoDup_app. split; [|split].
    + by apply (NoDup_fmap_2 _).
    + intros v (w & -> & _)%list_elem_of_fmap [Hs _]%elem_of_combinations.
      apply Hx. eapply sublist_subseteq; [done|]. left.
    + apply IH.
Qed.

End combination_facts.

Lemma elem_of_subsets (ids subset : list string) :
  subset ∈ Search.subsets ids ↔ subset ≠ [] ∧ subset `sublist_of` ids.
Proof.
  unfold Search.subsets. rewrite list_elem_of_bind. split.
  - intros (k & [Hs Hl]%elem_of_combinations & Hk%elem_of_seq).
    split; [|done]. intros ->. simpl in Hl. lia.
  - intros [Hne Hs]. exists (length subset). split.
    + by apply elem_of_combinations.
    + apply elem_of_seq. apply sublist_length in Hs.
      destruct subset; [done|]. simpl in *. lia.
Qed.


(** * Template pre-computation *)

Section precompute_facts.
Import Search.
Local Open Scope Qc_scope.

Lemma NoDup_all_ids streams : NoDup (all_ids streams).
Proof.
  unfold all_ids, sorted_strings. rewrite merge_sort_Permutation.
  apply NoDup_elements.
Qed.

Lemma elem_of_all_ids streams sid :
  sid ∈ all_ids streams ↔ sid ∈ dom (streams_map streams).
Proof.
  unfold all_ids, sorted_strings. rewrite merge_sort_Permutation.
  apply elem_of_elements.
Qed.

(** Two sub-tuples of a duplicate-free tuple with the same members are
    the same tuple: [frozenset(subset)] identifies [subset]. *)
Lemma sublist_set_inj (l s1 s2 : list string) :
  NoDup l → s1 `sublist_of` l → s2 `sublist_of` l →
  list_to_set (C:=gset string) s1 = list_to_set s2 → s1 = s2.
Proof.
  intros Hl. revert s1 s2. induction Hl as [|x l Hx Hl IH]; intros s1 s2 H1 H2 Heq.
  - apply sublist_nil_r in H1, H2. by subst.
  - apply sublist_cons_r in H1 as [H1|(t1 & E1 & H1)];
      apply sublist_cons_r in H2 as [H2|(t2 & E2 & H2)]; subst.
    + by apply IH.
    + exfalso. apply Hx. apply (sublist_subseteq s1 l H1).
      apply (elem_of_list_to_set (C:=gset string)). set_solver.
    + exfalso. apply Hx. apply (sublist_subseteq s2 l H2).
      apply (elem_of_list_to_set (C:=gset string)). set_solver.
    + f_equal. apply IH; [done..|].
      assert (x ∉ t1) by (intros ?; apply Hx; by apply (sublist_subseteq t1 l H1)).
      assert (x ∉ t2) by (intros ?; apply Hx; by apply (sublist_subseteq t2 l H2)).
      set_solver.
Qed.

Section with_pH.
Variable blend_pH : list Qc → list Z → Qc.

(** What [build_index] stores for one subset: nothing when no
    combination is feasible, else the first 30 of the sorted list. *)
Lemma build_index_entries cfg fixed smap cache todo idx :
  build_index blend_pH cfg fixed smap cache todo = Ok idx →
  idx.*1 `sublist_of` (list_to_set <$> todo) ∧
  (∀ subset, subset ∈ todo →
     ∃ feasible,
       feasible_templates blend_pH cfg fixed subset
         (omap (λ sid, smap !! sid) subset)
         (default [[1%Z]] (cache !! length subset)) = Ok feasible ∧
       (feasible = [] ∨
        (list_to_set subset,
         take _MAX_TEMPLATES_PER_SUBSET
           (sort_by_key PhaseTemplate.cost_per_batch feasible)) ∈ idx)) ∧
  (∀ key kept, (key, kept) ∈ idx →
     ∃ subset feasible,
       subset ∈ todo ∧ key = list_to_set subset ∧
       feasible_templates blend_pH cfg fixed subset
         (omap (λ sid, smap !! sid) subset)
         (default [[1%Z]] (cache !! length subset)) = Ok feasible ∧
       feasible ≠ [] ∧
       kept = take _MAX_TEMPLATES_PER_SUBSET
                (sort_by_key PhaseTemplate.cost_per_batch feasible)).
Proof.
  revert idx. induction todo as [|subset todo IH]; intros idx; simpl.
  - intros [= <-]. split; [constructor|].
    split; [by intros ? ?%elem_of_nil|by intros ?? ?%elem_of_nil].
  - destruct (feasible_templates _ _ _ subset _ _) as [feasible|] eqn:Hf; [|done].
    simpl. destruct (build_index _ _ _ _ _ todo) as [later|] eqn:Hl; [|done].
    simpl. intros [= <-]. destruct (IH later eq_refl) as (Hsub & Hall & Hback).
    clear IH. split; [|split].
    + destruct feasible; simpl; by constructor.
    + intros s [->|Hs]%elem_of_cons.
      * exists feasible. split; [done|]. destruct feasible; [by left|right; left].
      * destruct (Hall s Hs) as (fs & ? & [?|?]); exists fs; split; try done;
          [by left|right]. destruct feasible; [done|by right].
    + intros key kept Hin.
      assert ((key, kept) ∈ later ∨
              (feasible ≠ [] ∧ key = list_to_set subset ∧
               kept = take _MAX_TEMPLATES_PER_SUBSET
                        (sort_by_key PhaseTemplate.cost_per_batch feasible)))
        as [Hlater|(Hne & -> & ->)].
      { destruct feasible; [by left|].
        apply elem_of_cons in Hin as [[= -> ->]|?]; [by right|by left]. }
      * destruct (Hback key kept Hlater) as (s & fs & ? & ? & ? & ? & ?).
        exists s, fs. repeat split; try done. by right.
      * exists subset, feasible. repeat split; try done. left.
Qed.

(** The templates the loop over the ratio vectors records are those of
    the feasible evaluated combinations, in the same order. *)
Lemma evaluate_oracle cfg subset subset_streams ratios o :
  evaluate blend_pH cfg (fixed_cost_per_min cfg) subset subset_streams ratios = Ok o →
  TemplateBuilder.view <$> o
  = (λ '(W, cost_rate),
       {| TemplateBuilder.subset := subset; TemplateBuilder.ratio := ratios;
          TemplateBuilder.throughput := W;
          TemplateBuilder.cost_per_batch :=
            Z2Qc (Ratios.sum ratios) / W * cost_rate |})
    <$> TemplateBuilder.oracle blend_pH cfg subset_streams ratios.
Proof.
  unfold evaluate, TemplateBuilder.oracle, fixed_cost_per_min.
  set (blend := Blending.calc_blend_properties blend_pH subset_streams ratios).
  destruct (decide (SystemConfig.pH_max cfg < BlendProperties.pH blend)) as [Hhigh|Hok].
  { intros [= <-]. rewrite decide_False; [done|]. by apply Qclt_not_le. }
  rewrite decide_True by by apply Qcnot_lt_le.
  destruct (Gatekeeper.gatekeeper blend cfg) as [[[rw rd] rn]|]; [|done].
  cbn [mbind res_bind].
  destruct (Gatekeeper.calc_throughput rw rd rn cfg) as [W|]; [|done].
  cbn [mbind res_bind].
  destruct (decide (W < SystemConfig.W_min cfg)) as [Hlow|Hfast].
  { intros [= <-]. rewrite decide_False; [done|]. by apply Qclt_not_le. }
  rewrite decide_True by by apply Qcnot_lt_le.
  unfold div. case_decide as HW; [done|]. cbn [mbind res_bind].
  intros [= <-]. done.
Qed.

Lemma feasible_templates_oracle cfg subset subset_streams ratios_list feasible :
  feasible_templates blend_pH cfg (fixed_cost_per_min cfg) subset subset_streams
    ratios_list = Ok feasible →
  TemplateBuilder.view <$> feasible
  = omap (λ ratios,
            (λ '(W, cost_rate),
               {| TemplateBuilder.subset := subset; TemplateBuilder.ratio := ratios;
                  TemplateBuilder.throughput := W;
                  TemplateBuilder.cost_per_batch :=
                    Z2Qc (Ratios.sum ratios) / W * cost_rate |})
            <$> TemplateBuilder.oracle blend_pH cfg subset_streams ratios)
         ratios_list.
Proof.
  revert feasible. induction ratios_list as [|ratios rest IH]; intros feasible.
  { by intros [= <-]. }
  cbn [feasible_templates omap list_omap].
  destruct (evaluate _ _ _ subset subset_streams ratios) as [o|] eqn:Ho; [|done].
  cbn [mbind res_bind].
  destruct (feasible_templates _ _ _ subset subset_streams rest) as [fs|]; [|done].
  cbn [mbind res_bind]. intros [= <-].
  rewrite <-(evaluate_oracle _ _ _ _ _ Ho), <-(IH fs eq_refl).
  by destruct o.
Qed.

(** C9.  Whenever the pre-computation returns an index: its keys are
    pairwise distinct and each is a non-empty subset of the stream
    identifiers; and for every non-empty subset, with [feasible] its
    feasible evaluated combinations (one for every ratio vector of the
    subset on which the cost oracle does not report Infeasible), either
    [feasible] is empty and the subset has no entry, or its entry [kept]
    has at most 30 templates, exactly [min 30 (length feasible)] of
    them, in ascending order of cost-per-batch, and [kept] together with
    the templates [dropped] are exactly the feasible combinations, none
    of the dropped being cheaper than one kept. *)
Theorem precompute_keeps_cheapest (streams : list WasteStream.t)
    (cfg : SystemConfig.t) (ratio_cache : gmap nat (list (list Z))) (idx : index) :
  _precompute_templates blend_pH streams cfg ratio_cache = Ok idx →
  NoDup idx.*1 ∧
  (∀ key kept, (key, kept) ∈ idx →
     ∃ subset, subset ≠ [] ∧ subset `sublist_of` all_ids streams ∧
               key = list_to_set subset) ∧
  ∀ subset, subset ≠ [] → subset `sublist_of` all_ids streams →
    match TemplateBuilder.feasible_combinations blend_pH cfg streams ratio_cache
            subset with
    | [] => list_to_set subset ∉ idx.*1
    | (_ :: _) as feasible =>
        ∃ kept dropped,
          (list_to_set subset, kept) ∈ idx ∧
          (length kept ≤ _MAX_TEMPLATES_PER_SUBSET)%nat ∧
          length kept = (_MAX_TEMPLATES_PER_SUBSET `min` length feasible)%nat ∧
          TemplateBuilder.view <$> kept ++ dropped ≡ₚ feasible ∧
          StronglySorted (λ a b, PhaseTemplate.cost_per_batch a
                                 ≤ PhaseTemplate.cost_per_batch b) kept ∧
          ∀ a b, a ∈ kept → b ∈ dropped →
                 PhaseTemplate.cost_per_batch a ≤ PhaseTemplate.cost_per_batch b
    end.
Proof.
  unfold _precompute_templates. intros Hidx.
  apply build_index_entries in Hidx as (Hsub & Hall & Hback).
  pose proof (NoDup_all_ids streams) as Hnd.
  assert (NoDup (list_to_set (C:=gset string) <$> subsets (all_ids streams))) as Hkeys.
  { apply NoDup_fmap_2_strong.
    - intros s1 s2 [_ H1]%elem_of_subsets [_ H2]%elem_of_subsets.
      by apply (sublist_set_inj (all_ids streams)).
    - unfold subsets. apply NoDup_bind.
      + intros k1 k2 v _ _ [_ H1]%elem_of_combinations [_ H2]%elem_of_combinations.
        congruence.
      + intros k _. by apply NoDup_combinations.
      + apply NoDup_seq. }
  split; [by eapply sublist_NoDup|]. split.
  - intros key kept Hin. destruct (Hback key kept Hin) as (s & fs & Hs & -> & _).
    apply elem_of_subsets in Hs as [? ?]. by exists s.
  - intros subset Hne Hs.
    destruct (Hall subset) as (fs & Hf & Hin); [by apply elem_of_subsets|].
    unfold TemplateBuilder.feasible_combinations.
    rewrite <-(feasible_templates_oracle _ _ _ _ _ Hf).
    destruct fs as [|t ts] eqn:Hfs.
    + cbn [fmap list_fmap].
      intros ((key & kept) & Hk & Hin')%list_elem_of_fmap. simpl in Hk. subst key.
      destruct (Hback _ _ Hin') as (s & fs' & Hs' & Hkey & Hfs' & Hne' & _).
      apply elem_of_subsets in Hs' as [_ Hs'].
      assert (subset = s) as <- by by apply (sublist_set_inj (all_ids streams)).
      congruence.
    + destruct Hin as [?|Hin]; [done|]. rewrite <-Hfs in *.
      destruct (take_sorted_cheapest PhaseTemplate.cost_per_batch
                  _MAX_TEMPLATES_PER_SUBSET fs) as (Hlen & Hperm & Hsort & Hle).
      assert (match TemplateBuilder.view <$> fs with
              | [] => False
              | _ :: _ => True
              end) as Hcons by by rewrite Hfs.
      destruct (TemplateBuilder.view <$> fs) as [|v vs] eqn:Hview; [done|].
      rewrite <-Hview. eexists _, _. split; [exact Hin|].
      split; [rewrite Hlen; lia|]. rewrite length_fmap.
      split; [exact Hlen|]. split; [by rewrite Hperm|]. done.
Qed.

End with_pH.

End precompute_facts.

(** * An invariant rule for the memoised search *)

Section search_rule.
Import Search.
Variables (all_templates : index) (cfg : SystemConfig.t).

(** A property [Q key result] of memo entries that holds of the two
    constant results and is carried from a child's result to the result
    built on top of it holds of every result of [_search] and of every
    entry it stores.  [R] is any property of inventories that candidate
    phases preserve; the rule may rely on it at every visited state. *)
Variable R : gmap string Qc → Prop.
Variable Q : gmap string Z → result → Prop.
Hypothesis R_step : ∀ inv c tmpl n,
  R inv → (c, tmpl, n) ∈ candidates all_templates (active_of inv) →
  R (update_inventory inv (active_of inv) tmpl n).
Hypothesis Q_terminal : Q ∅ (Fin 0%Qc, []).
Hypothesis Q_inf : ∀ key, Q key (Inf, []).
Hypothesis Q_step : ∀ inv c tmpl n rc rps,
  R inv → active_of inv ≠ ∅ →
  (c, tmpl, n) ∈ candidates all_templates (active_of inv) →
  Q (memo_key (active_of (update_inventory inv (active_of inv) tmpl n)))
    (Fin rc, rps) →
  Q (memo_key (active_of inv))
    (Fin (c + rc)%Qc, make_phase cfg tmpl n :: rps).

Definition loop_ok (key : gmap string Z) (best : cost)
    (phases : option (list PhaseResult.t)) : Prop :=
  match phases with
  | None => True
  | Some ps => Q key (best, ps)
  end.

Lemma explore_rule recurse inv todo best phases memo :
  (∀ inv' memo', R inv' → map_Forall Q memo' →
     Q (memo_key (active_of inv')) (recurse inv' memo').1 ∧
     map_Forall Q (recurse inv' memo').2) →
  R inv → active_of inv ≠ ∅ →
  (∀ x, x ∈ todo → x ∈ candidates all_templates (active_of inv)) →
  loop_ok (memo_key (active_of inv)) best phases →
  map_Forall Q memo →
  let '(best', phases', memo') :=
    explore cfg recurse inv (active_of inv) todo best phases memo in
  loop_ok (memo_key (active_of inv)) best' phases' ∧ map_Forall Q memo'.
Proof.
  intros Hrec HR Hact. revert best phases memo.
  induction todo as [|[[c tmpl] n] todo IH]; intros best phases memo Hin Hok Hmemo; simpl.
  - done.
  - case_decide; [done|].
    destruct (Hrec (update_inventory inv (active_of inv) tmpl n) memo) as [Hr Hm];
      [apply (R_step inv c); [done|apply Hin; left]|done|].
    destruct (recurse _ memo) as [[rc rps] memo1]. simpl in Hr, Hm.
    assert (∀ x, x ∈ todo → x ∈ candidates all_templates (active_of inv))
      by (intros; apply Hin; by right).
    case_decide as Hlt; apply IH; try done.
    destruct rc as [rc|]; [|by destruct best].
    simpl. apply Q_step; [done|done| |done]. apply Hin. left.
Qed.

Lemma search_rule room inv memo :
  R inv → map_Forall Q memo →
  Q (memo_key (active_of inv)) (_search_from all_templates cfg room inv memo).1 ∧
  map_Forall Q (_search_from all_templates cfg room inv memo).2.
Proof.
  revert inv memo. induction room as [|room IH]; intros inv memo HR Hmemo; simpl.
  - case_decide as Hact; simpl; [|done]. rewrite Hact. unfold memo_key.
    by rewrite fmap_empty.
  - case_decide as Hact; simpl.
    { rewrite Hact. unfold memo_key. by rewrite fmap_empty. }
    destruct (memo !! memo_key (active_of inv)) as [hit|] eqn:Hhit; simpl.
    { split; [|done]. by apply (Hmemo _ _ Hhit). }
    pose proof (explore_rule (_search_from all_templates cfg room) inv
      (sort_by_key (λ c : candidate, c.1.1) (candidates all_templates (active_of inv)))
      Inf None memo IH HR Hact) as Hloop.
    destruct (explore _ _ _ _ _ _ _ _) as [[best phases] memo1].
    destruct Hloop as [Hok Hm]; [|done|done|].
    { intros x. by rewrite elem_of_sort_by_key. }
    assert (Q (memo_key (active_of inv))
              match phases with Some ps => (best, ps) | None => (Inf, []) end).
    { destruct phases; [done|apply Q_inf]. }
    simpl. split; [done|]. by apply map_Forall_insert_2.
Qed.

End search_rule.

(** * Well-formed templates *)

Section template_facts.
Import Search Invariants.
Local Open Scope Qc_scope.

Lemma generate_ratios_shape n max_sum :
  (1 ≤ n)%nat →
  ∃ l, Ratios.generate_ratios n max_sum = Ok l ∧
       ∀ v, v ∈ l → length v = n ∧ Forall (λ r, (0 < r)%Z) v.
Proof.
  intros Hn. unfold Ratios.generate_ratios. case_decide as Hn1.
  - subst. exists [[1%Z]]. split; [done|].
    intros v ->%list_elem_of_singleton. split; [done|]. by repeat constructor.
  - eexists. split.
    + apply collect_filter. apply Forall_forall. intros v [Hl Hall]%elem_of_product.
      split; [destruct v; simpl in *; [lia|done]|].
      eapply Forall_impl; [done|]. intros x Hx%elem_of_seqZ. lia.
    + intros v [_ [Hl Hall]%elem_of_product]%list_elem_of_filter.
      split; [done|]. eapply Forall_impl; [done|]. intros x Hx%elem_of_seqZ. lia.
Qed.

Lemma build_ratio_cache_seq_ok a N max_sum :
  (1 ≤ a)%nat →
  ∃ cache, build_ratio_cache (seq a N) max_sum = Ok cache ∧
    ∀ n, (a ≤ n < a + N)%nat →
      ∃ l, cache !! n = Some l ∧
           ∀ v, v ∈ l → length v = n ∧ Forall (λ r, (0 < r)%Z) v.
Proof.
  revert a. induction N as [|N IH]; intros a Ha; simpl.
  - exists ∅. split; [done|]. intros; lia.
  - destruct (generate_ratios_shape a max_sum Ha) as (l & -> & Hl). simpl.
    destruct (IH (S a)) as (cache & -> & Hc); [lia|]. simpl.
    eexists. split; [done|]. intros n Hn.
    destruct (decide (n = a)) as [->|Hne].
    + exists l. by rewrite lookup_insert_eq.
    + rewrite lookup_insert_ne by done. apply Hc. lia.
Qed.

Lemma build_ratio_cache_ok N max_sum :
  ∃ cache, build_ratio_cache (seq 1 N) max_sum = Ok cache ∧ cache_ok cache N.
Proof.
  destruct (build_ratio_cache_seq_ok 1 N max_sum) as (cache & ? & Hc); [done|].
  exists cache. split; [done|]. intros n Hn. apply Hc. lia.
Qed.

Lemma size_streams_map streams : (size (streams_map streams) ≤ length streams)%nat.
Proof.
  unfold streams_map.
  assert (∀ m : gmap string WasteStream.t,
    (size (foldl (λ m s, <[WasteStream.stream_id s := s]> m) m streams)
     ≤ size m + length streams)%nat) as H.
  { induction streams as [|s streams IH]; intros m; simpl; [lia|].
    etrans; [apply IH|].
    destruct (m !! WasteStream.stream_id s) eqn:E.
    - rewrite map_size_insert_Some by done. lia.
    - rewrite map_size_insert_None by done. lia. }
  specialize (H ∅). by rewrite map_size_empty in H.
Qed.

Lemma length_all_ids streams : (length (all_ids streams) ≤ length streams)%nat.
Proof.
  unfold all_ids, sorted_strings. rewrite merge_sort_Permutation.
  change (size (dom (streams_map streams)) ≤ length streams)%nat.
  rewrite size_dom. apply size_streams_map.
Qed.

Section with_pH.
Variable blend_pH : list Qc → list Z → Qc.

Lemma evaluate_Some cfg subset subset_streams ratios t :
  evaluate blend_pH cfg (fixed_cost_per_min cfg) subset subset_streams ratios
    = Ok (Some t) →
  PhaseTemplate.stream_ids t = subset ∧
  PhaseTemplate.ratios t = ratios ∧
  PhaseTemplate.sum_ratios t = Ratios.sum ratios ∧
  template_costed cfg t ∧
  PhaseTemplate.W t ≠ 0 ∧
  SystemConfig.W_min cfg ≤ PhaseTemplate.W t ∧
  BlendProperties.pH (PhaseTemplate.blend t) ≤ SystemConfig.pH_max cfg.
Proof.
  unfold evaluate. case_decide as HpH; [done|].
  destruct (Gatekeeper.gatekeeper _ _) as [[[rw rd] rn]|]; [|done]. simpl.
  destruct (Gatekeeper.calc_throughput _ _ _ _) as [W|]; [|done]. simpl.
  case_decide as HW; [done|].
  unfold div. case_decide as HW0; [done|]. simpl.
  intros [= <-]. simpl. repeat split; try done.
  - by apply Qcnot_lt_le.
  - by apply Qcnot_lt_le.
Qed.

Lemma feasible_templates_elem cfg subset subset_streams ratios_list ts t :
  feasible_templates blend_pH cfg (fixed_cost_per_min cfg) subset subset_streams
    ratios_list = Ok ts →
  t ∈ ts ↔
  ∃ ratios, ratios ∈ ratios_list ∧
    evaluate blend_pH cfg (fixed_cost_per_min cfg) subset subset_streams ratios
      = Ok (Some t).
Proof.
  revert ts. induction ratios_list as [|r rest IH]; intros ts; simpl.
  - intros [= <-]. split; [by intros ?%elem_of_nil|].
    by intros (? & ?%elem_of_nil & _).
  - destruct (evaluate _ _ _ _ _ r) as [o|] eqn:He; [|done]. simpl.
    destruct (feasible_templates _ _ _ _ _ rest) as [ts'|]; [|done]. simpl.
    intros [= <-]. specialize (IH ts' eq_refl).
    destruct o as [t'|].
    + rewrite elem_of_cons, IH. split.
      * intros [->|(r' & ? & ?)]; [exists r; split; [left|done]|].
        exists r'. split; [by right|done].
      * intros (r' & [->|?]%elem_of_cons & He'); [left; congruence|].
        right. by exists r'.
    + rewrite IH. split.
      * intros (r' & ? & ?). exists r'. split; [by right|done].
      * intros (r' & [->|?]%elem_of_cons & He'); [congruence|]. by exists r'.
Qed.

Lemma precompute_index_ok streams cfg cache idx :
  cache_ok cache (length streams) →
  _precompute_templates blend_pH streams cfg cache = Ok idx →
  index_wf idx ∧ index_costed cfg idx ∧
  (∀ key ts t, (key, ts) ∈ idx → t ∈ ts → PhaseTemplate.W t ≠ 0).
Proof.
  intros Hcache Hidx. unfold _precompute_templates in Hidx.
  apply build_index_entries in Hidx as (_ & _ & Hback).
  assert (∀ key ts t, (key, ts) ∈ idx → t ∈ ts →
    (template_wf t ∧ key = list_to_set (PhaseTemplate.stream_ids t)) ∧
    template_costed cfg t ∧ PhaseTemplate.W t ≠ 0) as H.
  { intros key ts t Hin Ht.
    destruct (Hback key ts Hin) as (subset & fs & [Hne Hs]%elem_of_subsets
      & -> & Hfs & _ & ->).
    assert (NoDup subset)
      by (eapply sublist_NoDup; [apply NoDup_all_ids|exact Hs]).
    apply subseteq_take, elem_of_sort_by_key in Ht.
    apply (feasible_templates_elem _ _ _ _ _ _ Hfs) in Ht as (ratios & Hr & He).
    apply evaluate_Some in He as (Hids & Hrs & Hsum & Hc & HW & _).
    destruct (Hcache (length subset)) as (l & Hl & Hshape).
    { split; [destruct subset; [done|simpl; lia]|].
      etrans; [by apply sublist_length|apply length_all_ids]. }
    rewrite Hl in Hr. simpl in Hr. destruct (Hshape _ Hr) as [Hlen Hpos].
    repeat split; try done; rewrite ?Hids, ?Hrs; done. }
  split; [|split]; intros key ts t Hin Ht; by destruct (H key ts t Hin Ht) as (? & ? & ?).
Qed.

End with_pH.
End template_facts.

(** * Phase costs add up to the reported total *)

Section cost_facts.
Import Search Invariants.
Local Open Scope Qc_scope.

Lemma Qcsum_cons x l : Qcsum (x :: l) = x + Qcsum l.
Proof. done. Qed.

Lemma elem_of_candidates (idx : index) active c tmpl n :
  (c, tmpl, n) ∈ candidates idx active ↔
  ∃ key ts, (key, ts) ∈ idx ∧ key ⊆ dom active ∧ tmpl ∈ ts ∧
            n = num_batches active tmpl ∧
            c = n * PhaseTemplate.cost_per_batch tmpl.
Proof.
  unfold candidates. rewrite list_elem_of_bind. split.
  - intros ([key ts] & Hin & Hidx). case_decide; [|by apply elem_of_nil in Hin].
    apply list_elem_of_fmap in Hin as (t & [= -> -> ->] & Ht).
    by exists key, ts.
  - intros (key & ts & Hidx & Hsub & Ht & -> & ->). exists (key, ts).
    split; [|done]. rewrite decide_True by done.
    apply list_elem_of_fmap. by exists tmpl.
Qed.

(** [num_batches * cost_per_batch] is [calc_phase_cost]'s total at
    [runtime_min = sum_ratios * num_batches / W]. *)
Lemma batch_cost_is_phase_cost cfg t n :
  template_costed cfg t →
  n * PhaseTemplate.cost_per_batch t =
  Gatekeeper.cost_total
    (Gatekeeper.calc_phase_cost (PhaseTemplate.W t) (PhaseTemplate.r_water t)
       (PhaseTemplate.r_diesel t) (PhaseTemplate.r_naoh t)
       (Z2Qc (PhaseTemplate.sum_ratios t) * n / PhaseTemplate.W t) cfg).
Proof.
  unfold template_costed, fixed_cost_per_min. intros ->. simpl.
  unfold Qcdiv. ring.
Qed.

Lemma make_phase_cost cfg t n :
  template_costed cfg t →
  PhaseResult.cost_total (make_phase cfg t n) = n * PhaseTemplate.cost_per_batch t.
Proof. intros. by rewrite (batch_cost_is_phase_cost cfg). Qed.

Lemma search_consistent (idx : index) cfg room inv memo :
  index_costed cfg idx →
  map_Forall (λ _, consistent) memo →
  consistent (_search_from idx cfg room inv memo).1 ∧
  map_Forall (λ _, consistent) (_search_from idx cfg room inv memo).2.
Proof.
  intros Hidx. apply (search_rule idx cfg (λ _, True) (λ _, consistent)).
  - done.
  - done.
  - done.
  - intros inv' c tmpl n rc rps _ _ Hc Hr. unfold consistent in *.
    cbn [fst snd] in *.
    apply elem_of_candidates in Hc as (key & ts & Hin & _ & Ht & -> & ->).
    rewrite fmap_cons, Qcsum_cons, make_phase_cost by by eapply Hidx.
    by rewrite Hr.
  - done.
Qed.

Section with_pH.
Variable blend_pH : list Qc → list Z → Qc.

(** C3.  When the root search returns a finite cost [c] with a phase
    list, the [cost_total] fields of the phases sum to [c], the schedule
    assembled by [build_optimized_schedule] carries these phases and the
    total [c], and for every retained template and every batch count
    [n], [n * cost_per_batch] is [calc_phase_cost]'s [cost_total] at
    [runtime_min = sum_ratios * n / W] (exact arithmetic). *)
Theorem phase_costs_sum_to_total (streams : list WasteStream.t)
    (cfg : SystemConfig.t) (c : Qc) (phases : list PhaseResult.t) :
  search blend_pH streams cfg = Ok (Fin c, phases) →
  Qcsum (PhaseResult.cost_total <$> phases) = c ∧
  (∃ sched, build_optimized_schedule blend_pH streams cfg = Ok (Some sched) ∧
            Schedule.phases sched = phases ∧ Schedule.total_cost sched = Fin c) ∧
  (∀ cache idx key ts t n,
     build_ratio_cache (seq 1 (length streams)) (SystemConfig.ratio_sum_max cfg)
       = Ok cache →
     _precompute_templates blend_pH streams cfg cache = Ok idx →
     (key, ts) ∈ idx → t ∈ ts →
     n * PhaseTemplate.cost_per_batch t =
     Gatekeeper.cost_total
       (Gatekeeper.calc_phase_cost (PhaseTemplate.W t) (PhaseTemplate.r_water t)
          (PhaseTemplate.r_diesel t) (PhaseTemplate.r_naoh t)
          (Z2Qc (PhaseTemplate.sum_ratios t) * n / PhaseTemplate.W t) cfg)).
Proof.
  intros Hsearch.
  assert (∀ cache idx,
    build_ratio_cache (seq 1 (length streams)) (SystemConfig.ratio_sum_max cfg)
      = Ok cache →
    _precompute_templates blend_pH streams cfg cache = Ok idx →
    index_costed cfg idx) as Hcosted.
  { intros cache idx Hcache Hidx.
    destruct (build_ratio_cache_ok (length streams) (SystemConfig.ratio_sum_max cfg))
      as (cache' & Hcache' & Hok).
    assert (cache' = cache) as -> by congruence.
    by destruct (precompute_index_ok blend_pH streams cfg cache idx Hok Hidx)
      as (_ & ? & _). }
  split; [|split].
  - unfold search in Hsearch.
    destruct (build_ratio_cache _ _) as [cache|] eqn:Hcache; [|done].
    simpl in Hsearch.
    destruct (_precompute_templates _ _ _ _) as [idx|] eqn:Hidx; [|done].
    simpl in Hsearch. injection Hsearch as Hsearch.
    destruct (search_consistent idx cfg (length streams + 1 - 0)
                (inventory streams) ∅) as [Hc _].
    + by eapply Hcosted.
    + apply map_Forall_empty.
    + unfold _search in Hsearch. rewrite Hsearch in Hc. by unfold consistent in Hc.
  - unfold build_optimized_schedule. rewrite Hsearch. simpl.
    by eexists.
  - intros cache idx key ts t n Hcache Hidx Hin Ht.
    apply batch_cost_is_phase_cost. by eapply (Hcosted cache idx).
Qed.

End with_pH.

End cost_facts.

(** * Rational arithmetic helpers *)

Lemma Qc_eq_Qeq (a b : Qc) : a = b ↔ (this a == this b)%Q.
Proof. split; [by intros ->|apply Qc_is_canon]. Qed.

Ltac qc2q :=
  repeat match goal with
  | H : @eq Qc _ _ |- _ => apply Qc_eq_Qeq in H
  | H : ¬ @eq Qc _ _ |- _ => rewrite Qc_eq_Qeq in H
  | |- @eq Qc _ _ => apply Qc_eq_Qeq
  | |- ¬ @eq Qc _ _ => rewrite Qc_eq_Qeq
  end;
  unfold Qcle, Qclt, Qcminus, dec, Z2Qc in *;
  unfold Qcplus, Qcmult, Qcopp, Q2Qc in *;
  cbn [this] in *;
  repeat match goal with
  | H : context [Qred ?x] |- _ => rewrite (Qred_correct x) in H
  | |- context [Qred ?x] => rewrite (Qred_correct x)
  end.
Ltac qc_lra := qc2q; lra.
Ltac qc_nra := qc2q; nra.

Section arith_facts.
Local Open Scope Qc_scope.

Lemma Z2Qc_pos r : (0 < r)%Z → 0 < Z2Qc r.
Proof.
  intros Hr. qc2q. change 0%Q with (inject_Z 0). by rewrite <-Zlt_Qlt.
Qed.

Lemma Qcdiv_mult_cancel q r : r ≠ 0 → r * (q / r) = q.
Proof. intros. field. done. Qed.

Lemma Qcdiv_pos q r : 0 < q → 0 < r → 0 < q / r.
Proof.
  intros Hq Hr. unfold Qcdiv. apply Qcmult_pos_pos; [done|].
  by apply Qcinv_pos.
Qed.

Lemma Qcle_div_mult q r n : 0 < r → n ≤ q / r → r * n ≤ q.
Proof.
  intros Hr Hn. assert (r ≠ 0) as Hr0 by (intros ->; by apply (irreflexivity Qclt) in Hr).
  trans (r * (q / r)); [|by rewrite Qcdiv_mult_cancel].
  apply Qcmult_le_mono_nonneg_l; [by apply Qclt_le_weak|done].
Qed.

Lemma Qcmin_le_l x y : Qcmin x y ≤ x.
Proof. unfold Qcmin. case_decide; [by apply Qclt_le_weak|done]. Qed.

Lemma Qcmin_le_r x y : Qcmin x y ≤ y.
Proof. unfold Qcmin. case_decide; [done|by apply Qcnot_lt_le]. Qed.

Lemma Qcmin_cases x y : Qcmin x y = x ∨ Qcmin x y = y.
Proof. unfold Qcmin. case_decide; auto. Qed.

Lemma foldl_Qcmin_le x l : foldl Qcmin x l ≤ x ∧ ∀ y, y ∈ l → foldl Qcmin x l ≤ y.
Proof.
  revert x. induction l as [|z l IH]; intros x; simpl.
  - split; [done|]. by intros ? ?%elem_of_nil.
  - destruct (IH (Qcmin x z)) as [H1 H2]. split.
    + etrans; [done|apply Qcmin_le_l].
    + intros y [->|Hy]%elem_of_cons; [|by apply H2].
      etrans; [done|apply Qcmin_le_r].
Qed.

Lemma foldl_Qcmin_elem x l : foldl Qcmin x l = x ∨ foldl Qcmin x l ∈ l.
Proof.
  revert x. induction l as [|z l IH]; intros x; simpl; [by left|].
  destruct (IH (Qcmin x z)) as [->|?]; [|right; by right].
  destruct (Qcmin_cases x z) as [->| ->]; [by left|right; left].
Qed.

(** On a non-empty list [min_list] is a member below all members. *)
Lemma min_list_le l x : x ∈ l → min_list l ≤ x.
Proof.
  destruct l as [|y l]; [by intros ?%elem_of_nil|]. simpl.
  destruct (foldl_Qcmin_le y l) as [H1 H2].
  intros [->|?]%elem_of_cons; [done|by apply H2].
Qed.

Lemma min_list_elem l : l ≠ [] → min_list l ∈ l.
Proof.
  destruct l as [|y l]; [done|]. intros _. simpl.
  destruct (foldl_Qcmin_elem y l) as [->|?]; [left|by right].
Qed.

End arith_facts.

(** * Every phase depletes a stream *)

Section shrink_facts.
Import Search Invariants.
Local Open Scope Qc_scope.

Lemma active_of_lookup inv sid q :
  active_of inv !! sid = Some q ↔ inv !! sid = Some q ∧ _ACTIVE_THRESHOLD_L < q.
Proof. unfold active_of. by rewrite map_lookup_filter_Some. Qed.

Lemma active_above inv sid q : active_of inv !! sid = Some q → 0 < q.
Proof.
  intros [_ Hq]%active_of_lookup. unfold _ACTIVE_THRESHOLD_L in Hq. qc_lra.
Qed.

Lemma foldl_insert_lookup (f : string → Z → Qc) (l : list (string * Z))
    (inv : gmap string Qc) sid :
  NoDup l.*1 →
  foldl (λ m '(s, r), <[s := f s r]> m) inv l !! sid =
  match (list_to_map l : gmap string Z) !! sid with
  | Some r => Some (f sid r)
  | None => inv !! sid
  end.
Proof.
  revert inv. induction l as [|[s r] l IH]; intros inv Hnd; simpl.
  - by rewrite lookup_empty.
  - apply NoDup_cons in Hnd as [Hs Hnd]. rewrite IH by done.
    change (list_to_map ((s, r) :: l)) with (<[s := r]> (list_to_map l : gmap string Z)).
    destruct (decide (s = sid)) as [->|Hne].
    + rewrite (proj1 (not_elem_of_list_to_map l sid) Hs).
      by rewrite !lookup_insert_eq.
    + by rewrite !lookup_insert_ne by done.
Qed.

Lemma update_inventory_lookup inv active t n sid :
  template_wf t →
  update_inventory inv active t n !! sid =
  match ratio_of t !! sid with
  | Some r => Some (qty active sid - Z2Qc r * n)
  | None => inv !! sid
  end.
Proof.
  intros (_ & Hnd & Hlen & _). unfold update_inventory, ratio_of.
  apply (foldl_insert_lookup (λ s r, qty active s - Z2Qc r * n)).
  rewrite fst_zip by lia. done.
Qed.

Lemma ratio_of_Some t sid r :
  template_wf t →
  ratio_of t !! sid = Some r ↔
  (sid, r) ∈ zip (PhaseTemplate.stream_ids t) (PhaseTemplate.ratios t).
Proof.
  intros (_ & Hnd & Hlen & _). unfold ratio_of. symmetry.
  apply elem_of_list_to_map. rewrite fst_zip by lia. done.
Qed.

Lemma ratio_of_dom t : template_wf t →
  dom (ratio_of t) = list_to_set (PhaseTemplate.stream_ids t).
Proof.
  intros (_ & Hnd & Hlen & _). unfold ratio_of.
  rewrite dom_list_to_map_L, fst_zip by lia. done.
Qed.

Lemma ratio_of_pos t sid r : template_wf t → ratio_of t !! sid = Some r → (0 < r)%Z.
Proof.
  intros Hwf Hr. apply (ratio_of_Some t sid r Hwf) in Hr.
  destruct Hwf as (_ & _ & _ & Hpos & _). rewrite Forall_forall in Hpos.
  apply Hpos. by apply elem_of_zip_r in Hr.
Qed.

(** What membership in [candidates] gives under a well-formed index. *)
Lemma candidate_inv (idx : index) inv c t n :
  index_wf idx →
  (c, t, n) ∈ candidates idx (active_of inv) →
  template_wf t ∧
  dom (ratio_of t) ⊆ dom (active_of inv) ∧
  n = num_batches (active_of inv) t ∧
  c = n * PhaseTemplate.cost_per_batch t ∧
  0 < n ∧
  (∀ sid r, ratio_of t !! sid = Some r →
     Z2Qc r * n ≤ qty (active_of inv) sid) ∧
  (∃ sid r, ratio_of t !! sid = Some r ∧
     Z2Qc r * n = qty (active_of inv) sid).
Proof.
  intros Hidx (key & ts & Hin & Hsub & Ht & Hn & Hc)%elem_of_candidates.
  destruct (Hidx key ts t Hin Ht) as [Hwf ->].
  split; [done|]. split; [by rewrite ratio_of_dom|].
  split; [done|]. split; [done|].
  set (qs := zip_with (λ sid ratio, qty (active_of inv) sid / Z2Qc ratio)
               (PhaseTemplate.stream_ids t) (PhaseTemplate.ratios t)).
  assert (n = min_list qs) as Hmin by done.
  assert (∀ x, x ∈ qs ↔ ∃ sid r, ratio_of t !! sid = Some r ∧
                         x = qty (active_of inv) sid / Z2Qc r) as Hqs.
  { intros x. subst qs. rewrite zip_with_zip, list_elem_of_fmap. split.
    - intros ([sid r] & -> & Hz). exists sid, r. by rewrite ratio_of_Some.
    - intros (sid & r & Hr & ->). exists (sid, r). by rewrite <-ratio_of_Some. }
  assert (qs ≠ []) as Hne.
  { destruct Hwf as (Hids & _ & Hlen & _). subst qs.
    destruct (PhaseTemplate.stream_ids t), (PhaseTemplate.ratios t); done. }
  assert (∀ sid r, ratio_of t !! sid = Some r →
            0 < Z2Qc r ∧ 0 < qty (active_of inv) sid) as Hpos.
  { intros sid r Hr. split; [by eapply Z2Qc_pos, ratio_of_pos|].
    assert (sid ∈ dom (active_of inv)) as [q Hq]%elem_of_dom.
    { apply Hsub. rewrite <-ratio_of_dom by done. by apply elem_of_dom_2 in Hr. }
    unfold qty. rewrite Hq. simpl. by eapply active_above. }
  split; [|split].
  - pose proof (min_list_elem qs Hne) as (sid & r & Hr & Hx)%Hqs.
    rewrite Hmin, Hx. destruct (Hpos sid r Hr). by apply Qcdiv_pos.
  - intros sid r Hr. destruct (Hpos sid r Hr). apply Qcle_div_mult; [done|].
    rewrite Hmin. apply min_list_le, Hqs. by exists sid, r.
  - pose proof (min_list_elem qs Hne) as (sid & r & Hr & Hx)%Hqs.
    exists sid, r. split; [done|]. rewrite Hmin, Hx.
    destruct (Hpos sid r Hr) as [Hr0 _]. apply Qcdiv_mult_cancel.
    intros E. rewrite E in Hr0. by apply (irreflexivity Qclt) in Hr0.
Qed.

(** The update leaves non-participating streams alone, keeps every
    participating one non-negative and sets a scarcest one to zero. *)
Lemma update_shrinks (idx : index) inv c t n :
  index_wf idx →
  (c, t, n) ∈ candidates idx (active_of inv) →
  let new_inv := update_inventory inv (active_of inv) t n in
  (∀ sid, sid ∉ dom (ratio_of t) → new_inv !! sid = inv !! sid) ∧
  (∀ sid, sid ∈ dom (ratio_of t) →
     ∃ q, new_inv !! sid = Some q ∧ 0 ≤ q ∧ q < qty (active_of inv) sid) ∧
  (∃ sid, sid ∈ dom (ratio_of t) ∧ new_inv !! sid = Some 0) ∧
  dom (active_of new_inv) ⊂ dom (active_of inv).
Proof.
  intros Hidx Hc new_inv.
  destruct (candidate_inv idx inv c t n Hidx Hc)
    as (Hwf & Hsub & _ & _ & Hn & Hle & sid0 & r0 & Hr0 & Hzero).
  assert (∀ sid, new_inv !! sid =
    match ratio_of t !! sid with
    | Some r => Some (qty (active_of inv) sid - Z2Qc r * n)
    | None => inv !! sid
    end) as Hlook by (intros; by apply update_inventory_lookup).
  assert (new_inv !! sid0 = Some 0) as Hsid0.
  { rewrite Hlook, Hr0. f_equal. rewrite Hzero. ring. }
  split; [|split; [|split]].
  - intros sid Hsid. apply not_elem_of_dom in Hsid. by rewrite Hlook, Hsid.
  - intros sid [r Hr]%elem_of_dom. rewrite Hlook, Hr. eexists. split; [done|].
    specialize (Hle sid r Hr).
    assert (0 < Z2Qc r * n).
    { apply Qcmult_pos_pos; [by eapply Z2Qc_pos, ratio_of_pos|done]. }
    split; qc_lra.
  - exists sid0. split; [by apply elem_of_dom_2 in Hr0|done].
  - assert (dom (active_of new_inv) ⊆ dom (active_of inv)) as Hsubset.
    { intros sid [q [Hq Hq1]%active_of_lookup]%elem_of_dom.
      rewrite Hlook in Hq. destruct (ratio_of t !! sid) as [r|] eqn:Hr.
      - apply Hsub. by apply elem_of_dom_2 in Hr.
      - apply elem_of_dom. exists q. by apply active_of_lookup. }
    split; [done|]. intros Hback.
    assert (sid0 ∈ dom (active_of new_inv)) as [q [Hq Hq1]%active_of_lookup]%elem_of_dom.
    { apply Hback, Hsub. by apply elem_of_dom_2 in Hr0. }
    rewrite Hsid0 in Hq. injection Hq as <-. unfold _ACTIVE_THRESHOLD_L in Hq1.
    qc_lra.
Qed.

Lemma update_size (idx : index) inv c t n :
  index_wf idx →
  (c, t, n) ∈ candidates idx (active_of inv) →
  (size (active_of (update_inventory inv (active_of inv) t n))
   < size (active_of inv))%nat.
Proof.
  intros Hidx Hc. destruct (update_shrinks idx inv c t n Hidx Hc) as (_ & _ & _ & H).
  apply subset_size in H. by rewrite !size_dom in H.
Qed.

End shrink_facts.

(** * Depth, active streams and schedule length *)

Section depth_facts.
Import Search Invariants.
Local Open Scope Qc_scope.

Lemma explore_ext cfg rec1 rec2 inv active todo best phases memo :
  (∀ c t n memo', (c, t, n) ∈ todo →
     rec1 (update_inventory inv active t n) memo'
     = rec2 (update_inventory inv active t n) memo') →
  explore cfg rec1 inv active todo best phases memo
  = explore cfg rec2 inv active todo best phases memo.
Proof.
  revert best phases memo.
  induction todo as [|[[c t] n] todo IH]; intros best phases memo Hext; simpl; [done|].
  case_decide; [done|]. rewrite (Hext c t n memo) by left.
  destruct (rec2 _ memo) as [[rc rps] memo1].
  case_decide; apply IH; intros c' t' n' ? ?; apply (Hext c'); by right.
Qed.

(** With more room than active streams the depth test never fires, so
    the amount of room does not matter. *)
Lemma search_room_irrelevant (idx : index) cfg room room' inv memo :
  index_wf idx →
  (size (active_of inv) < room)%nat → (size (active_of inv) < room')%nat →
  _search_from idx cfg room inv memo = _search_from idx cfg room' inv memo.
Proof.
  intros Hidx. revert room' inv memo.
  induction room as [|room IH]; intros [|room'] inv memo H1 H2; try lia.
  simpl. case_decide; [done|]. destruct (memo !! _); [done|].
  rewrite (explore_ext cfg (_search_from idx cfg room) (_search_from idx cfg room')); [done|].
  intros c t n memo' Hc%elem_of_sort_by_key.
  pose proof (update_size idx inv c t n Hidx Hc). apply IH; lia.
Qed.

Lemma size_inventory streams : (size (inventory streams) ≤ length streams)%nat.
Proof.
  unfold inventory.
  assert (∀ m : gmap string Qc,
    (size (foldl (λ m s, <[WasteStream.stream_id s := WasteStream.quantity_L s]> m)
             m streams) ≤ size m + length streams)%nat) as H.
  { induction streams as [|s streams IH]; intros m; simpl; [lia|].
    etrans; [apply IH|].
    destruct (m !! WasteStream.stream_id s) eqn:E.
    - rewrite map_size_insert_Some by done. lia.
    - rewrite map_size_insert_None by done. lia. }
  specialize (H ∅). by rewrite map_size_empty in H.
Qed.

Lemma inventory_lookup streams sid q :
  inventory streams !! sid = Some q →
  ∃ s, s ∈ streams ∧ WasteStream.quantity_L s = q.
Proof.
  unfold inventory.
  assert (∀ m : gmap string Qc,
    foldl (λ m s, <[WasteStream.stream_id s := WasteStream.quantity_L s]> m)
      m streams !! sid = Some q →
    m !! sid = Some q ∨ ∃ s, s ∈ streams ∧ WasteStream.quantity_L s = q) as H.
  { induction streams as [|s streams IH]; intros m; simpl; [by left|].
    intros [Hm|(s' & ? & ?)]%IH.
    - destruct (decide (WasteStream.stream_id s = sid)) as [<-|Hne].
      + rewrite lookup_insert_eq in Hm. injection Hm as <-. right. exists s.
        split; [left|done].
      + rewrite lookup_insert_ne in Hm by done. by left.
    - right. exists s'. split; [by right|done]. }
  intros [Hm|?]%H; [by rewrite lookup_empty in Hm|done].
Qed.

Lemma size_active_of inv : (size (active_of inv) ≤ size inv)%nat.
Proof. apply map_subseteq_size, map_filter_subseteq. Qed.

Lemma reachable_size (idx : index) inv0 d inv :
  index_wf idx → reachable idx inv0 d inv →
  (size (active_of inv) + d ≤ size (active_of inv0))%nat.
Proof.
  intros Hidx. induction 1 as [|d inv c t n _ IH Hc]; [lia|].
  pose proof (update_size idx inv c t n Hidx Hc). lia.
Qed.

Lemma reachable_nonneg (idx : index) inv0 d inv :
  index_wf idx → (∀ sid q, inv0 !! sid = Some q → 0 ≤ q) →
  reachable idx inv0 d inv → ∀ sid q, inv !! sid = Some q → 0 ≤ q.
Proof.
  intros Hidx H0. induction 1 as [|d inv c t n _ IH Hc]; [done|].
  intros sid q Hq.
  destruct (update_shrinks idx inv c t n Hidx Hc) as (Hout & Hin & _).
  destruct (decide (sid ∈ dom (ratio_of t))) as [Hd|Hd].
  - destruct (Hin sid Hd) as (q' & Hq' & ? & _). congruence.
  - rewrite Hout in Hq by done. by eapply IH.
Qed.

Lemma search_length (idx : index) cfg room inv memo :
  index_wf idx →
  map_Forall (λ key (r : result), (length r.2 ≤ size key)%nat) memo →
  (length (_search_from idx cfg room inv memo).1.2 ≤ size (active_of inv))%nat ∧
  map_Forall (λ key (r : result), (length r.2 ≤ size key)%nat)
    (_search_from idx cfg room inv memo).2.
Proof.
  intros Hidx Hmemo.
  pose proof (search_rule idx cfg (λ _, True)
                (λ key r, (length r.2 ≤ size key)%nat)) as Hrule.
  destruct Hrule with (room := room) (inv := inv) (memo := memo) as [H1 H2].
  - done.
  - simpl. lia.
  - intros. simpl. lia.
  - intros inv' c t n rc rps _ _ Hc Hr. unfold memo_key in *.
    rewrite map_size_fmap in *. simpl in *.
    pose proof (update_size idx inv' c t n Hidx Hc). lia.
  - done.
  - done.
  - unfold memo_key in H1. rewrite map_size_fmap in H1. done.
Qed.

Section with_pH.
Variable blend_pH : list Qc → list Z → Qc.

(** [search] succeeds exactly when the pre-computation does, on the
    ratio cache for sizes 1..N. *)
Lemma search_unfold streams cfg r :
  search blend_pH streams cfg = Ok r ↔
  ∃ cache idx,
    build_ratio_cache (seq 1 (length streams)) (SystemConfig.ratio_sum_max cfg)
      = Ok cache ∧
    cache_ok cache (length streams) ∧
    _precompute_templates blend_pH streams cfg cache = Ok idx ∧
    index_wf idx ∧ index_costed cfg idx ∧
    r = (_search_from idx cfg (length streams + 1) (inventory streams) ∅).1.
Proof.
  unfold search, _search.
  destruct (build_ratio_cache_ok (length streams) (SystemConfig.ratio_sum_max cfg))
    as (cache & Hcache & Hok).
  rewrite Hcache. simpl. replace (length streams + 1 - 0)%nat
    with (length streams + 1)%nat by lia. split.
  - destruct (_precompute_templates _ _ _ _) as [idx|] eqn:Hidx; [|done].
    simpl. intros [= <-]. exists cache, idx.
    destruct (precompute_index_ok blend_pH streams cfg cache idx Hok Hidx)
      as (? & ? & _). done.
  - intros (cache' & idx & [= <-] & _ & -> & _ & _ & ->). done.
Qed.

(** C10.  On valid input (strictly positive quantities), with [idx] the
    retained templates: at every expansion of a reachable state the batch
    count is the minimum of remaining quantity over ratio part, the
    updated inventory is non-negative everywhere, a participating stream
    attaining the minimum is left with exactly zero, and the set of
    active streams strictly shrinks; a state at depth [d] has at most
    [N - d] active streams; every state at depth above [N] is terminal,
    so the depth test never decides a result and any larger bound gives
    the same root result; and the returned schedule has at most [N]
    phases. *)
Theorem every_phase_depletes_a_stream (streams : list WasteStream.t)
    (cfg : SystemConfig.t) (cache : gmap nat (list (list Z))) (idx : index) :
  (∀ s, s ∈ streams → 0 < WasteStream.quantity_L s) →
  build_ratio_cache (seq 1 (length streams)) (SystemConfig.ratio_sum_max cfg)
    = Ok cache →
  _precompute_templates blend_pH streams cfg cache = Ok idx →
  let N := length streams in
  let inv0 := inventory streams in
  (∀ d inv c t n,
     reachable idx inv0 d inv → (c, t, n) ∈ candidates idx (active_of inv) →
     let new_inv := update_inventory inv (active_of inv) t n in
     n = min_list (zip_with (λ sid ratio, qty (active_of inv) sid / Z2Qc ratio)
                     (PhaseTemplate.stream_ids t) (PhaseTemplate.ratios t)) ∧
     (∀ sid q, new_inv !! sid = Some q → 0 ≤ q) ∧
     (∃ sid r, (sid, r) ∈ zip (PhaseTemplate.stream_ids t) (PhaseTemplate.ratios t) ∧
               n = qty (active_of inv) sid / Z2Qc r ∧
               new_inv !! sid = Some 0) ∧
     dom (active_of new_inv) ⊂ dom (active_of inv)) ∧
  (∀ d inv, reachable idx inv0 d inv → (size (active_of inv) + d ≤ N)%nat) ∧
  (∀ d inv, reachable idx inv0 d inv → (N < d)%nat → active_of inv = ∅) ∧
  (∀ room, (N < room)%nat →
     _search_from idx cfg room inv0 ∅ = _search idx cfg N inv0 0 ∅) ∧
  (∀ r, search blend_pH streams cfg = Ok r → (length r.2 ≤ N)%nat).
Proof.
  intros Hpos Hcache Hidx N inv0.
  destruct (build_ratio_cache_ok (length streams) (SystemConfig.ratio_sum_max cfg))
    as (cache' & Hcache' & Hok).
  assert (cache' = cache) as -> by congruence.
  destruct (precompute_index_ok blend_pH streams cfg cache idx Hok Hidx)
    as (Hwf & _ & _).
  assert (size (active_of inv0) ≤ N)%nat as Hsize.
  { etrans; [apply size_active_of|apply size_inventory]. }
  assert (∀ d inv, reachable idx inv0 d inv → (size (active_of inv) + d ≤ N)%nat)
    as Hdepth.
  { intros d inv Hr. pose proof (reachable_size idx inv0 d inv Hwf Hr). lia. }
  split; [|split; [|split; [|split]]].
  - intros d inv c t n Hr Hc new_inv.
    destruct (candidate_inv idx inv c t n Hwf Hc)
      as (Htwf & _ & Hn & _ & Hn0 & _ & sid0 & r0 & Hr0 & Hzero).
    destruct (update_shrinks idx inv c t n Hwf Hc) as (_ & _ & _ & Hsub).
    split; [done|]. split; [|split; [|done]].
    + apply (reachable_nonneg idx inv0 (S d)); [done| |by econstructor].
      intros sid q (s & Hs & <-)%inventory_lookup. by apply Qclt_le_weak, Hpos.
    + exists sid0, r0. split; [by apply ratio_of_Some|].
      assert (0 < Z2Qc r0) as Hr0pos by by eapply Z2Qc_pos, ratio_of_pos.
      assert (Z2Qc r0 ≠ 0) as Hr0ne.
      { intros E. rewrite E in Hr0pos. by apply (irreflexivity Qclt) in Hr0pos. }
      split.
      * rewrite <-Hzero. field. done.
      * subst new_inv. rewrite update_inventory_lookup, Hr0 by done.
        f_equal. rewrite Hzero. ring.
  - done.
  - intros d inv Hr Hd. specialize (Hdepth d inv Hr).
    apply map_size_empty_iff. lia.
  - intros room Hroom. unfold _search. apply search_room_irrelevant; [done|lia..].
  - intros r (cache' & idx' & Hc' & _ & Hi' & _ & _ & ->)%search_unfold.
    assert (cache' = cache) as -> by congruence.
    assert (idx' = idx) as -> by congruence.
    destruct (search_length idx cfg (length streams + 1) (inventory streams) ∅ Hwf)
      as [Hlen _]; [apply map_Forall_empty|].
    fold inv0 in Hlen. etrans; [exact Hlen|exact Hsize].
Qed.

End with_pH.

End depth_facts.

(** * Infeasible inputs and dead ends *)

Section dead_end_facts.
Import Search Invariants.
Local Open Scope Qc_scope.

Lemma candidates_nil (idx : index) active :
  ¬ applicable idx (dom active) → candidates idx active = [].
Proof.
  intros Hna. destruct (candidates idx active) as [|[[c t] n] l] eqn:E; [done|].
  destruct Hna.
  assert ((c, t, n) ∈ candidates idx active) as Hin by (rewrite E; left).
  apply elem_of_candidates in Hin as (key & ts & ? & ? & ? & _).
  by exists key, ts, t.
Qed.

Lemma dead_end_result (idx : index) cfg room inv memo :
  dead_ends_ok idx memo →
  (¬ applicable idx (dom (active_of inv)) → active_of inv ≠ ∅ →
   (_search_from idx cfg room inv memo).1 = (Inf, [])) ∧
  dead_ends_ok idx (_search_from idx cfg room inv memo).2.
Proof.
  intros Hmemo.
  pose proof (search_rule idx cfg (λ _, True)
    (λ key v, ¬ applicable idx (dom key) → key ≠ ∅ → v = (Inf, []))) as Hrule.
  destruct Hrule with (room := room) (inv := inv) (memo := memo) as [H1 H2].
  - done.
  - done.
  - done.
  - intros inv' c t n rc rps _ _ Hc _ Hna _. destruct Hna.
    apply elem_of_candidates in Hc as (key & ts & ? & ? & ? & _).
    exists key, ts, t. unfold memo_key. by rewrite dom_fmap_L.
  - done.
  - done.
  - split; [|done].
    intros Hna Hact. apply H1.
    + unfold memo_key. by rewrite dom_fmap_L.
    + unfold memo_key. by intros E%fmap_empty_inv.
Qed.

(** A child that comes back with [inf] leaves the loop state as it was. *)
Lemma explore_skips_inf cfg recurse inv active c t n rest best phases memo ps memo' :
  ¬ cost_le best (Fin c) →
  recurse (update_inventory inv active t n) memo = ((Inf, ps), memo') →
  explore cfg recurse inv active ((c, t, n) :: rest) best phases memo
  = explore cfg recurse inv active rest best phases memo'.
Proof.
  intros Hle Hrec. simpl. rewrite decide_False by done. rewrite Hrec.
  destruct (decide (cost_lt _ _)) as [Hlt|]; [|done]. by destruct best.
Qed.

Section with_pH.
Variable blend_pH : list Qc → list Z → Qc.

Lemma feasible_templates_none cfg fixed subset subset_streams ratios_list :
  (∀ ratios, ratios ∈ ratios_list →
     evaluate blend_pH cfg fixed subset subset_streams ratios = Ok None) →
  feasible_templates blend_pH cfg fixed subset subset_streams ratios_list = Ok [].
Proof.
  induction ratios_list as [|r rest IH]; intros Hnone; simpl; [done|].
  rewrite Hnone by left. rewrite IH; [done|]. intros ratios Hr. apply Hnone. by right.
Qed.

Lemma build_index_none cfg fixed smap cache todo :
  (∀ subset ratios,
     subset ∈ todo → ratios ∈ default [[1%Z]] (cache !! length subset) →
     evaluate blend_pH cfg fixed subset (omap (λ sid, smap !! sid) subset) ratios
     = Ok None) →
  build_index blend_pH cfg fixed smap cache todo = Ok [].
Proof.
  induction todo as [|subset todo IH]; intros Hnone; simpl; [done|].
  rewrite feasible_templates_none by (intros; apply Hnone; [left|done]).
  simpl. rewrite IH; [done|]. intros s r Hs Hr. apply Hnone; [by right|done].
Qed.

(** C5, as amended.  If every (subset, ratio) combination the
    pre-computation evaluates is infeasible, the index is empty; if
    moreover some stream holds more than the active threshold, the root
    search returns [(inf, [])] and [build_optimized_schedule] returns no
    schedule.  In any search, a non-terminal state without applicable
    retained template returns [(inf, [])], whatever the depth and
    whatever the search has memoised so far; and a parent whose child
    returns [inf] keeps its [best_sub_cost] and phases unchanged. *)
Theorem infeasible_is_inf (streams : list WasteStream.t) (cfg : SystemConfig.t)
    (cache : gmap nat (list (list Z))) :
  build_ratio_cache (seq 1 (length streams)) (SystemConfig.ratio_sum_max cfg)
    = Ok cache →
  (∀ subset ratios,
     subset ∈ subsets (all_ids streams) →
     ratios ∈ default [[1%Z]] (cache !! length subset) →
     evaluate blend_pH cfg (fixed_cost_per_min cfg) subset
       (omap (λ sid, streams_map streams !! sid) subset) ratios = Ok None) →
  _precompute_templates blend_pH streams cfg cache = Ok [] ∧
  (active_of (inventory streams) ≠ ∅ →
   search blend_pH streams cfg = Ok (Inf, []) ∧
   build_optimized_schedule blend_pH streams cfg = Ok None) ∧
  (∀ (idx : index) room inv memo,
     dead_ends_ok idx memo →
     (¬ applicable idx (dom (active_of inv)) → active_of inv ≠ ∅ →
      (_search_from idx cfg room inv memo).1 = (Inf, [])) ∧
     dead_ends_ok idx (_search_from idx cfg room inv memo).2) ∧
  (∀ recurse inv active c t n rest best phases memo ps memo',
     ¬ cost_le best (Fin c) →
     recurse (update_inventory inv active t n) memo = ((Inf, ps), memo') →
     explore cfg recurse inv active ((c, t, n) :: rest) best phases memo
     = explore cfg recurse inv active rest best phases memo').
Proof.
  intros Hcache Hnone.
  assert (_precompute_templates blend_pH streams cfg cache = Ok []) as Hidx
    by by apply build_index_none.
  split; [done|]. split; [|split].
  - intros Hact.
    assert (search blend_pH streams cfg = Ok (Inf, [])) as Hs.
    { apply search_unfold.
      destruct (build_ratio_cache_ok (length streams) (SystemConfig.ratio_sum_max cfg))
        as (cache' & Hcache' & Hok).
      assert (cache' = cache) as -> by congruence.
      exists cache, []. split; [done|]. split; [done|]. split; [done|].
      split; [by intros ??? ?%elem_of_nil|]. split; [by intros ??? ?%elem_of_nil|].
      symmetry. apply (dead_end_result [] cfg); [apply map_Forall_empty| |done].
      by intros (? & ? & ? & ?%elem_of_nil & _). }
    split; [done|]. unfold build_optimized_schedule. by rewrite Hs.
  - intros. by apply dead_end_result.
  - intros. by eapply explore_skips_inf.
Qed.

End with_pH.

(** C5 as stated fails: the single stream "T" of 0.3 L is infeasible for
    its only ratio vector, yet its quantity is at most the active
    threshold, so the root is terminal, the search returns cost 0 with no
    phase and a (zero-cost, empty) schedule is assembled. *)
Lemma infeasible_small_stream_gets_schedule :
  0 < WasteStream.quantity_L Samples.stream_T ∧
  _precompute_templates Samples.pH_mean [Samples.stream_T]
    SystemConfig.defaults Samples.cache_1 = Ok [] ∧
  search Samples.pH_mean [Samples.stream_T] SystemConfig.defaults
    = Ok (Fin 0, []) ∧
  build_optimized_schedule Samples.pH_mean [Samples.stream_T] SystemConfig.defaults
    = Ok (Some {| Schedule.phases := [];
                  Schedule.total_cost := Fin 0;
                  Schedule.total_runtime_min := 0 |}).
Proof. repeat split; vm_compute; reflexivity. Qed.

Lemma infeasible_is_inf_witness :
  WasteStream.quantity_L Samples.stream_H = dec 10 1 ∧
  search Samples.pH_mean [Samples.stream_H] SystemConfig.defaults = Ok (Inf, []) ∧
  build_optimized_schedule Samples.pH_mean [Samples.stream_H] SystemConfig.defaults
    = Ok None.
Proof.
  split; [reflexivity|].
  apply (infeasible_is_inf Samples.pH_mean [Samples.stream_H] SystemConfig.defaults
           Samples.cache_1).
  - vm_compute. reflexivity.
  - intros subset ratios Hs Hr.
    assert (subset = ["H"%string]) as ->.
    { vm_compute in Hs. by apply list_elem_of_singleton in Hs. }
    assert (ratios = [1%Z]) as ->.
    { vm_compute in Hr. by apply list_elem_of_singleton in Hr. }
    vm_compute. reflexivity.
  - intros E. apply (f_equal (λ m, m !! "H"%string)) in E.
    vm_compute in E. discriminate.
Defined.

End dead_end_facts.

(** * The search sees an inventory through its active part only *)

Section active_part.
Import Search Invariants Reference.
Local Open Scope Qc_scope.
Variables (idx : index) (cfg : SystemConfig.t).
Hypothesis idx_wf : index_wf idx.

Lemma active_of_idemp inv : active_of (active_of inv) = active_of inv.
Proof.
  apply map_eq. intros sid. apply option_eq. intros q.
  rewrite !active_of_lookup. naive_solver.
Qed.

Lemma active_of_update inv inv' t n :
  template_wf t → active_of inv = active_of inv' →
  active_of (update_inventory inv (active_of inv) t n)
  = active_of (update_inventory inv' (active_of inv') t n).
Proof.
  intros Hwf Heq. apply map_eq. intros sid. apply option_eq. intros q.
  rewrite !active_of_lookup, !update_inventory_lookup by done. rewrite <-Heq.
  destruct (ratio_of t !! sid); [done|].
  rewrite <-!active_of_lookup. by rewrite Heq.
Qed.

Lemma scan_ext f g inv inv' active todo best phases :
  (∀ c t n, (c, t, n) ∈ todo →
     f (update_inventory inv active t n) = g (update_inventory inv' active t n)) →
  scan cfg f inv active todo best phases = scan cfg g inv' active todo best phases.
Proof.
  revert best phases.
  induction todo as [|[[c t] n] todo IH]; intros best phases Hext; simpl; [done|].
  case_decide; [done|]. rewrite (Hext c t n) by left.
  destruct (g _) as [rc rps].
  case_decide; apply IH; intros c' t' n' ?; apply (Hext c'); by right.
Qed.

Lemma candidates_wf inv c t n :
  (c, t, n) ∈ candidates idx (active_of inv) → template_wf t.
Proof. intros Hc. by destruct (candidate_inv idx inv c t n idx_wf Hc). Qed.

(** Inventories with the same active part get the same memo-free
    result, the same exhaustive optimum and, from a given memo, the same
    memoised result. *)
Lemma pure_from_ext room inv inv' :
  active_of inv = active_of inv' →
  pure_from idx cfg room inv = pure_from idx cfg room inv'.
Proof.
  revert inv inv'. induction room as [|room IH]; intros inv inv' Heq; simpl.
  - by rewrite Heq.
  - rewrite <-Heq. case_decide; [done|].
    rewrite (scan_ext (pure_from idx cfg room) (pure_from idx cfg room) inv inv');
      [done|].
    intros c t n Hc%elem_of_sort_by_key. apply IH.
    rewrite Heq at 2. apply active_of_update; [by eapply candidates_wf|done].
Qed.

Lemma opt_cost_ext room inv inv' :
  active_of inv = active_of inv' →
  opt_cost idx room inv = opt_cost idx room inv'.
Proof.
  revert inv inv'. induction room as [|room IH]; intros inv inv' Heq; simpl.
  - by rewrite Heq.
  - rewrite <-Heq. case_decide; [done|]. f_equal.
    apply list_fmap_ext. intros i [[c t] n] Hi.
    rewrite (IH (update_inventory inv (active_of inv) t n)
               (update_inventory inv' (active_of inv) t n)); [done|].
    rewrite Heq at 2. apply active_of_update; [|done].
    eapply candidates_wf. by eapply list_elem_of_lookup_2.
Qed.

Lemma search_from_ext room inv inv' memo :
  active_of inv = active_of inv' →
  _search_from idx cfg room inv memo = _search_from idx cfg room inv' memo.
Proof.
  revert inv inv' memo. induction room as [|room IH]; intros inv inv' memo Heq; simpl.
  - by rewrite Heq.
  - rewrite <-Heq. case_decide; [done|]. destruct (memo !! _); [done|].
    assert (∀ todo best phases memo0,
      (∀ x, x ∈ todo → x ∈ candidates idx (active_of inv)) →
      explore cfg (_search_from idx cfg room) inv (active_of inv) todo best phases memo0
      = explore cfg (_search_from idx cfg room) inv' (active_of inv) todo best phases memo0)
      as Hloop.
    { induction todo as [|[[c t] n] todo IHt]; intros best phases memo0 Hin; simpl;
        [done|].
      case_decide; [done|].
      rewrite (IH (update_inventory inv (active_of inv) t n)
                 (update_inventory inv' (active_of inv) t n)).
      - destruct (_search_from _ _ _ _ memo0) as [[rc rps] memo1].
        case_decide; apply IHt; intros; apply Hin; by right.
      - rewrite Heq at 2. apply active_of_update; [|done].
        eapply candidates_wf, Hin. left. }
    rewrite Hloop; [done|]. intros x. by rewrite elem_of_sort_by_key.
Qed.

(** Room beyond the number of active streams changes nothing. *)
Lemma pure_room_irrelevant room room' inv :
  (size (active_of inv) < room)%nat → (size (active_of inv) < room')%nat →
  pure_from idx cfg room inv = pure_from idx cfg room' inv.
Proof.
  revert room' inv.
  induction room as [|room IH]; intros [|room'] inv H1 H2; try lia.
  simpl. case_decide; [done|].
  rewrite (scan_ext (pure_from idx cfg room) (pure_from idx cfg room') inv inv);
    [done|].
  intros c t n Hc%elem_of_sort_by_key.
  pose proof (update_size idx inv c t n idx_wf Hc). apply IH; lia.
Qed.

Lemma opt_room_irrelevant room room' inv :
  (size (active_of inv) < room)%nat → (size (active_of inv) < room')%nat →
  opt_cost idx room inv = opt_cost idx room' inv.
Proof.
  revert room' inv.
  induction room as [|room IH]; intros [|room'] inv H1 H2; try lia.
  simpl. case_decide; [done|]. f_equal.
  apply list_fmap_ext. intros i [[c t] n] Hi.
  apply list_elem_of_lookup_2 in Hi.
  pose proof (update_size idx inv c t n idx_wf Hi).
  rewrite (IH room' (update_inventory inv (active_of inv) t n)); [done|lia..].
Qed.

Lemma pure_ext inv inv' :
  active_of inv = active_of inv' → pure idx cfg inv = pure idx cfg inv'.
Proof. intros Heq. unfold pure. rewrite Heq. by apply pure_from_ext. Qed.

Lemma pure_from_pure room inv :
  (size (active_of inv) < room)%nat → pure_from idx cfg room inv = pure idx cfg inv.
Proof. intros. unfold pure. apply pure_room_irrelevant; lia. Qed.

End active_part.

(** * Without key collisions the memo is exact *)

Section memo_exactness.
Import Search Invariants Reference.
Local Open Scope Qc_scope.
Variables (idx : index) (cfg : SystemConfig.t) (inv0 : gmap string Qc).
Hypothesis idx_wf : index_wf idx.
Hypothesis no_collision : collision_free idx inv0.

Lemma explore_scan recurse f inv todo best phases memo :
  (∀ c t n memo', (c, t, n) ∈ todo → memo_exact idx cfg inv0 memo' →
     (recurse (update_inventory inv (active_of inv) t n) memo').1
       = f (update_inventory inv (active_of inv) t n) ∧
     memo_exact idx cfg inv0
       (recurse (update_inventory inv (active_of inv) t n) memo').2) →
  memo_exact idx cfg inv0 memo →
  (explore cfg recurse inv (active_of inv) todo best phases memo).1
    = scan cfg f inv (active_of inv) todo best phases ∧
  memo_exact idx cfg inv0
    (explore cfg recurse inv (active_of inv) todo best phases memo).2.
Proof.
  revert best phases memo.
  induction todo as [|[[c t] n] todo IH]; intros best phases memo Hrec Hmemo; simpl;
    [done|].
  case_decide; [done|].
  destruct (Hrec c t n memo) as [Hr Hm]; [left|done|].
  destruct (recurse _ memo) as [[rc rps] memo1]. simpl in Hr, Hm. rewrite <-Hr.
  case_decide; apply IH; try done; intros c' t' n' memo' ? ?;
    apply (Hrec c'); [by right|done|by right|done].
Qed.

Lemma search_exact room d inv memo :
  reachable idx inv0 d inv → (size (active_of inv) < room)%nat →
  memo_exact idx cfg inv0 memo →
  (_search_from idx cfg room inv memo).1 = pure idx cfg inv ∧
  memo_exact idx cfg inv0 (_search_from idx cfg room inv memo).2.
Proof.
  revert d inv memo.
  induction room as [|room IH]; intros d inv memo Hreach Hsize Hmemo; [lia|].
  rewrite <-(pure_from_pure idx cfg idx_wf (S room)) by done. simpl.
  case_decide as Hact; [done|].
  destruct (memo !! memo_key (active_of inv)) as [hit|] eqn:Hhit.
  { simpl. split; [|done]. rewrite (Hmemo _ _ Hhit d inv Hreach eq_refl).
    rewrite <-(pure_from_pure idx cfg idx_wf (S room)) by done. simpl.
    by rewrite decide_False. }
  set (todo := sort_by_key (λ c : candidate, c.1.1) (candidates idx (active_of inv))).
  destruct (explore_scan (_search_from idx cfg room) (pure_from idx cfg room)
              inv todo Inf None memo) as [Hloop Hm]; [|done|].
  { intros c t n memo' Hc%elem_of_sort_by_key Hmemo'.
    pose proof (update_size idx inv c t n idx_wf Hc).
    rewrite (pure_from_pure idx cfg idx_wf room) by lia.
    apply (IH (S d)); [by econstructor|lia|done]. }
  destruct (explore _ _ _ _ _ _ _ _) as [[best phases] memo1].
  simpl in Hloop, Hm. rewrite <-Hloop. simpl.
  assert (match phases with Some ps => (best, ps) | None => (Inf, []) end
          = pure idx cfg inv) as Hentry.
  { rewrite <-(pure_from_pure idx cfg idx_wf (S room)) by done. simpl.
    rewrite decide_False by done. fold todo. by rewrite <-Hloop. }
  split; [by destruct phases|].
  intros key v Hkv d' s Hs Hkey.
  destruct (decide (key = memo_key (active_of inv))) as [->|Hne].
  - rewrite lookup_insert_eq in Hkv. injection Hkv as <-. rewrite Hentry.
    apply (pure_ext idx cfg idx_wf). symmetry. by eapply no_collision.
  - rewrite lookup_insert_ne in Hkv by done. by eapply Hm.
Qed.

End memo_exactness.

(** * The returned phases deplete the inventory *)

Section depletion.
Import Search Invariants Reference.
Local Open Scope Qc_scope.

Lemma foldl_alter_lookup (g : Z → Qc → Qc) (l : list (string * Z))
    (inv : gmap string Qc) sid :
  NoDup l.*1 →
  foldl (λ m '(s, r), alter (g r) s m) inv l !! sid =
  match (list_to_map l : gmap string Z) !! sid with
  | Some r => g r <$> inv !! sid
  | None => inv !! sid
  end.
Proof.
  revert inv. induction l as [|[s r] l IH]; intros inv Hnd; simpl.
  - by rewrite lookup_empty.
  - apply NoDup_cons in Hnd as [Hs Hnd]. rewrite IH by done.
    change (list_to_map ((s, r) :: l)) with (<[s := r]> (list_to_map l : gmap string Z)).
    destruct (decide (s = sid)) as [->|Hne].
    + rewrite (proj1 (not_elem_of_list_to_map l sid) Hs).
      by rewrite lookup_alter_eq, lookup_insert_eq.
    + rewrite lookup_insert_ne by done. by rewrite !lookup_alter_ne by done.
Qed.

Lemma dom_consume inv p : dom (consume inv p) = dom inv.
Proof.
  unfold consume. generalize (PhaseResult.streams p). intros l. revert inv.
  induction l as [|[s r] l IH]; intros inv; simpl; [done|].
  by rewrite IH, dom_alter_L.
Qed.

Lemma dom_remaining phases inv : dom (remaining phases inv) = dom inv.
Proof.
  unfold remaining. revert inv. induction phases as [|p ps IH]; intros inv; simpl;
    [done|]. by rewrite IH, dom_consume.
Qed.

Lemma batch_count_make_phase cfg t n :
  template_wf t → batch_count (make_phase cfg t n) = n.
Proof.
  intros (Hne & _ & Hlen & Hpos & Hsum). unfold batch_count. simpl.
  rewrite snd_zip by lia. rewrite Hsum.
  assert (0 < Ratios.sum (PhaseTemplate.ratios t))%Z as Hs.
  { pose proof (sum_ge_length _ Hpos).
    destruct (PhaseTemplate.stream_ids t), (PhaseTemplate.ratios t); simpl in *;
      try done; lia. }
  apply Z2Qc_pos in Hs. field. intros E. rewrite E in Hs.
  by apply (irreflexivity Qclt) in Hs.
Qed.

(** Subtracting the consumption of the phase built from a candidate is
    the inventory update the search performs for it. *)
Lemma consume_make_phase (idx : index) cfg inv c t n :
  index_wf idx → (c, t, n) ∈ candidates idx (active_of inv) →
  consume inv (make_phase cfg t n) = update_inventory inv (active_of inv) t n.
Proof.
  intros Hidx Hc.
  destruct (candidate_inv idx inv c t n Hidx Hc) as (Hwf & Hsub & _).
  apply map_eq. intros sid. rewrite update_inventory_lookup by done.
  unfold consume. rewrite batch_count_make_phase by done. simpl.
  rewrite (foldl_alter_lookup (λ r q, q - Z2Qc r * n)).
  - fold (ratio_of t). destruct (ratio_of t !! sid) as [r|] eqn:Hr; [|done].
    assert (sid ∈ dom (active_of inv)) as [q Hq]%elem_of_dom
      by (apply Hsub; by apply elem_of_dom_2 in Hr).
    unfold qty. rewrite Hq. apply active_of_lookup in Hq as [-> _]. done.
  - destruct Hwf as (_ & ? & ? & _). rewrite fst_zip by lia. done.
Qed.

Lemma scan_depletes (idx : index) cfg f inv todo best phases :
  index_wf idx →
  (∀ c t n, (c, t, n) ∈ todo →
     (c, t, n) ∈ candidates idx (active_of inv) ∧
     ((f (update_inventory inv (active_of inv) t n)).1 ≠ Inf →
      active_of (remaining (f (update_inventory inv (active_of inv) t n)).2
                   (update_inventory inv (active_of inv) t n)) = ∅)) →
  (∀ ps, phases = Some ps → active_of (remaining ps inv) = ∅) →
  ∀ ps, (scan cfg f inv (active_of inv) todo best phases).2 = Some ps →
        active_of (remaining ps inv) = ∅.
Proof.
  intros Hidx. revert best phases.
  induction todo as [|[[c t] n] todo IH]; intros best phases Hf Hok; simpl; [done|].
  case_decide; [done|].
  destruct (Hf c t n) as [Hc Hrec]; [left|].
  destruct (f _) as [rc rps]. simpl in Hrec.
  case_decide as Hlt; apply IH; try done; try (intros; apply Hf; by right).
  intros ps [= <-]. simpl.
  rewrite (consume_make_phase idx cfg inv c t n) by done.
  apply Hrec. intros ->. by destruct best.
Qed.

Lemma pure_depletes (idx : index) cfg room inv :
  index_wf idx →
  (pure_from idx cfg room inv).1 ≠ Inf →
  active_of (remaining (pure_from idx cfg room inv).2 inv) = ∅.
Proof.
  intros Hidx. revert inv. induction room as [|room IH]; intros inv; simpl.
  - case_decide; [done|]. by intros [].
  - case_decide; [done|].
    pose proof (scan_depletes idx cfg (pure_from idx cfg room) inv
      (sort_by_key (λ c : candidate, c.1.1) (candidates idx (active_of inv)))
      Inf None Hidx) as Hscan.
    destruct (scan _ _ _ _ _ _ _) as [best [ps|]]; [|by intros []].
    intros _. simpl. apply Hscan; [|done|done].
    intros c t n Hc%elem_of_sort_by_key. split; [done|]. apply IH.
Qed.

Lemma depleted_iff inv :
  active_of inv = ∅ ↔ ∀ sid q, inv !! sid = Some q → q ≤ _ACTIVE_THRESHOLD_L.
Proof.
  rewrite map_empty. split.
  - intros H sid q Hq. apply Qcnot_lt_le. intros Hlt.
    assert (active_of inv !! sid = Some q) as E by by apply active_of_lookup.
    by rewrite H in E.
  - intros H sid. apply eq_None_not_Some. intros [q [Hq Hlt]%active_of_lookup].
    by apply (Qcle_not_lt _ _ (H sid q Hq)).
Qed.

Section with_pH.
Variable blend_pH : list Qc → list Z → Qc.

(** C1, as amended.  When no two inventories the recursion can meet
    share a memo key with different active quantities, and the root
    search returns a finite total cost, then subtracting each returned
    phase's per-stream consumption (ratio part times the phase's batch
    count) from the initial inventory leaves every stream, each still
    present, at or below the active threshold of 0.5 L. *)
Theorem schedule_depletes_inventory (streams : list WasteStream.t)
    (cfg : SystemConfig.t) (cache : gmap nat (list (list Z))) (idx : index)
    (c : Qc) (phases : list PhaseResult.t) :
  build_ratio_cache (seq 1 (length streams)) (SystemConfig.ratio_sum_max cfg)
    = Ok cache →
  _precompute_templates blend_pH streams cfg cache = Ok idx →
  collision_free idx (inventory streams) →
  search blend_pH streams cfg = Ok (Fin c, phases) →
  ∀ sid, sid ∈ dom (inventory streams) →
    ∃ q, remaining phases (inventory streams) !! sid = Some q ∧
         q ≤ _ACTIVE_THRESHOLD_L.
Proof.
  intros Hcache Hidx Hfree
    (cache' & idx' & Hc' & _ & Hi' & Hwf & _ & Hres)%search_unfold sid Hsid.
  assert (cache' = cache) as -> by congruence.
  assert (idx' = idx) as -> by congruence.
  destruct (search_exact idx cfg (inventory streams) Hwf Hfree
              (length streams + 1) 0 (inventory streams) ∅) as [Hexact _].
  { constructor. }
  { pose proof (size_active_of (inventory streams)).
    pose proof (size_inventory streams). lia. }
  { by intros ?? ?%lookup_empty_Some. }
  rewrite <-Hres in Hexact.
  pose proof (pure_depletes idx cfg (S (size (active_of (inventory streams))))
                (inventory streams) Hwf) as Hdep.
  fold (pure idx cfg (inventory streams)) in Hdep. rewrite <-Hexact in Hdep.
  simpl in Hdep. specialize (Hdep ltac:(done)).
  rewrite <-(dom_remaining phases) in Hsid. apply elem_of_dom in Hsid as [q Hq].
  exists q. split; [done|]. by eapply depleted_iff.
Qed.

End with_pH.
End depletion.

(** * Costs with infinity *)

Section cost_order.
Import Reference.
Local Open Scope Qc_scope.

Lemma cost_le_refl x : cost_le x x.
Proof. destruct x; simpl; done. Qed.

Lemma cost_le_trans x y z : cost_le x y → cost_le y z → cost_le x z.
Proof. destruct x, y, z; simpl; try done. apply Qcle_trans. Qed.

Lemma cost_le_antisym x y : cost_le x y → cost_le y x → x = y.
Proof.
  destruct x, y; simpl; try done. intros. f_equal. by apply Qcle_antisym.
Qed.

Lemma cost_lt_not_le x y : cost_lt x y ↔ ¬ cost_le y x.
Proof.
  destruct x, y; simpl; try naive_solver. split.
  - apply Qclt_not_le.
  - apply Qcnot_le_lt.
Qed.

Lemma cost_le_not_lt x y : cost_le x y ↔ ¬ cost_lt y x.
Proof.
  destruct x, y; simpl; try naive_solver. split.
  - apply Qcle_not_lt.
  - apply Qcnot_lt_le.
Qed.

Lemma cost_lt_le_weak x y : cost_lt x y → cost_le x y.
Proof. destruct x, y; simpl; try done. apply Qclt_le_weak. Qed.

Lemma cost_le_Inf x : cost_le x Inf.
Proof. by destruct x. Qed.

Lemma cost_add_le_mono c x y :
  cost_le x y → cost_le (cost_add (Fin c) x) (cost_add (Fin c) y).
Proof.
  destruct x, y; simpl; try done. intros. by apply Qcplus_le_mono_l.
Qed.

Lemma cost_add_nonneg c x : cost_le (Fin 0) x → cost_le (Fin c) (cost_add (Fin c) x).
Proof. destruct x as [x|]; simpl; [|done]. intros. qc_lra. Qed.

Lemma cost_min_is_min x y : is_min (cost_min x y) [x; y].
Proof.
  unfold cost_min. case_decide as Hlt; split.
  - right; left.
  - intros z [->|[->|?%elem_of_nil]%elem_of_cons]%elem_of_cons; try done.
    + destruct x, y; simpl in *; try done. by apply Qclt_le_weak.
    + apply cost_le_refl.
  - left.
  - intros z [->|[->|?%elem_of_nil]%elem_of_cons]%elem_of_cons; try done.
    + apply cost_le_refl.
    + by apply cost_le_not_lt.
Qed.

Lemma foldl_cost_min_is_min b l : is_min (foldl cost_min b l) (b :: l).
Proof.
  revert b. induction l as [|x l IH]; intros b; simpl.
  - split; [left|]. intros ? ->%list_elem_of_singleton. apply cost_le_refl.
  - destruct (IH (cost_min b x)) as [Hin Hle].
    destruct (cost_min_is_min b x) as [Hin' Hle']. split.
    + apply elem_of_cons in Hin as [->|?]; [|by do 2 right].
      apply elem_of_cons in Hin' as [->|Hx]; [left|].
      apply list_elem_of_singleton in Hx as ->. right; left.
    + intros z [->|[->|Hz]%elem_of_cons]%elem_of_cons.
      * eapply cost_le_trans; [apply Hle; left|apply Hle'; left].
      * eapply cost_le_trans; [apply Hle; left|apply Hle'; right; left].
      * apply Hle. by right.
Qed.

Lemma is_min_unique m m' l l' :
  (∀ x, x ∈ l ↔ x ∈ l') → is_min m l → is_min m' l' → m = m'.
Proof.
  intros Heq [Hin Hle] [Hin' Hle'].
  apply cost_le_antisym; [apply Hle; by apply Heq|apply Hle'; by apply Heq].
Qed.

End cost_order.

(** * Pruning is sound: the memo-free search finds the exhaustive optimum *)

Section pruning.
Import Search Invariants Reference.
Local Open Scope Qc_scope.
Variables (idx : index) (cfg : SystemConfig.t).
Hypothesis idx_wf : index_wf idx.
Hypothesis idx_nonneg :
  ∀ key ts t, (key, ts) ∈ idx → t ∈ ts → 0 ≤ PhaseTemplate.cost_per_batch t.

Lemma candidate_cost_nonneg inv c t n :
  (c, t, n) ∈ candidates idx (active_of inv) → 0 ≤ c.
Proof.
  intros Hc. destruct (candidate_inv idx inv c t n idx_wf Hc)
    as (_ & _ & _ & -> & Hn & _).
  apply elem_of_candidates in Hc as (key & ts & Hin & _ & Ht & _).
  apply Qcmult_nonneg_nonneg; [by apply Qclt_le_weak|by eapply idx_nonneg].
Qed.

Lemma opt_cost_S room inv :
  opt_cost idx (S room) inv =
  if decide (active_of inv = ∅) then Fin 0
  else foldl cost_min Inf
         ((λ '(c, tmpl, n),
             cost_add (Fin c)
               (opt_cost idx room (update_inventory inv (active_of inv) tmpl n)))
          <$> candidates idx (active_of inv)).
Proof. done. Qed.

Lemma pure_from_S room inv :
  pure_from idx cfg (S room) inv =
  if decide (active_of inv = ∅) then (Fin 0, [])
  else
    match scan cfg (pure_from idx cfg room) inv (active_of inv)
            (sort_by_key (λ c : candidate, c.1.1) (candidates idx (active_of inv)))
            Inf None with
    | (best_sub_cost, Some phases) => (best_sub_cost, phases)
    | (_, None) => (Inf, [])
    end.
Proof. done. Qed.

Lemma opt_cost_nonneg room inv : cost_le (Fin 0) (opt_cost idx room inv).
Proof.
  revert inv. induction room as [|room IH]; intros inv.
  - simpl. case_decide; simpl; done.
  - rewrite opt_cost_S. case_decide; [done|].
    destruct (foldl_cost_min_is_min Inf
      ((λ '(c, tmpl, n), cost_add (Fin c)
          (opt_cost idx room (update_inventory inv (active_of inv) tmpl n)))
       <$> candidates idx (active_of inv))) as [Hin _].
    apply elem_of_cons in Hin as [->|Hin]; [done|]. 
    apply list_elem_of_fmap in Hin as ([[c t] n] & -> & Hc).
    eapply cost_le_trans; [|apply cost_add_nonneg, IH]. simpl.
    by eapply candidate_cost_nonneg.
Qed.

Lemma scan_cons f inv active c t n rest best phases :
  scan cfg f inv active ((c, t, n) :: rest) best phases =
  if decide (cost_le best (Fin c)) then (best, phases)
  else
    if decide (cost_lt (cost_add (Fin c) (f (update_inventory inv active t n)).1) best)
    then scan cfg f inv active rest
           (cost_add (Fin c) (f (update_inventory inv active t n)).1)
           (Some (make_phase cfg t n :: (f (update_inventory inv active t n)).2))
    else scan cfg f inv active rest best phases.
Proof. simpl. by destruct (f _). Qed.

Lemma scan_min f inv todo best phases :
  StronglySorted (λ a b : candidate, a.1.1 ≤ b.1.1) todo →
  (∀ c t n, (c, t, n) ∈ todo → 0 ≤ c ∧
     cost_le (Fin 0) (f (update_inventory inv (active_of inv) t n)).1) →
  (phases = None → best = Inf) →
  is_min (scan cfg f inv (active_of inv) todo best phases).1
    (best :: ((λ '(c, t, n),
                 cost_add (Fin c) (f (update_inventory inv (active_of inv) t n)).1)
              <$> todo)) ∧
  ((scan cfg f inv (active_of inv) todo best phases).2 = None →
   (scan cfg f inv (active_of inv) todo best phases).1 = Inf).
Proof.
  revert best phases.
  induction todo as [|[[c t] n] todo IH]; intros best phases Hsorted Hf Hnone.
  - simpl. split; [|done]. split; [left|].
    intros ? ->%list_elem_of_singleton. apply cost_le_refl.
  - rewrite scan_cons, fmap_cons.
    apply StronglySorted_cons in Hsorted as [Hhd Hsorted].
    destruct (Hf c t n) as [Hc Hrec]; [left|].
    assert (∀ c' t' n', (c', t', n') ∈ todo → 0 ≤ c' ∧
      cost_le (Fin 0) (f (update_inventory inv (active_of inv) t' n')).1) as Hf'
      by (intros; apply Hf; by right).
    case_decide as Hprune.
    + simpl. split; [|done]. split; [left|].
      intros x [->|[->|Hx]%elem_of_cons]%elem_of_cons.
      * apply cost_le_refl.
      * eapply cost_le_trans; [exact Hprune|by apply cost_add_nonneg].
      * apply list_elem_of_fmap in Hx as ([[c' t'] n'] & -> & Hin).
        rewrite Forall_forall in Hhd. specialize (Hhd _ Hin). simpl in Hhd.
        eapply cost_le_trans; [exact Hprune|].
        destruct (Hf' c' t' n' Hin) as [_ Hrec'].
        eapply cost_le_trans; [|apply cost_add_nonneg, Hrec'].
        done.
    + set (rc := (f (update_inventory inv (active_of inv) t n)).1) in *.
      set (rps := (f (update_inventory inv (active_of inv) t n)).2) in *.
      case_decide as Hlt.
      * destruct (IH (cost_add (Fin c) rc)
          (Some (make_phase cfg t n :: rps)) Hsorted Hf') as [[Hin Hle] Hn]; [done|].
        split; [|done]. split.
        -- apply elem_of_cons in Hin as [->|?]; [right; left|by do 2 right].
        -- intros x [->|[->|Hx]%elem_of_cons]%elem_of_cons.
           ++ eapply cost_le_trans; [apply Hle; left|].
              by apply cost_lt_le_weak.
           ++ apply Hle. left.
           ++ apply Hle. by right.
      * destruct (IH best phases Hsorted Hf' Hnone) as [[Hin Hle] Hn].
        split; [|done]. split.
        -- apply elem_of_cons in Hin as [->|?]; [left|by do 2 right].
        -- intros x [->|[->|Hx]%elem_of_cons]%elem_of_cons.
           ++ apply Hle. left.
           ++ eapply cost_le_trans; [apply Hle; left|]. by apply cost_le_not_lt.
           ++ apply Hle. by right.
Qed.

(** The pruned, memo-free search returns the cost of the exhaustive one. *)
Lemma pure_cost_optimal room inv :
  (pure_from idx cfg room inv).1 = opt_cost idx room inv.
Proof.
  revert inv. induction room as [|room IH]; intros inv.
  - simpl. by case_decide.
  - rewrite opt_cost_S, pure_from_S. case_decide; [done|].
    set (todo := sort_by_key (λ c : candidate, c.1.1) (candidates idx (active_of inv))).
    destruct (scan_min (pure_from idx cfg room) inv todo Inf None) as [Hmin Hnone];
      [apply sort_by_key_sorted| |done|].
    { intros c t n Hc%elem_of_sort_by_key. split; [by eapply candidate_cost_nonneg|].
      rewrite IH. apply opt_cost_nonneg. }
    assert ((match scan cfg (pure_from idx cfg room) inv (active_of inv) todo Inf None
             with (b, Some ps) => (b, ps) | (_, None) => (Inf, []) end).1
            = (scan cfg (pure_from idx cfg room) inv (active_of inv) todo Inf None).1)
      as ->.
    { destruct (scan _ _ _ _ _ _ _) as [b [ps|]]; [done|]. simpl in *.
      by rewrite Hnone. }
    eapply is_min_unique; [|exact Hmin|apply foldl_cost_min_is_min].
    intros x. rewrite !elem_of_cons, !list_elem_of_fmap.
    split; (intros [?|([[c t] n] & -> & Hc)]; [by left|right]);
      exists (c, t, n); (split; [by rewrite IH|]);
      [by apply elem_of_sort_by_key in Hc|by apply elem_of_sort_by_key].
Qed.

End pruning.

(** * Costs are non-negative by construction *)

Section nonneg_costs.
Import Search Invariants Reference.
Local Open Scope Qc_scope.

Lemma Qcmax_ge_l x y : x ≤ Qcmax x y.
Proof. unfold Qcmax. case_decide; [by apply Qclt_le_weak|done]. Qed.

Lemma Z2Qc_nonneg r : (0 ≤ r)%Z → 0 ≤ Z2Qc r.
Proof.
  intros Hr. qc2q. change 0%Q with (inject_Z 0). by rewrite <-Zle_Qle.
Qed.

Lemma cost_formula_nonneg S W m f :
  0 ≤ S → 0 < W → 0 ≤ m → 0 ≤ f → 0 ≤ S / W * (W * m + f).
Proof.
  intros HS HW Hm Hf. apply Qcmult_nonneg_nonneg.
  - unfold Qcdiv. apply Qcmult_nonneg_nonneg; [done|].
    by apply Qclt_le_weak, Qcinv_pos.
  - apply Qcplus_nonneg_nonneg; [|done].
    apply Qcmult_nonneg_nonneg; [by apply Qclt_le_weak|done].
Qed.

Section with_pH.
Variable blend_pH : list Qc → list Z → Qc.

Lemma res_bind_Ok {A B} (m : res A) (f : A → res B) b :
  m ≫= f = Ok b → ∃ a, m = Ok a ∧ f a = Ok b.
Proof. destruct m as [a|]; [|done]. intros. by exists a. Qed.

Lemma div_Ok x y q : div x y = Ok q → y ≠ 0 ∧ q = x / y.
Proof. unfold div. case_decide; [done|]. by intros [= <-]. Qed.

Lemma calc_r_water_nonneg blend cfg rw :
  Gatekeeper.calc_r_water blend cfg = Ok rw → 0 ≤ rw.
Proof.
  unfold Gatekeeper.calc_r_water.
  intros (a & _ & (b & _ & [= <-])%res_bind_Ok)%res_bind_Ok.
  etrans; [|apply Qcmax_ge_l]. apply Qcmax_ge_l.
Qed.

Lemma calc_r_diesel_nonneg blend rw cfg rd :
  Gatekeeper.calc_r_diesel blend rw cfg = Ok rd → 0 ≤ rd.
Proof.
  unfold Gatekeeper.calc_r_diesel.
  intros (a & _ & (b & _ & [= <-])%res_bind_Ok)%res_bind_Ok.
  apply Qcmax_ge_l.
Qed.

Lemma gatekeeper_nonneg blend cfg rw rd rn :
  Gatekeeper.gatekeeper blend cfg = Ok (rw, rd, rn) →
  0 ≤ rw ∧ 0 ≤ rd ∧ rn = Gatekeeper.calc_r_naoh blend cfg.
Proof.
  unfold Gatekeeper.gatekeeper.
  intros (a & Ha & (b & Hb & [= <- <- <-])%res_bind_Ok)%res_bind_Ok.
  split; [by eapply calc_r_water_nonneg|]. split; [by eapply calc_r_diesel_nonneg|done].
Qed.

Lemma evaluate_rates cfg subset subset_streams ratios t :
  evaluate blend_pH cfg (fixed_cost_per_min cfg) subset subset_streams ratios
    = Ok (Some t) →
  0 ≤ PhaseTemplate.r_water t ∧ 0 ≤ PhaseTemplate.r_diesel t ∧
  (0 ≤ SystemConfig.K_ACID_TO_NAOH_VOL cfg → 0 ≤ PhaseTemplate.r_naoh t).
Proof.
  unfold evaluate. case_decide as HpH; [done|].
  destruct (Gatekeeper.gatekeeper _ _) as [[[rw rd] rn]|] eqn:Hg; [|done]. simpl.
  apply gatekeeper_nonneg in Hg as (Hrw & Hrd & ->).
  destruct (Gatekeeper.calc_throughput _ _ _ _) as [W|]; [|done]. simpl.
  case_decide as HW; [done|].
  destruct (div _ W) as [q|]; [|done]. simpl.
  intros [= <-]. simpl. split; [done|]. split; [done|].
  intros HK. unfold Gatekeeper.calc_r_naoh.
  apply Qcmult_nonneg_nonneg; [apply Qcmax_ge_l|done].
Qed.

Lemma precompute_nonneg streams cfg cache idx :
  cfg_nonneg cfg → cache_ok cache (length streams) →
  _precompute_templates blend_pH streams cfg cache = Ok idx →
  ∀ key ts t, (key, ts) ∈ idx → t ∈ ts → 0 ≤ PhaseTemplate.cost_per_batch t.
Proof.
  intros (Hcd & Hcn & Hcw & Hce & Hcl & HP & HK & HWmin) Hcache Hidx key ts t Hin Ht.
  destruct (precompute_index_ok blend_pH streams cfg cache idx Hcache Hidx)
    as (Hwf & Hcosted & _).
  destruct (Hwf key ts t Hin Ht) as [(_ & _ & _ & Hpos & Hsum) _].
  rewrite (Hcosted key ts t Hin Ht).
  unfold _precompute_templates in Hidx.
  apply build_index_entries in Hidx as (_ & _ & Hback).
  destruct (Hback key ts Hin) as (subset & fs & _ & _ & Hfs & _ & ->).
  apply subseteq_take, elem_of_sort_by_key in Ht.
  apply (feasible_templates_elem _ _ _ _ _ _ _ Hfs) in Ht as (ratios & _ & He).
  destruct (evaluate_rates _ _ _ _ _ He) as (Hrw & Hrd & Hrn).
  apply evaluate_Some in He as (_ & _ & _ & _ & _ & HW & _).
  apply cost_formula_nonneg.
  - apply Z2Qc_nonneg. rewrite Hsum. pose proof (sum_ge_length _ Hpos). lia.
  - by eapply Qclt_le_trans.
  - repeat apply Qcplus_nonneg_nonneg; apply Qcmult_nonneg_nonneg; auto.
  - unfold fixed_cost_per_min, Qcdiv. apply Qcmult_nonneg_nonneg; [|done].
    apply Qcplus_nonneg_nonneg; [|done]. by apply Qcmult_nonneg_nonneg.
Qed.

End with_pH.
End nonneg_costs.

(** * The exhaustive optimum is the least cost of a depleting schedule *)

Section optimum.
Import Search Invariants Reference.
Local Open Scope Qc_scope.
Variables (idx : index) (cfg : SystemConfig.t).
Hypothesis idx_wf : index_wf idx.

Lemma candidate_active inv c t n :
  (c, t, n) ∈ candidates idx (active_of inv) → active_of inv ≠ ∅.
Proof.
  intros Hc Hempty.
  pose proof (update_size idx inv c t n idx_wf Hc) as Hlt.
  rewrite Hempty, map_size_empty in Hlt. lia.
Qed.

Lemma schedule_length inv sched :
  schedule_from idx inv sched → (length sched ≤ size (active_of inv))%nat.
Proof.
  induction 1 as [|inv c t n rest Hc _ IH]; simpl; [lia|].
  pose proof (update_size idx inv c t n idx_wf Hc). lia.
Qed.

Lemma opt_lower_bound inv sched room :
  schedule_from idx inv sched → (length sched ≤ room)%nat →
  cost_le (opt_cost idx room inv) (Fin (schedule_cost sched)).
Proof.
  intros Hs. revert room. induction Hs as [inv Hact|inv c t n rest Hc _ IH];
    intros room Hroom.
  - destruct room; simpl; rewrite decide_True by done; done.
  - destruct room as [|room]; [simpl in Hroom; lia|].
    rewrite opt_cost_S, decide_False by by eapply candidate_active.
    destruct (foldl_cost_min_is_min Inf
      ((λ '(c, tmpl, n), cost_add (Fin c)
          (opt_cost idx room (update_inventory inv (active_of inv) tmpl n)))
       <$> candidates idx (active_of inv))) as [_ Hle].
    eapply cost_le_trans.
    + apply Hle. right. apply list_elem_of_fmap. by exists (c, t, n).
    + simpl in Hroom.
      change (Fin (schedule_cost ((c, t, n) :: rest)))
        with (cost_add (Fin c) (Fin (schedule_cost rest))).
      apply cost_add_le_mono, IH. lia.
Qed.

Lemma opt_attained room inv c :
  opt_cost idx room inv = Fin c →
  ∃ sched, schedule_from idx inv sched ∧ schedule_cost sched = c.
Proof.
  revert inv c. induction room as [|room IH]; intros inv c.
  - simpl. case_decide; [|done]. intros [= <-]. exists []. split; [by constructor|done].
  - rewrite opt_cost_S. case_decide.
    { intros [= <-]. exists []. split; [by constructor|done]. }
    destruct (foldl_cost_min_is_min Inf
      ((λ '(c, tmpl, n), cost_add (Fin c)
          (opt_cost idx room (update_inventory inv (active_of inv) tmpl n)))
       <$> candidates idx (active_of inv))) as [Hin _].
    intros Heq. rewrite Heq in Hin.
    apply elem_of_cons in Hin as [?|Hin]; [done|].
    apply list_elem_of_fmap in Hin as ([[c0 t] n] & Hval & Hc).
    destruct (opt_cost idx room _) as [c'|] eqn:Hopt; [|done].
    injection Hval as ->.
    destruct (IH _ _ Hopt) as (rest & Hrest & <-).
    exists ((c0, t, n) :: rest). split; [by constructor|done].
Qed.

End optimum.

Section optimality_theorem.
Import Search Invariants Reference.
Local Open Scope Qc_scope.
Variable blend_pH : list Qc → list Z → Qc.

(** C2, as amended.  With non-negative cost rates, the pruned search
    without memo returns, at every state, the cost of the exhaustive
    search over the same retained templates (pruning never excludes a
    cheaper schedule).  If moreover no two inventories the recursion can
    meet share a memo key with different active quantities, the cost
    returned by the root search is that exhaustive optimum: it is at
    most the total cost of every phase sequence composable from the
    retained templates that depletes the inventory, and when finite it
    is the total cost of one. *)
Theorem pruned_search_is_optimal (streams : list WasteStream.t)
    (cfg : SystemConfig.t) (cache : gmap nat (list (list Z))) (idx : index)
    (r : result) :
  cfg_nonneg cfg →
  build_ratio_cache (seq 1 (length streams)) (SystemConfig.ratio_sum_max cfg)
    = Ok cache →
  _precompute_templates blend_pH streams cfg cache = Ok idx →
  search blend_pH streams cfg = Ok r →
  (∀ room inv, (pure_from idx cfg room inv).1 = opt_cost idx room inv) ∧
  (collision_free idx (inventory streams) →
   r.1 = opt_cost idx (length streams + 1) (inventory streams) ∧
   (∀ sched, schedule_from idx (inventory streams) sched →
             cost_le r.1 (Fin (schedule_cost sched))) ∧
   (∀ c, r.1 = Fin c →
         ∃ sched, schedule_from idx (inventory streams) sched ∧
                  schedule_cost sched = c)).
Proof.
  intros Hcfg Hcache Hidx
    (cache' & idx' & Hc' & Hok & Hi' & Hwf & _ & Hres)%search_unfold.
  assert (cache' = cache) as -> by congruence.
  assert (idx' = idx) as -> by congruence.
  pose proof (precompute_nonneg blend_pH streams cfg cache idx Hcfg Hok Hidx) as Hnn.
  split; [intros; by apply pure_cost_optimal|].
  intros Hfree.
  assert (size (active_of (inventory streams)) < length streams + 1)%nat as Hsize.
  { pose proof (size_active_of (inventory streams)).
    pose proof (size_inventory streams). lia. }
  destruct (search_exact idx cfg (inventory streams) Hwf Hfree
              (length streams + 1) 0 (inventory streams) ∅) as [Hexact _];
    [constructor|done|by intros ?? ?%lookup_empty_Some|].
  rewrite <-Hres in Hexact.
  assert (r.1 = opt_cost idx (length streams + 1) (inventory streams)) as Hopt.
  { rewrite Hexact. rewrite <-(pure_from_pure idx cfg Hwf (length streams + 1)) by done.
    by apply pure_cost_optimal. }
  split; [done|]. rewrite Hopt. split.
  - intros sched Hs. apply opt_lower_bound; [done..|].
    pose proof (schedule_length idx Hwf _ _ Hs). lia.
  - intros c. by apply opt_attained.
Qed.

End optimality_theorem.

(** * What a memo entry stands for *)

Section memo_meaning.
Import Search Invariants Reference.
Local Open Scope Qc_scope.

Lemma memo_hit (idx : index) cfg room inv memo hit :
  active_of inv ≠ ∅ →
  memo !! memo_key (active_of inv) = Some hit →
  _search_from idx cfg (S room) inv memo = (hit, memo).
Proof. intros Hact Hhit. simpl. rewrite decide_False by done. by rewrite Hhit. Qed.

Section with_pH.
Variable blend_pH : list Qc → list Z → Qc.

(** C4, as amended.  [_search] has no accumulated-cost argument; on a
    memo hit it returns the cached pair verbatim and leaves the memo
    alone; its result depends on the inventory only through the active
    part and, with room for the active streams, not on the depth.  When
    no two inventories the recursion can meet share a memo key with
    different active quantities, then within the invocation started at
    the root every call at a reachable inventory returns the pair
    [pure inv], a function of the remaining active inventory alone, and
    every value stored in the memo is that pair for each reachable state
    filed under its key, its cost being the optimal sub-problem cost of
    that state when cost rates are non-negative. *)
Theorem memo_is_path_independent (streams : list WasteStream.t)
    (cfg : SystemConfig.t) (cache : gmap nat (list (list Z))) (idx : index) :
  build_ratio_cache (seq 1 (length streams)) (SystemConfig.ratio_sum_max cfg)
    = Ok cache →
  _precompute_templates blend_pH streams cfg cache = Ok idx →
  let inv0 := inventory streams in
  (∀ room inv memo hit,
     active_of inv ≠ ∅ → memo !! memo_key (active_of inv) = Some hit →
     _search_from idx cfg (S room) inv memo = (hit, memo)) ∧
  (∀ room room' inv inv' memo,
     active_of inv = active_of inv' →
     (size (active_of inv) < room)%nat → (size (active_of inv) < room')%nat →
     _search_from idx cfg room inv memo = _search_from idx cfg room' inv' memo) ∧
  (collision_free idx inv0 →
   (∀ inv inv', active_of inv = active_of inv' → pure idx cfg inv = pure idx cfg inv') ∧
   (∀ d inv room memo,
      reachable idx inv0 d inv → (size (active_of inv) < room)%nat →
      memo_exact idx cfg inv0 memo →
      (_search_from idx cfg room inv memo).1 = pure idx cfg inv ∧
      memo_exact idx cfg inv0 (_search_from idx cfg room inv memo).2) ∧
   memo_exact idx cfg inv0 ∅ ∧
   (∀ key v d s,
      (_search idx cfg (length streams) inv0 0 ∅).2 !! key = Some v →
      reachable idx inv0 d s → memo_key (active_of s) = key →
      v = pure idx cfg s ∧
      (cfg_nonneg cfg → v.1 = opt_cost idx (S (size (active_of s))) s))).
Proof.
  intros Hcache Hidx inv0.
  destruct (build_ratio_cache_ok (length streams) (SystemConfig.ratio_sum_max cfg))
    as (cache' & Hcache' & Hok).
  assert (cache' = cache) as -> by congruence.
  destruct (precompute_index_ok blend_pH streams cfg cache idx Hok Hidx)
    as (Hwf & _ & _).
  split; [intros; by apply memo_hit|]. split.
  { intros room room' inv inv' memo Heq H1 H2.
    rewrite (search_from_ext idx cfg Hwf room inv inv') by done.
    apply search_room_irrelevant; [done|by rewrite <-Heq..]. }
  intros Hfree.
  assert (memo_exact idx cfg inv0 ∅) as Hempty by by intros ?? ?%lookup_empty_Some.
  split; [intros; by apply pure_ext|].
  split; [intros; by eapply search_exact|]. split; [done|].
  intros key v d s Hkv Hs Hkey.
  destruct (search_exact idx cfg inv0 Hwf Hfree (length streams + 1 - 0) 0 inv0 ∅)
    as [_ Hfinal]; [constructor| |done|].
  { pose proof (size_active_of inv0). pose proof (size_inventory streams).
    subst inv0. lia. }
  unfold _search in Hkv. specialize (Hfinal key v Hkv d s Hs Hkey).
  split; [done|]. intros Hnn. rewrite Hfinal. unfold pure.
  apply pure_cost_optimal; [done|].
  by eapply precompute_nonneg.
Qed.

End with_pH.
End memo_meaning.

(** * Deciding collision-freeness on a given input *)

Section collision_check.
Import Search Invariants Reference.
Local Open Scope Qc_scope.

Lemma keys_consistent_sound seen actives :
  keys_consistent seen actives = true →
  ∀ a, a ∈ actives →
    (∀ a', seen !! memo_key a = Some a' → a = a') ∧
    (∀ b, b ∈ actives → memo_key a = memo_key b → a = b).
Proof.
  revert seen. induction actives as [|x rest IH]; intros seen Hcheck a Ha; simpl in *.
  - by apply elem_of_nil in Ha.
  - destruct (seen !! memo_key x) as [x'|] eqn:Hx.
    + apply andb_true_iff in Hcheck as [Hxx Hrest]. apply bool_decide_eq_true in Hxx.
      subst x'. specialize (IH seen Hrest).
      apply elem_of_cons in Ha as [->|Ha].
      * split; [intros a'; rewrite Hx; by intros [= <-]|].
        intros b [->|Hb]%elem_of_cons Hkey; [done|].
        destruct (IH b Hb) as [Hseen _]. symmetry. apply Hseen. by rewrite <-Hkey.
      * destruct (IH a Ha) as [Hseen Hpair]. split; [done|].
        intros b [->|Hb]%elem_of_cons Hkey; [|by apply Hpair].
        apply Hseen. by rewrite Hkey.
    + specialize (IH _ Hcheck).
      apply elem_of_cons in Ha as [->|Ha].
      * split; [intros a'; by rewrite Hx|].
        intros b [->|Hb]%elem_of_cons Hkey; [done|].
        destruct (IH b Hb) as [Hseen _]. symmetry. apply Hseen.
        by rewrite <-Hkey, lookup_insert_eq.
      * destruct (IH a Ha) as [Hseen Hpair]. split.
        -- intros a' Ha'. apply Hseen. rewrite lookup_insert_ne; [done|].
           intros Hkey. by rewrite Hkey, Ha' in Hx.
        -- intros b [->|Hb]%elem_of_cons Hkey; [|by apply Hpair].
           apply Hseen. by rewrite Hkey, lookup_insert_eq.
Qed.

Lemma states_from_head (idx : index) depth inv : inv ∈ states_from idx depth inv.
Proof. destruct depth; left. Qed.

Lemma states_from_step (idx : index) depth inv0 s c t n :
  s ∈ states_from idx depth inv0 →
  (c, t, n) ∈ candidates idx (active_of s) →
  update_inventory s (active_of s) t n ∈ states_from idx (S depth) inv0.
Proof.
  revert inv0. induction depth as [|depth IH]; intros inv0 Hs Hc.
  - apply list_elem_of_singleton in Hs as ->. simpl. right.
    apply list_elem_of_bind. exists (c, t, n). split; [left|done].
  - change (states_from idx (S depth) inv0) with
      (inv0 :: ('(c, t, n) ← candidates idx (active_of inv0);
                states_from idx depth (update_inventory inv0 (active_of inv0) t n)))
      in Hs.
    change (states_from idx (S (S depth)) inv0) with
      (inv0 :: ('(c, t, n) ← candidates idx (active_of inv0);
                states_from idx (S depth)
                  (update_inventory inv0 (active_of inv0) t n))).
    apply elem_of_cons in Hs as [->|Hs].
    + right. apply list_elem_of_bind. exists (c, t, n). split; [|done].
      apply states_from_head.
    + right. apply list_elem_of_bind in Hs as ([[c' t'] n'] & Hs & Hc').
      apply list_elem_of_bind. exists (c', t', n'). split; [|done]. by apply IH.
Qed.

Lemma states_from_mono (idx : index) depth inv0 s :
  s ∈ states_from idx depth inv0 → s ∈ states_from idx (S depth) inv0.
Proof.
  revert inv0. induction depth as [|depth IH]; intros inv0 Hs.
  - apply list_elem_of_singleton in Hs as ->. left.
  - change (states_from idx (S depth) inv0) with
      (inv0 :: ('(c, t, n) ← candidates idx (active_of inv0);
                states_from idx depth (update_inventory inv0 (active_of inv0) t n)))
      in Hs.
    change (states_from idx (S (S depth)) inv0) with
      (inv0 :: ('(c, t, n) ← candidates idx (active_of inv0);
                states_from idx (S depth)
                  (update_inventory inv0 (active_of inv0) t n))).
    apply elem_of_cons in Hs as [->|Hs]; [left|right].
    apply list_elem_of_bind in Hs as ([[c' t'] n'] & Hs & Hc').
    apply list_elem_of_bind. exists (c', t', n'). split; [by apply IH|done].
Qed.

Lemma reachable_states (idx : index) inv0 d s depth :
  reachable idx inv0 d s → (d ≤ depth)%nat → s ∈ states_from idx depth inv0.
Proof.
  intros Hr Hd.
  assert (s ∈ states_from idx d inv0) as Hs.
  { clear Hd. induction Hr as [|d inv c t n _ IH Hc]; [apply states_from_head|].
    by eapply states_from_step. }
  induction Hd as [|depth _ IH]; [done|]. by apply states_from_mono.
Qed.

(** When the check passes, no two reachable inventories collide. *)
Lemma collision_check_sound (idx : index) inv0 :
  index_wf idx → collision_check idx inv0 = true → collision_free idx inv0.
Proof.
  intros Hwf Hcheck d1 s1 d2 s2 H1 H2 Hkey.
  assert (∀ d s, reachable idx inv0 d s →
    active_of s ∈ active_of <$> states_from idx (size (active_of inv0)) inv0) as Hin.
  { intros d s Hs. apply list_elem_of_fmap_2.
    apply (reachable_states idx inv0 d); [done|].
    pose proof (reachable_size idx inv0 d s Hwf Hs). lia. }
  destruct (keys_consistent_sound _ _ Hcheck (active_of s1) (Hin d1 s1 H1))
    as [_ Hpair].
  by apply Hpair; [eapply Hin|].
Qed.

End collision_check.

(** * The theorems at concrete inputs *)

Section samples.
Import Search Invariants Reference Samples.
Local Open Scope Qc_scope.

Lemma cache_2_eq :
  build_ratio_cache (seq 1 (length whole_litres))
    (SystemConfig.ratio_sum_max SystemConfig.defaults) = Ok cache_2.
Proof. vm_compute. reflexivity. Qed.

Lemma whole_litres_index_eq :
  _precompute_templates pH_mean whole_litres SystemConfig.defaults cache_2
  = Ok whole_litres_index.
Proof. vm_compute. reflexivity. Qed.

Lemma whole_litres_index_wf : index_wf whole_litres_index.
Proof.
  destruct (build_ratio_cache_ok (length whole_litres)
              (SystemConfig.ratio_sum_max SystemConfig.defaults)) as (cache & Hc & Hok).
  rewrite cache_2_eq in Hc. injection Hc as <-.
  by destruct (precompute_index_ok pH_mean whole_litres SystemConfig.defaults
                 cache_2 whole_litres_index Hok whole_litres_index_eq).
Qed.

Lemma whole_litres_collision_free :
  collision_free whole_litres_index (inventory whole_litres).
Proof.
  apply collision_check_sound; [apply whole_litres_index_wf|].
  vm_compute. reflexivity.
Qed.

Lemma whole_litres_search_eq :
  ∃ c phases,
    search pH_mean whole_litres SystemConfig.defaults = Ok (Fin c, phases).
Proof. eexists _, _. vm_compute. reflexivity. Qed.

Lemma schedule_depletes_inventory_witness :
  ∃ c phases,
    search pH_mean whole_litres SystemConfig.defaults = Ok (Fin c, phases) ∧
    ∀ sid, sid ∈ dom (inventory whole_litres) →
      ∃ q, remaining phases (inventory whole_litres) !! sid = Some q ∧
           q ≤ _ACTIVE_THRESHOLD_L.
Proof.
  eexists _, _. split; [vm_compute; reflexivity|].
  eapply (schedule_depletes_inventory pH_mean whole_litres SystemConfig.defaults
           cache_2 whole_litres_index).
  - apply cache_2_eq.
  - apply whole_litres_index_eq.
  - apply whole_litres_collision_free.
  - vm_compute. reflexivity.
Defined.

Lemma pruned_search_is_optimal_witness :
  ∃ r,
    search pH_mean whole_litres SystemConfig.defaults = Ok r ∧
    r.1 = opt_cost whole_litres_index (length whole_litres + 1)
            (inventory whole_litres).
Proof.
  eexists. split; [vm_compute; reflexivity|].
  refine (proj1 (proj2 (pruned_search_is_optimal pH_mean whole_litres
            SystemConfig.defaults cache_2 whole_litres_index _ _
            cache_2_eq whole_litres_index_eq _) whole_litres_collision_free)).
  - repeat split; by vm_compute.
  - vm_compute. reflexivity.
Defined.

Lemma memo_is_path_independent_witness :
  ∃ v,
    (_search whole_litres_index SystemConfig.defaults (length whole_litres)
       (inventory whole_litres) 0 ∅).2
      !! memo_key (active_of (inventory whole_litres)) = Some v ∧
    v = pure whole_litres_index SystemConfig.defaults (inventory whole_litres) ∧
    v.1 = opt_cost whole_litres_index
            (S (size (active_of (inventory whole_litres)))) (inventory whole_litres).
Proof.
  assert (∃ v,
    (_search whole_litres_index SystemConfig.defaults (length whole_litres)
       (inventory whole_litres) 0 ∅).2
      !! memo_key (active_of (inventory whole_litres)) = Some v) as [v Hv0]
    by (eexists; vm_compute; reflexivity).
  exists v. split; [exact Hv0|].
  pose proof (memo_is_path_independent pH_mean whole_litres SystemConfig.defaults
                cache_2 whole_litres_index cache_2_eq whole_litres_index_eq)
    as (_ & _ & Hfree).
  destruct (Hfree whole_litres_collision_free) as (_ & _ & _ & Hfinal).
  destruct (Hfinal _ v 0%nat (inventory whole_litres) Hv0) as [Hv Hopt];
    [constructor|reflexivity|].
  split; [exact Hv|]. apply Hopt. repeat split; by vm_compute.
Defined.

Lemma phase_costs_sum_to_total_witness :
  ∃ c phases,
    search pH_mean whole_litres SystemConfig.defaults = Ok (Fin c, phases) ∧
    Qcsum (PhaseResult.cost_total <$> phases) = c.
Proof.
  eexists _, _. split; [vm_compute; reflexivity|].
  eapply proj1.
  eapply (phase_costs_sum_to_total pH_mean whole_litres SystemConfig.defaults).
  vm_compute. reflexivity.
Defined.

Lemma every_phase_depletes_a_stream_witness :
  ∃ r, search pH_mean whole_litres SystemConfig.defaults = Ok r ∧
       (length r.2 ≤ length whole_litres)%nat.
Proof.
  eexists. split; [vm_compute; reflexivity|].
  eapply (proj2 (proj2 (proj2 (proj2
    (every_phase_depletes_a_stream pH_mean whole_litres SystemConfig.defaults
       cache_2 whole_litres_index _ cache_2_eq whole_litres_index_eq))))).
  vm_compute. reflexivity.
  Unshelve.
  intros s Hs. repeat (apply elem_of_cons in Hs as [->|Hs]); [by vm_compute..|].
  by apply elem_of_nil in Hs.
Defined.

End samples.

(** * Inputs on which the memo and the retention quota show *)

Section counterexamples.
Import Search Invariants Reference Samples.
Local Open Scope Qc_scope.

(** C1 as stated fails: for the three streams of 16 L, 19 L and 8 L the
    root search returns a finite cost with three phases, and after
    subtracting their consumption stream "C" still holds 0.9 L, above
    the active threshold.  The last phase was taken from the memo, where
    it had been stored for another inventory with the same key. *)
Lemma three_streams_left_undepleted :
  length three_streams = 3%nat ∧
  Forall (λ s, 0 < WasteStream.quantity_L s) three_streams ∧
  ∃ c phases,
    search pH_mean three_streams SystemConfig.defaults = Ok (Fin c, phases) ∧
    remaining phases (inventory three_streams) !! "C"%string = Some (dec 9 10) ∧
    _ACTIVE_THRESHOLD_L < dec 9 10.
Proof.
  split; [done|]. split; [repeat constructor|].
  eexists _, _. split; [vm_compute; reflexivity|].
  split; [|done]. vm_compute. reflexivity.
Qed.

(** The index of [colliding] is what the pre-computation returns. *)
Lemma colliding_index_eq :
  _precompute_templates pH_mean colliding SystemConfig.defaults cache_2
    = Ok colliding_index.
Proof. vm_compute. reflexivity. Qed.

(** C2 as stated fails: for the streams of 6 L and 4 L the root search
    returns a cost strictly above the exhaustive optimum over the same
    retained templates, which a composable depleting phase sequence
    attains.  The cheaper sequence passes through an inventory whose
    memo key was already taken by another inventory. *)
Lemma colliding_search_is_not_optimal :
  ∃ c phases c' sched,
    search pH_mean colliding SystemConfig.defaults = Ok (Fin c, phases) ∧
    opt_cost colliding_index 3 (inventory colliding) = Fin c' ∧
    schedule_from colliding_index (inventory colliding) sched ∧
    schedule_cost sched = c' ∧
    c' < c.
Proof.
  pose (c' := ltac:(let v := eval vm_compute in
      (match opt_cost colliding_index 3 (inventory colliding) with
       | Fin q => q | Inf => 0 end) in exact v)).
  assert (opt_cost colliding_index 3 (inventory colliding) = Fin c') as Hopt
    by (vm_compute; reflexivity).
  destruct (opt_attained colliding_index 3 (inventory colliding) c' Hopt)
    as (sched & Hsched & Hcost).
  eexists _, _, c', sched. split; [vm_compute; reflexivity|].
  split; [done|]. split; [done|]. split; [done|]. vm_compute. reflexivity.
Qed.

(** C4 as stated fails: in the search of the 6 L and 4 L streams, the
    inventory [s] left by one candidate of the root has a memo key under
    which the finished search holds the pair [v].  Called on [s] with
    that memo, [_search] returns [v]; called on the same [s] with an
    empty memo, it returns a strictly cheaper pair, whose cost is the
    optimal sub-problem cost of [s]. *)
Lemma colliding_memo_is_path_dependent :
  ∃ c t n s memo v c_hit c_opt phases,
    (c, t, n) ∈ candidates colliding_index (active_of (inventory colliding)) ∧
    s = update_inventory (inventory colliding) (active_of (inventory colliding)) t n ∧
    reachable colliding_index (inventory colliding) 1 s ∧
    memo = (_search colliding_index SystemConfig.defaults 2
              (inventory colliding) 0 ∅).2 ∧
    memo !! memo_key (active_of s) = Some v ∧
    _search colliding_index SystemConfig.defaults 2 s 1 memo = (v, memo) ∧
    v.1 = Fin c_hit ∧
    (_search colliding_index SystemConfig.defaults 2 s 1 ∅).1 = (Fin c_opt, phases) ∧
    opt_cost colliding_index 2 s = Fin c_opt ∧
    c_opt < c_hit.
Proof.
  eexists _, _, _, _, _, _, _, _, _.
  split; [apply (list_elem_of_lookup_2 _ 10); vm_compute; reflexivity|].
  split; [reflexivity|].
  split; [eapply (reachable_step _ _ 0); [apply reachable_root|];
          apply (list_elem_of_lookup_2 _ 10); vm_compute; reflexivity|].
  split; [reflexivity|].
  assert (∀ A (x y : A) (P : Prop), x = y → (x = y → P) → x = y ∧ P) as both
    by (intros; split; auto).
  apply both; [vm_compute; reflexivity|]. intros Hhit.
  split.
  { apply (memo_hit _ _ 1); [|exact Hhit].
    intros E. apply (f_equal (λ m, m !! "A"%string)) in E.
    vm_compute in E. discriminate. }
  split; [reflexivity|].
  split; [vm_compute; reflexivity|].
  split; [vm_compute; reflexivity|].
  vm_compute. reflexivity.
Qed.

(** C7 as stated fails: for the streams of 131 L and 157 L, raising the
    diesel price from 1 to 2 $/L and nothing else lowers the total cost
    the search returns.  The dearer diesel reorders the templates of the
    pair, and a ratio that needs no diesel enters the retained thirty. *)
Lemma dearer_diesel_lowers_total :
  ∃ c phases c' phases',
    same_plant SystemConfig.defaults diesel_2 ∧
    SystemConfig.cost_diesel_per_L SystemConfig.defaults
      < SystemConfig.cost_diesel_per_L diesel_2 ∧
    SystemConfig.cost_naoh_per_L SystemConfig.defaults
      = SystemConfig.cost_naoh_per_L diesel_2 ∧
    SystemConfig.cost_water_per_L SystemConfig.defaults
      = SystemConfig.cost_water_per_L diesel_2 ∧
    SystemConfig.cost_electricity_per_kWh SystemConfig.defaults
      = SystemConfig.cost_electricity_per_kWh diesel_2 ∧
    SystemConfig.cost_labor_per_hr SystemConfig.defaults
      = SystemConfig.cost_labor_per_hr diesel_2 ∧
    search pH_mean priced SystemConfig.defaults = Ok (Fin c, phases) ∧
    search pH_mean priced diesel_2 = Ok (Fin c', phases') ∧
    c' < c.
Proof.
  eexists _, _, _, _.
  split; [repeat split|]. do 5 (split; [done|]).
  split; [vm_compute; reflexivity|]. split; [vm_compute; reflexivity|].
  vm_compute. reflexivity.
Qed.

End counterexamples.

(** * Raising cost rates *)

Section dearer_rates.
Import Search Invariants Reference.
Local Open Scope Qc_scope.

Lemma cost_formula_mono S W m m' f f' :
  0 ≤ S → 0 < W → m ≤ m' → f ≤ f' →
  S / W * (W * m + f) ≤ S / W * (W * m' + f').
Proof.
  intros HS HW Hm Hf.
  assert (0 ≤ S / W) as Hq.
  { unfold Qcdiv. apply Qcmult_nonneg_nonneg; [done|].
    apply Qclt_le_weak, Qcinv_pos. done. }
  rewrite !(Qcmult_comm (S / W)). apply Qcmult_le_compat_r; [|done].
  apply Qcplus_le_compat; [|done].
  rewrite !(Qcmult_comm W). apply Qcmult_le_compat_r; [done|].
  by apply Qclt_le_weak.
Qed.

Lemma Qcmult_le_compat_l_nonneg r c c' : 0 ≤ r → c ≤ c' → r * c ≤ r * c'.
Proof.
  intros Hr Hc. rewrite !(Qcmult_comm r). by apply Qcmult_le_compat_r.
Qed.

Lemma gatekeeper_same_plant blend cfg cfg' :
  same_plant cfg cfg' →
  Gatekeeper.gatekeeper blend cfg = Gatekeeper.gatekeeper blend cfg'.
Proof.
  intros (HF & HP & HBd & Heta & HBt & Hsol & HpHm & HpHM & Hsalt & HKF & HKP
          & HKA & Hsum & HW).
  unfold Gatekeeper.gatekeeper, Gatekeeper.calc_r_water, Gatekeeper.calc_r_diesel,
    Gatekeeper.calc_r_naoh.
  by rewrite Hsol, Hsalt, HBt, HBd, Heta, HKF, HKP, HKA.
Qed.

Lemma fixed_cost_mono cfg cfg' :
  same_plant cfg cfg' → costs_le cfg cfg' → 0 ≤ SystemConfig.P_system cfg →
  fixed_cost_per_min cfg ≤ fixed_cost_per_min cfg'.
Proof.
  intros (_ & HP & _) (_ & _ & _ & He & Hl) HP0. unfold fixed_cost_per_min, Qcdiv.
  apply Qcmult_le_compat_r; [|done]. rewrite <-HP.
  apply Qcplus_le_compat; [|done]. by apply Qcmult_le_compat_l_nonneg.
Qed.

Section with_pH.
Variable blend_pH : list Qc → list Z → Qc.

(** Feasibility and the rates of a combination do not depend on the
    cost coefficients. *)
Lemma evaluate_same_plant cfg cfg' fc fc' subset subset_streams ratios t' :
  same_plant cfg cfg' →
  evaluate blend_pH cfg' fc' subset subset_streams ratios = Ok (Some t') →
  ∃ t, evaluate blend_pH cfg fc subset subset_streams ratios = Ok (Some t) ∧
       PhaseTemplate.W t = PhaseTemplate.W t' ∧
       PhaseTemplate.r_water t = PhaseTemplate.r_water t' ∧
       PhaseTemplate.r_diesel t = PhaseTemplate.r_diesel t' ∧
       PhaseTemplate.r_naoh t = PhaseTemplate.r_naoh t'.
Proof.
  intros Hsame. pose proof (gatekeeper_same_plant
    (Blending.calc_blend_properties blend_pH subset_streams ratios) _ _ Hsame) as Hg.
  destruct Hsame as (HF & HP & HBd & Heta & HBt & Hsol & HpHm & HpHM & Hsalt & HKF
          & HKP & HKA & Hsum & HW).
  unfold evaluate, Gatekeeper.calc_throughput. rewrite <-Hg, <-HpHM, <-HW, <-HF.
  case_decide as HpH; [done|].
  destruct (Gatekeeper.gatekeeper _ _) as [[[rw rd] rn]|]; [|done]. simpl.
  destruct (div _ _) as [W|]; [|done]. simpl.
  case_decide as HW'; [done|].
  destruct (div _ W) as [q|]; [|done]. simpl.
  intros [= <-]. eexists. split; [done|]. done.
Qed.

Lemma precompute_index_le streams cfg cfg' cache idx idx' :
  cfg_nonneg cfg → same_plant cfg cfg' → costs_le cfg cfg' →
  cache_ok cache (length streams) →
  _precompute_templates blend_pH streams cfg cache = Ok idx →
  _precompute_templates blend_pH streams cfg' cache = Ok idx' →
  retains_all idx →
  index_le idx idx'.
Proof.
  intros (Hcd & Hcn & Hcw & Hce & Hcl & HP & HK & HWmin) Hsame Hle Hcache
    Hidx Hidx' Hall key ts' t' Hin' Ht'.
  destruct (precompute_index_ok blend_pH streams cfg cache idx Hcache Hidx)
    as (Hwf & _ & _).
  unfold _precompute_templates in Hidx, Hidx'.
  apply build_index_entries in Hidx as (_ & Hfwd & _).
  apply build_index_entries in Hidx' as (_ & _ & Hback).
  destruct (Hback key ts' Hin') as (subset & fs' & Hsub & -> & Hfs' & _ & ->).
  apply subseteq_take, elem_of_sort_by_key in Ht'.
  apply (feasible_templates_elem _ _ _ _ _ _ _ Hfs') in Ht' as (ratios & Hr & He').
  destruct (evaluate_same_plant cfg cfg' (fixed_cost_per_min cfg) _ _ _ _ _ Hsame He')
    as (t & He & HW & Hrw & Hrd & Hrn).
  destruct (Hfwd subset Hsub) as (fs & Hfs & Hentry).
  assert (t ∈ fs) as Ht.
  { apply (feasible_templates_elem _ _ _ _ _ _ _ Hfs). by exists ratios. }
  destruct Hentry as [->|Hentry]; [by apply elem_of_nil in Ht|].
  pose proof (Hall _ _ Hentry) as Hlen.
  assert (take _MAX_TEMPLATES_PER_SUBSET
            (sort_by_key PhaseTemplate.cost_per_batch fs)
          = sort_by_key PhaseTemplate.cost_per_batch fs) as Htake.
  { apply take_ge. rewrite length_take in Hlen. lia. }
  rewrite Htake in Hentry.
  assert (t ∈ sort_by_key PhaseTemplate.cost_per_batch fs) as Hkept
    by by apply elem_of_sort_by_key.
  exists (sort_by_key PhaseTemplate.cost_per_batch fs), t.
  split; [done|]. split; [done|].
  destruct (Hwf _ _ _ Hentry Hkept) as [(_ & _ & _ & Hpos & _) _].
  destruct (evaluate_rates _ _ _ _ _ _ He) as (Hrw0 & Hrd0 & Hrn0).
  apply evaluate_Some in He as (Hids & Hrat & Hsum & Hcost & _ & HWge & _).
  apply evaluate_Some in He' as (Hids' & Hrat' & Hsum' & Hcost' & _ & _ & _).
  split; [congruence|]. split; [congruence|].
  rewrite Hcost, Hcost', <-HW, <-Hrw, <-Hrd, <-Hrn, Hsum, Hsum'.
  destruct Hle as (Hd & Hn & Hw & He & Hl).
  apply cost_formula_mono.
  - apply Z2Qc_nonneg. rewrite Hrat in Hpos. pose proof (sum_ge_length _ Hpos). lia.
  - by eapply Qclt_le_trans.
  - repeat apply Qcplus_le_compat; apply Qcmult_le_compat_l_nonneg; auto.
  - apply fixed_cost_mono; [done| |done]. by repeat split.
Qed.

End with_pH.
End dearer_rates.

Section dearer_index.
Import Search Invariants Reference.
Local Open Scope Qc_scope.
Variables (idx idx' : index).
Hypothesis idx_wf : index_wf idx.
Hypothesis idx_le : index_le idx idx'.

(** Every candidate under [idx'] has a counterpart under [idx] with the
    same batch count and successor inventory, at no greater cost. *)
Lemma candidates_le inv c' t' n :
  (c', t', n) ∈ candidates idx' (active_of inv) →
  ∃ c t, (c, t, n) ∈ candidates idx (active_of inv) ∧ c ≤ c' ∧
         update_inventory inv (active_of inv) t n
         = update_inventory inv (active_of inv) t' n.
Proof.
  intros (key & ts' & Hin' & Hsub & Ht' & Hn & Hc')%elem_of_candidates.
  destruct (idx_le key ts' t' Hin' Ht') as (ts & t & Hin & Ht & Hids & Hrat & Hcost).
  assert (num_batches (active_of inv) t = n) as Hn'
    by (unfold num_batches; by rewrite Hids, Hrat).
  exists (n * PhaseTemplate.cost_per_batch t), t.
  assert ((n * PhaseTemplate.cost_per_batch t, t, n)
            ∈ candidates idx (active_of inv)) as Hcand.
  { apply elem_of_candidates. by exists key, ts. }
  split; [done|]. split.
  - destruct (candidate_inv idx inv _ t n idx_wf Hcand) as (_ & _ & _ & _ & Hpos & _).
    rewrite Hc'. apply Qcmult_le_compat_l_nonneg; [by apply Qclt_le_weak|done].
  - unfold update_inventory. by rewrite Hids, Hrat.
Qed.

Lemma opt_cost_le room inv :
  cost_le (opt_cost idx room inv) (opt_cost idx' room inv).
Proof.
  revert inv. induction room as [|room IH]; intros inv.
  - simpl. case_decide; done.
  - rewrite !opt_cost_S. case_decide; [done|].
    destruct (foldl_cost_min_is_min Inf
      ((λ '(c, tmpl, n), cost_add (Fin c)
          (opt_cost idx' room (update_inventory inv (active_of inv) tmpl n)))
       <$> candidates idx' (active_of inv))) as [Hin' _].
    destruct (foldl_cost_min_is_min Inf
      ((λ '(c, tmpl, n), cost_add (Fin c)
          (opt_cost idx room (update_inventory inv (active_of inv) tmpl n)))
       <$> candidates idx (active_of inv))) as [_ Hmin].
    apply elem_of_cons in Hin' as [->|Hin']; [apply cost_le_Inf|].
    apply list_elem_of_fmap in Hin' as ([[c' t'] n] & -> & Hc').
    destruct (candidates_le inv c' t' n Hc') as (c & t & Hc & Hle & Hupd).
    eapply cost_le_trans.
    { apply Hmin. apply elem_of_cons. right. apply list_elem_of_fmap.
      exists (c, t, n). split; [reflexivity|done]. }
    simpl. rewrite Hupd.
    eapply cost_le_trans; [apply cost_add_le_mono, IH|].
    destruct (opt_cost idx' room _); simpl; [|done].
    by apply Qcplus_le_compat.
Qed.

Lemma reachable_le inv0 d s :
  reachable idx' inv0 d s → reachable idx inv0 d s.
Proof.
  induction 1 as [|d inv c' t' n _ IH Hc']; [constructor|].
  destruct (candidates_le inv c' t' n Hc') as (c & t & Hc & _ & <-).
  by econstructor.
Qed.

Lemma collision_free_le inv0 :
  collision_free idx inv0 → collision_free idx' inv0.
Proof.
  intros Hfree d1 s1 d2 s2 H1 H2. apply (Hfree d1 s1 d2 s2); by apply reachable_le.
Qed.

End dearer_index.

Section dearer_search.
Import Search Invariants Reference Samples.
Local Open Scope Qc_scope.

Lemma cfg_nonneg_le cfg cfg' :
  cfg_nonneg cfg → same_plant cfg cfg' → costs_le cfg cfg' → cfg_nonneg cfg'.
Proof.
  intros (Hcd & Hcn & Hcw & Hce & Hcl & HP & HK & HW)
    (_ & HP' & _ & _ & _ & _ & _ & _ & _ & _ & _ & HK' & _ & HW')
    (Hd & Hn & Hw & He & Hl).
  unfold cfg_nonneg. rewrite <-HP', <-HK', <-HW'.
  split; [exact (Qcle_trans _ _ _ Hcd Hd)|].
  split; [exact (Qcle_trans _ _ _ Hcn Hn)|].
  split; [exact (Qcle_trans _ _ _ Hcw Hw)|].
  split; [exact (Qcle_trans _ _ _ Hce He)|].
  split; [exact (Qcle_trans _ _ _ Hcl Hl)|done].
Qed.

Section with_pH.
Variable blend_pH : list Qc → list Z → Qc.

(** The cost of the root search is the exhaustive optimum when memo
    keys do not collide. *)
Lemma search_cost_opt streams cfg cache idx r :
  cfg_nonneg cfg → cache_ok cache (length streams) →
  _precompute_templates blend_pH streams cfg cache = Ok idx →
  index_wf idx → collision_free idx (inventory streams) →
  r = (_search_from idx cfg (length streams + 1) (inventory streams) ∅).1 →
  r.1 = opt_cost idx (length streams + 1) (inventory streams).
Proof.
  intros Hcfg Hok Hidx Hwf Hfree Hres.
  pose proof (precompute_nonneg blend_pH streams cfg cache idx Hcfg Hok Hidx) as Hnn.
  assert (size (active_of (inventory streams)) < length streams + 1)%nat as Hsize.
  { pose proof (size_active_of (inventory streams)).
    pose proof (size_inventory streams). lia. }
  destruct (search_exact idx cfg (inventory streams) Hwf Hfree
              (length streams + 1) 0 (inventory streams) ∅) as [Hexact _];
    [constructor|done|by intros ?? ?%lookup_empty_Some|].
  rewrite <-Hres in Hexact. rewrite Hexact.
  rewrite <-(pure_from_pure idx cfg Hwf (length streams + 1)) by done.
  by apply pure_cost_optimal.
Qed.

(** C7, as amended.  Let [cfg'] differ from [cfg] only in cost rates,
    none of them lower (raising a single coefficient is a special
    case), with the rates and reactor constants of [cfg] non-negative.
    If under [cfg] every subset holds fewer templates than the
    retention quota, so that no feasible template was dropped, and no
    two inventories the recursion can meet share a memo key with
    different active quantities, then the total cost the search returns
    under [cfg'] is not below the one it returns under [cfg]. *)
Theorem dearer_rates_cost_no_less (streams : list WasteStream.t)
    (cfg cfg' : SystemConfig.t) (cache : gmap nat (list (list Z)))
    (idx : index) (r r' : result) :
  cfg_nonneg cfg → same_plant cfg cfg' → costs_le cfg cfg' →
  build_ratio_cache (seq 1 (length streams)) (SystemConfig.ratio_sum_max cfg)
    = Ok cache →
  _precompute_templates blend_pH streams cfg cache = Ok idx →
  retains_all idx →
  collision_free idx (inventory streams) →
  search blend_pH streams cfg = Ok r →
  search blend_pH streams cfg' = Ok r' →
  cost_le r.1 r'.1.
Proof.
  intros Hcfg Hsame Hle Hcache Hidx Hall Hfree
    (cache1 & idx1 & Hc1 & Hok & Hi1 & Hwf & _ & Hres)%search_unfold
    (cache2 & idx' & Hc2 & _ & Hidx' & Hwf' & _ & Hres')%search_unfold.
  assert (cache1 = cache) as -> by congruence.
  assert (idx1 = idx) as -> by congruence.
  assert (cache2 = cache) as ->.
  { destruct Hsame as (_ & _ & _ & _ & _ & _ & _ & _ & _ & _ & _ & _ & Hsum & _).
    rewrite <-Hsum in Hc2. congruence. }
  pose proof (precompute_index_le blend_pH streams cfg cfg' cache idx idx'
                Hcfg Hsame Hle Hok Hidx Hidx' Hall) as Hile.
  rewrite (search_cost_opt streams cfg cache idx r) by done.
  rewrite (search_cost_opt streams cfg' cache idx' r');
    [by apply opt_cost_le|by eapply cfg_nonneg_le|done..| |done].
  exact (collision_free_le idx idx' Hwf Hile _ Hfree).
Qed.

End with_pH.

Lemma sum_5_index_eq :
  _precompute_templates pH_mean whole_litres sum_5 cache_2_sum_5 = Ok sum_5_index.
Proof. vm_compute. reflexivity. Qed.

Lemma sum_5_collision_free : collision_free sum_5_index (inventory whole_litres).
Proof.
  apply collision_check_sound; [|vm_compute; reflexivity].
  destruct (precompute_index_ok pH_mean whole_litres sum_5 cache_2_sum_5 sum_5_index)
    as (Hwf & _); [|apply sum_5_index_eq|done].
  destruct (build_ratio_cache_ok 2 5) as (cache & Hc & Hok).
  assert (cache = cache_2_sum_5) as <-; [|done].
  unfold cache_2_sum_5. change (length whole_litres) with 2%nat in *.
  by rewrite Hc.
Qed.

Lemma sum_5_retains_all : retains_all sum_5_index.
Proof.
  intros key ts Hin.
  assert (Forall (λ e : gset string * list PhaseTemplate.t,
            (length e.2 < _MAX_TEMPLATES_PER_SUBSET)%nat) sum_5_index) as HF.
  { apply (bool_decide_unpack _). vm_compute. exact I. }
  rewrite Forall_forall in HF. exact (HF (key, ts) Hin).
Qed.

Lemma dearer_rates_cost_no_less_witness :
  ∃ r r',
    search pH_mean whole_litres sum_5 = Ok r ∧
    search pH_mean whole_litres sum_5_diesel_2 = Ok r' ∧
    SystemConfig.cost_diesel_per_L sum_5
      < SystemConfig.cost_diesel_per_L sum_5_diesel_2 ∧
    cost_le r.1 r'.1.
Proof.
  eexists _, _. split; [vm_compute; reflexivity|].
  split; [vm_compute; reflexivity|]. split; [done|].
  eapply (dearer_rates_cost_no_less pH_mean whole_litres sum_5 sum_5_diesel_2
            cache_2_sum_5 sum_5_index).
  - repeat split; by vm_compute.
  - repeat split.
  - repeat split; by vm_compute.
  - vm_compute. reflexivity.
  - apply sum_5_index_eq.
  - apply sum_5_retains_all.
  - apply sum_5_collision_free.
  - vm_compute. reflexivity.
  - vm_compute. reflexivity.
Defined.

End dearer_search.

Section retention_sample.
Import Search Samples.
Local Open Scope Qc_scope.

Lemma precompute_keeps_cheapest_witness :
  ∃ kept dropped,
    _precompute_templates pH_mean whole_litres SystemConfig.defaults cache_2
      = Ok whole_litres_index ∧
    (list_to_set ["A"; "B"], kept) ∈ whole_litres_index ∧
    length kept = 30%nat ∧ length dropped = 11%nat ∧
    TemplateBuilder.view <$> kept ++ dropped
    ≡ₚ TemplateBuilder.feasible_combinations pH_mean SystemConfig.defaults
         whole_litres cache_2 ["A"; "B"] ∧
    ∀ a b, a ∈ kept → b ∈ dropped →
           PhaseTemplate.cost_per_batch a ≤ PhaseTemplate.cost_per_batch b.
Proof.
  pose proof (precompute_keeps_cheapest pH_mean whole_litres SystemConfig.defaults
                cache_2 whole_litres_index whole_litres_index_eq) as (_ & _ & H).
  specialize (H ["A"; "B"]%string).
  assert (length (TemplateBuilder.feasible_combinations pH_mean
                    SystemConfig.defaults whole_litres cache_2 ["A"; "B"]%string)
          = 41%nat) as Hn by (vm_compute; reflexivity).
  destruct (TemplateBuilder.feasible_combinations pH_mean
              SystemConfig.defaults whole_litres cache_2
              ["A"; "B"]%string) as [|v vs]; [discriminate Hn|].
  destruct H as (kept & dropped & Hin & _ & Hlen & Hperm & _ & Hle).
  - done.
  - replace (all_ids whole_litres) with ["A"; "B"]%string by (vm_compute; reflexivity).
    done.
  - exists kept, dropped. split; [exact whole_litres_index_eq|].
    split; [exact Hin|]. rewrite Hn in Hlen. split; [exact Hlen|].
    split; [|split; [exact Hperm|exact Hle]].
    apply Permutation_length in Hperm.
    rewrite length_fmap, length_app, Hn, Hlen in Hperm.
    unfold _MAX_TEMPLATES_PER_SUBSET in Hperm. simpl in Hperm. lia.
Defined.

End retention_sample.

(** * Ratio enumeration at its edges *)

Section ratio_edges.
Import Ratios RatioStats.
Local Open Scope Z_scope.

Lemma product_nil k : (1 ≤ k)%nat → product [] k = [].
Proof. destruct k; [lia|done]. Qed.

Lemma generate_ratios_below n max_sum :
  (2 ≤ n)%nat → max_sum < Z.of_nat n → generate_ratios n max_sum = Ok [].
Proof.
  intros Hn Hlt. unfold generate_ratios. rewrite decide_False by lia.
  assert (seqZ 1 (max_sum - Z.of_nat n + 1) = []) as ->.
  { unfold seqZ. replace (Z.to_nat (max_sum - Z.of_nat n + 1)) with 0%nat by lia. done. }
  rewrite product_nil by lia. done.
Qed.

Lemma generate_ratios_Ok n max_sum :
  (1 ≤ n)%nat → ∃ l, generate_ratios n max_sum = Ok l.
Proof.
  intros Hn. destruct (generate_ratios_shape n max_sum Hn) as (l & Hl & _). by exists l.
Qed.

(** [generate_ratios] raises for no stream count but 0, where
    [reduce(gcd, ())] is a [TypeError] unless the sum test skips the
    empty tuple first. *)
Theorem generate_ratios_raises_only_at_0 :
  (∀ n max_sum, (1 ≤ n)%nat → ∃ l, generate_ratios n max_sum = Ok l) ∧
  (∀ max_sum, 0 ≤ max_sum → generate_ratios 0 max_sum = Raise TypeError) ∧
  (∀ max_sum, max_sum < 0 → generate_ratios 0 max_sum = Ok []).
Proof.
  split; [apply generate_ratios_Ok|]. split.
  - intros m Hm. unfold generate_ratios. simpl. rewrite decide_False by (simpl; lia). done.
  - intros m Hm. unfold generate_ratios. simpl. rewrite decide_True by (simpl; lia). done.
Qed.

Lemma ones_valid n max_sum :
  (1 ≤ n)%nat → Z.of_nat n ≤ max_sum → valid_ratio n max_sum (replicate n 1).
Proof.
  intros Hn Hmax. unfold valid_ratio. rewrite length_replicate. split; [done|].
  split; [apply Forall_replicate; lia|].
  assert (sum (replicate n 1) = Z.of_nat n) as ->.
  { clear. induction n as [|n IH]; [done|]. simpl replicate. unfold sum in *. simpl. lia. }
  split; [done|].
  destruct n as [|n]; [lia|]. simpl. apply Z.gcd_1_l.
Qed.

Lemma generate_ratios_bound_edges_aux n max_sum l :
  generate_ratios n max_sum = Ok l → (2 ≤ n)%nat →
  (l = [] ↔ max_sum < Z.of_nat n) ∧ (Z.of_nat n ≤ max_sum → replicate n 1 ∈ l).
Proof.
  intros Hl Hn. destruct (decide (max_sum < Z.of_nat n)) as [Hlt|Hge].
  - rewrite generate_ratios_below in Hl by done. injection Hl as <-.
    split; [done|lia].
  - destruct (generate_ratios_elems n max_sum) as (l' & Hl' & _ & Hiff); [lia..|].
    assert (l' = l) as -> by congruence.
    assert (replicate n 1 ∈ l) as Hin by (apply Hiff, ones_valid; lia).
    split; [|done]. split; [|lia]. intros ->. by apply elem_of_nil in Hin.
Qed.

(** For one stream the result is [(1,)] whatever the bound, even a
    bound below 1; for two or more streams the result is empty exactly
    when the bound is below the stream count, and otherwise holds the
    all-ones vector. *)
Theorem generate_ratios_bound_edges (n : nat) (max_sum : Z) (l : list (list Z)) :
  generate_ratios n max_sum = Ok l →
  (n = 1%nat → l = [[1]]) ∧
  ((2 ≤ n)%nat → (l = [] ↔ max_sum < Z.of_nat n) ∧
                 (Z.of_nat n ≤ max_sum → replicate n 1 ∈ l)).
Proof.
  intros Hl. split.
  - intros ->. unfold generate_ratios in Hl. rewrite decide_True in Hl by done. congruence.
  - intros Hn. by apply generate_ratios_bound_edges_aux.
Qed.

Lemma generate_ratios_bound_edges_witness :
  ∃ l, generate_ratios 3 5 = Ok l ∧ l ≠ [] ∧ [1; 1; 1] ∈ l.
Proof.
  destruct (generate_ratios_Ok 3 5) as [l Hl]; [lia|]. exists l. split; [done|].
  destruct (generate_ratios_bound_edges 3 5 l Hl) as [_ H].
  destruct H as [Hiff Hin]; [lia|]. split; [|apply Hin; lia].
  intros Hnil%Hiff. lia.
Defined.

Lemma generate_ratios_0 max_sum l : generate_ratios 0 max_sum = Ok l → l = [].
Proof.
  unfold generate_ratios. simpl. destruct (decide (max_sum < 0)).
  - rewrite decide_True by (simpl; lia). by intros [= <-].
  - rewrite decide_False by (simpl; lia). done.
Qed.

Lemma sum_Permutation v v' : v ≡ₚ v' → sum v = sum v'.
Proof. unfold sum. induction 1; simpl; lia. Qed.

Lemma list_gcd_nonneg v : 0 ≤ list_gcd v.
Proof. destruct v; simpl; [lia|apply Z.gcd_nonneg]. Qed.

Lemma list_gcd_Permutation v v' : v ≡ₚ v' → list_gcd v = list_gcd v'.
Proof.
  intros Hp. apply Z.divide_antisym_nonneg; try apply list_gcd_nonneg.
  - apply list_gcd_greatest. intros x Hx. apply list_gcd_divides. by rewrite Hp.
  - apply list_gcd_greatest. intros x Hx. apply list_gcd_divides. by rewrite <-Hp.
Qed.

Lemma valid_ratio_Permutation n max_sum v v' :
  v ≡ₚ v' → valid_ratio n max_sum v → valid_ratio n max_sum v'.
Proof.
  intros Hp (Hl & Hpos & Hs & Hg). unfold valid_ratio.
  rewrite <-(sum_Permutation _ _ Hp), <-(list_gcd_Permutation _ _ Hp).
  split; [by rewrite <-(Permutation_length Hp)|]. split; [|done].
  by eapply Forall_Permutation.
Qed.

(** The enumeration is closed under reordering the parts: with a ratio
    vector it returns every rearrangement of it. *)
Theorem generate_ratios_symmetric (n : nat) (max_sum : Z) (l : list (list Z))
    (v v' : list Z) :
  generate_ratios n max_sum = Ok l → v ∈ l → v ≡ₚ v' → v' ∈ l.
Proof.
  intros Hl Hv Hp. destruct (decide (n = 0%nat)) as [->|Hn0].
  { apply generate_ratios_0 in Hl as ->. by apply elem_of_nil in Hv. }
  destruct (decide (n = 1%nat)) as [->|Hn1].
  { unfold generate_ratios in Hl. rewrite decide_True in Hl by done. injection Hl as <-.
    apply list_elem_of_singleton in Hv as ->.
    apply Permutation_singleton_l in Hp as ->. left. }
  destruct (decide (max_sum < Z.of_nat n)) as [Hlt|Hge].
  { rewrite generate_ratios_below in Hl by lia. injection Hl as <-.
    by apply elem_of_nil in Hv. }
  destruct (generate_ratios_elems n max_sum) as (l' & Hl' & _ & Hiff); [lia..|].
  assert (l' = l) as -> by congruence.
  apply Hiff. eapply valid_ratio_Permutation; [done|]. by apply Hiff.
Qed.

Lemma generate_ratios_symmetric_witness :
  ∃ l, generate_ratios 3 6 = Ok l ∧ [1; 2; 3] ∈ l ∧ [3; 1; 2] ∈ l.
Proof.
  destruct (generate_ratios_Ok 3 6) as [l Hl]; [lia|]. exists l. split; [done|].
  assert ([1; 2; 3] ∈ l) as Hin.
  { revert Hl. vm_compute. intros [= <-]. repeat (first [left|right]). }
  split; [done|].
  apply (generate_ratios_symmetric 3 6 l [1; 2; 3] [3; 1; 2] Hl Hin).
  symmetry. apply (Permutation_cons_append [1; 2] 3).
Defined.

Lemma generate_ratios_subseteq n max_sum max_sum' l l' :
  max_sum ≤ max_sum' →
  generate_ratios n max_sum = Ok l → generate_ratios n max_sum' = Ok l' →
  l ⊆ l'.
Proof.
  intros Hle Hl Hl' v Hv. destruct (decide (n = 0%nat)) as [->|Hn0].
  { apply generate_ratios_0 in Hl as ->. by apply elem_of_nil in Hv. }
  destruct (decide (n = 1%nat)) as [->|Hn1].
  { unfold generate_ratios in Hl, Hl'. rewrite decide_True in Hl, Hl' by done. congruence. }
  destruct (decide (max_sum < Z.of_nat n)) as [Hlt|Hge].
  { rewrite generate_ratios_below in Hl by lia. injection Hl as <-.
    by apply elem_of_nil in Hv. }
  destruct (generate_ratios_elems n max_sum) as (l1 & Hl1 & _ & Hiff); [lia..|].
  destruct (generate_ratios_elems n max_sum') as (l2 & Hl2 & _ & Hiff'); [lia..|].
  assert (l1 = l) as -> by congruence. assert (l2 = l') as -> by congruence.
  apply Hiff'. apply Hiff in Hv as (? & ? & ? & ?). repeat split; [done..|lia|done].
Qed.

Lemma generate_ratios_NoDup n max_sum l :
  generate_ratios n max_sum = Ok l → NoDup l.
Proof.
  intros Hl. destruct (decide (n = 0%nat)) as [->|Hn0].
  { apply generate_ratios_0 in Hl as ->. constructor. }
  destruct (decide (n = 1%nat)) as [->|Hn1].
  { unfold generate_ratios in Hl. rewrite decide_True in Hl by done. injection Hl as <-.
    apply NoDup_singleton. }
  destruct (decide (max_sum < Z.of_nat n)) as [Hlt|Hge].
  { rewrite generate_ratios_below in Hl by lia. injection Hl as <-. constructor. }
  destruct (generate_ratios_elems n max_sum) as (l' & Hl' & Hnd & _); [lia..|].
  congruence.
Qed.

(** Raising the bound only adds ratio vectors: every vector returned for
    [max_sum] is returned for any larger bound, and the vectors returned
    for the smaller bound are those of the larger one whose sum fits. *)
Theorem generate_ratios_monotone (n : nat) (max_sum max_sum' : Z)
    (l l' : list (list Z)) :
  (2 ≤ n)%nat → max_sum ≤ max_sum' →
  generate_ratios n max_sum = Ok l → generate_ratios n max_sum' = Ok l' →
  (∀ v, v ∈ l ↔ v ∈ l' ∧ sum v ≤ max_sum) ∧ (length l ≤ length l')%nat.
Proof.
  intros Hn Hle Hl Hl'.
  pose proof (generate_ratios_subseteq n max_sum max_sum' l l' Hle Hl Hl') as Hsub.
  split.
  - intros v. split.
    + intros Hv. split; [by apply Hsub|].
      destruct (decide (max_sum < Z.of_nat n)) as [Hlt|Hge].
      { rewrite generate_ratios_below in Hl by lia. injection Hl as <-.
        by apply elem_of_nil in Hv. }
      destruct (generate_ratios_elems n max_sum) as (l1 & Hl1 & _ & Hiff); [lia..|].
      assert (l1 = l) as -> by congruence. by apply Hiff in Hv as (? & ? & ? & ?).
    + intros [Hv Hs].
      destruct (generate_ratios_elems n max_sum') as (l2 & Hl2 & _ & Hiff'); [lia|..].
      { destruct (decide (max_sum' < Z.of_nat n)) as [Hlt|Hge]; [|lia].
        rewrite generate_ratios_below in Hl' by lia. injection Hl' as <-.
        by apply elem_of_nil in Hv. }
      assert (l2 = l') as -> by congruence.
      apply Hiff' in Hv as (Hlen & Hpos & _ & Hg).
      destruct (generate_ratios_elems n max_sum) as (l1 & Hl1 & _ & Hiff); [lia|..].
      { pose proof (sum_ge_length v Hpos). lia. }
      assert (l1 = l) as -> by congruence. by apply Hiff.
  - apply submseteq_length, NoDup_submseteq; [|done].
    by eapply generate_ratios_NoDup.
Qed.

Lemma generate_ratios_monotone_witness :
  ∃ l l', generate_ratios 2 4 = Ok l ∧ generate_ratios 2 11 = Ok l' ∧
          (length l ≤ length l')%nat.
Proof.
  eexists _, _. split; [vm_compute; reflexivity|]. split; [vm_compute; reflexivity|].
  eapply proj2. eapply (generate_ratios_monotone 2 4 11); [lia|lia|..];
    vm_compute; reflexivity.
Defined.

End ratio_edges.

(** * Ratio statistics *)

Section ratio_stats_facts.
Import Ratios RatioStats.
Local Open Scope Z_scope.

Lemma ratio_stats_loop_spec sizes max_sum stats :
  Forall (λ n, (1 ≤ n)%nat) sizes → NoDup sizes →
  ∃ stats', ratio_stats_loop sizes max_sum stats = Ok stats' ∧
    ∀ n, stats' !! n =
      if decide (n ∈ sizes)
      then match generate_ratios n max_sum with
           | Ok l => Some (length l)
           | Raise _ => None
           end
      else stats !! n.
Proof.
  revert stats. induction sizes as [|k sizes IH]; intros stats Hpos Hnd.
  { exists stats. split; [done|]. intros n.
    destruct (decide (n ∈ [])) as [H%elem_of_nil|]; done. }
  simpl.
  apply Forall_cons in Hpos as [Hk Hpos]. apply NoDup_cons in Hnd as [Hnotin Hnd].
  destruct (generate_ratios_Ok k max_sum Hk) as [l Hl]. rewrite Hl. simpl.
  destruct (IH (<[k := length l]> stats) Hpos Hnd) as (stats' & Hs & Hlook).
  exists stats'. split; [done|]. intros n. rewrite Hlook.
  destruct (decide (n = k)) as [->|Hne].
  - rewrite (decide_False (P := k ∈ sizes)) by done.
    rewrite (decide_True (P := k ∈ k :: sizes)) by left.
    by rewrite Hl, lookup_insert_eq.
  - destruct (decide (n ∈ sizes)) as [Hin|Hout].
    + by rewrite (decide_True (P := n ∈ k :: sizes)) by by right.
    + rewrite (decide_False (P := n ∈ k :: sizes))
        by (intros [->|?]%elem_of_cons; done).
      by rewrite lookup_insert_ne.
Qed.

(** [ratio_stats] never raises; it has an entry exactly for the stream
    counts 1 to [max_streams], each entry counting the ratio vectors
    [generate_ratios] returns for that count; the entry for one stream
    is 1, and an entry for two or more streams is 0 exactly when
    [max_sum] is below the stream count. *)
Theorem ratio_stats_counts (max_streams max_sum : Z) :
  ∃ stats, ratio_stats max_streams max_sum = Ok stats ∧
    (∀ n, is_Some (stats !! n) ↔ 1 ≤ Z.of_nat n ≤ max_streams) ∧
    (∀ n c, stats !! n = Some c →
       ∃ l, generate_ratios n max_sum = Ok l ∧ c = length l) ∧
    (1 ≤ max_streams → stats !! 1%nat = Some 1%nat) ∧
    (∀ n, (2 ≤ n)%nat → Z.of_nat n ≤ max_streams →
       (stats !! n = Some 0%nat ↔ max_sum < Z.of_nat n)).
Proof.
  unfold ratio_stats.
  destruct (ratio_stats_loop_spec (seq 1 (Z.to_nat max_streams)) max_sum ∅)
    as (stats & Hs & Hlook).
  { apply Forall_forall. intros n Hn%elem_of_seq. lia. }
  { apply NoDup_seq. }
  exists stats. split; [done|].
  assert (∀ n, n ∈ seq 1 (Z.to_nat max_streams) ↔ 1 ≤ Z.of_nat n ≤ max_streams) as Hseq.
  { intros n. rewrite elem_of_seq. lia. }
  assert (∀ n, 1 ≤ Z.of_nat n ≤ max_streams →
    ∃ l, generate_ratios n max_sum = Ok l ∧ stats !! n = Some (length l)) as Hin.
  { intros n Hn. destruct (generate_ratios_Ok n max_sum) as [l Hl]; [lia|].
    exists l. split; [done|]. rewrite Hlook, decide_True by by apply Hseq.
    by rewrite Hl. }
  split; [|split; [|split]].
  - intros n. split.
    + intros [c Hc]. rewrite Hlook in Hc. case_decide as Hd; [by apply Hseq|].
      by rewrite lookup_empty in Hc.
    + intros Hn. destruct (Hin n Hn) as (l & _ & ->). by eexists.
  - intros n c Hc. assert (1 ≤ Z.of_nat n ≤ max_streams) as Hn.
    { rewrite Hlook in Hc. case_decide as Hd; [by apply Hseq|].
      by rewrite lookup_empty in Hc. }
    destruct (Hin n Hn) as (l & Hl & Hl'). exists l. split; [done|]. congruence.
  - intros Hm. destruct (Hin 1%nat) as (l & Hl & ->); [lia|].
    unfold generate_ratios in Hl. rewrite decide_True in Hl by done. by injection Hl as <-.
  - intros n Hn Hm. destruct (Hin n) as (l & Hl & ->); [lia|].
    destruct (generate_ratios_bound_edges_aux n max_sum l Hl Hn) as [Hiff _].
    rewrite <-Hiff. split; [intros [= Hlen]; by apply nil_length_inv|by intros ->].
Qed.

End ratio_stats_facts.

(** * Linear blending *)

Section blend_linear_facts.
Import Blending.
Local Open Scope Qc_scope.

Lemma Z2Qc_inj a b : Z2Qc a = Z2Qc b → a = b.
Proof. intros H. qc2q. by apply inject_Z_injective. Qed.

Lemma Qcsum_nil : Qcsum [] = 0.
Proof. done. Qed.

(** Lists of different lengths are no error: values beyond the last
    ratio part are ignored, and a ratio part without value weighs in the
    total as if its value were 0.  A zero total gives 0. *)
Theorem blend_linear_mismatch (values extra : list Qc) (ratios more : list Z) :
  length values = length ratios →
  blend_linear (values ++ extra) ratios = blend_linear values ratios ∧
  blend_linear values (ratios ++ more)
  = blend_linear (values ++ replicate (length more) 0) (ratios ++ more) ∧
  (Ratios.sum ratios = 0%Z → blend_linear values ratios = 0).
Proof.
  intros Hlen. split; [|split].
  - unfold blend_linear. case_decide as Hd; [done|]. clear Hd. f_equal. f_equal.
    revert ratios Hlen. induction values as [|v vs IH]; intros [|r rs] Hlen;
      try done; [by destruct extra|].
    cbn [app zip_with]. f_equal. apply IH. by injection Hlen.
  - unfold blend_linear. case_decide as Hd; [done|]. clear Hd. f_equal.
    revert ratios Hlen. induction values as [|v vs IH]; intros [|r rs] Hlen;
      try done.
    + clear. cbn [app zip_with]. induction more as [|m ms IH]; [done|].
      cbn [length replicate zip_with]. rewrite Qcsum_cons, <-IH, Qcsum_nil. ring.
    + cbn [app zip_with]. rewrite !Qcsum_cons. f_equal. apply IH. by injection Hlen.
  - intros H0. unfold blend_linear. by rewrite decide_True.
Qed.

Lemma blend_linear_mismatch_witness :
  blend_linear [dec 100 1; dec 200 1; dec 999 1] [1; 3]%Z
  = blend_linear [dec 100 1; dec 200 1] [1; 3]%Z.
Proof.
  apply (blend_linear_mismatch [dec 100 1; dec 200 1] [dec 999 1] [1; 3]%Z []). done.
Defined.

End blend_linear_facts.

(** * The gatekeeper's rates *)

Section gatekeeper_facts.
Import Gatekeeper SystemConfig.
Local Open Scope Qc_scope.

Lemma Qcmax_ge_r x y : y ≤ Qcmax x y.
Proof. unfold Qcmax. case_decide; [done|]. by apply Qcnot_lt_le. Qed.

Lemma Qcmax_lub x y z : x ≤ z → y ≤ z → Qcmax x y ≤ z.
Proof. unfold Qcmax. by case_decide. Qed.


Lemma Qcpos_ne_0 d : 0 < d → d ≠ 0.
Proof. intros Hd ->. by apply (irreflexivity Qclt) in Hd. Qed.

Lemma Qcdiv_le_iff x d y : 0 < d → x / d ≤ y ↔ x ≤ y * d.
Proof.
  intros Hd. pose proof (Qcpos_ne_0 d Hd) as Hd0.
  assert (0 < / d) as Hinv by by apply Qcinv_pos.
  split; intros H.
  - replace x with (x / d * d) by (field; done).
    apply Qcmult_le_compat_r; [done|by apply Qclt_le_weak].
  - replace y with (y * d / d) by (field; done).
    unfold Qcdiv. apply Qcmult_le_compat_r; [done|by apply Qclt_le_weak].
Qed.

Lemma one_plus_pos w : 0 ≤ w → 0 < 1 + w.
Proof. intros. qc_lra. Qed.

Lemma Qcmax_0_nonneg x : 0 ≤ Qcmax 0 x.
Proof. apply Qcmax_ge_l. Qed.

(** What one limit asks of the water rate: [max(0, x / limit - 1)] is
    the least non-negative rate [w] with [x / (1 + w) <= limit]. *)
Lemma dilution_rate x limit w :
  0 < limit → 0 ≤ w →
  x / (1 + w) ≤ limit ↔ Qcmax 0 (x / limit - 1) ≤ w.
Proof.
  intros Hl Hw. rewrite (Qcdiv_le_iff x (1 + w) limit) by by apply one_plus_pos.
  split.
  - intros H. apply Qcmax_lub; [done|].
    assert (x / limit ≤ 1 + w) as H'.
    { apply Qcdiv_le_iff; [done|]. by rewrite Qcmult_comm. }
    qc_lra.
  - intros H. pose proof (Qcmax_ge_r 0 (x / limit - 1)) as H1.
    assert (x / limit ≤ 1 + w) as H'.
    { revert H H1. generalize (Qcmax 0 (x / limit - 1)). intros m H H1. qc_lra. }
    apply Qcdiv_le_iff in H'; [|done]. by rewrite Qcmult_comm.
Qed.

Lemma undiluted x limit : 0 < limit → Qcmax 0 (x / limit - 1) ≤ 0 ↔ x ≤ limit.
Proof.
  intros Hl. rewrite <-(dilution_rate x limit 0) by done.
  replace (x / (1 + 0)) with x by (field; done). done.
Qed.

Lemma Qcmax_mono a a' b b' : a ≤ a' → b ≤ b' → Qcmax a b ≤ Qcmax a' b'.
Proof.
  intros Ha Hb. apply Qcmax_lub.
  - etrans; [exact Ha|apply Qcmax_ge_l].
  - etrans; [exact Hb|apply Qcmax_ge_r].
Qed.

Lemma Qcdiv_mono x y d : 0 < d → x ≤ y → x / d ≤ y / d.
Proof.
  intros Hd Hxy. unfold Qcdiv. apply Qcmult_le_compat_r; [done|].
  by apply Qclt_le_weak, Qcinv_pos.
Qed.


Lemma excess_mono x y limit :
  0 < limit → x ≤ y → Qcmax 0 (x / limit - 1) ≤ Qcmax 0 (y / limit - 1).
Proof.
  intros Hl Hxy. apply Qcmax_mono; [done|].
  pose proof (Qcdiv_mono x y limit Hl Hxy) as H. revert H.
  generalize (x / limit) (y / limit). intros a b H. qc_lra.
Qed.

(** With positive limits, [calc_r_water] returns a rate that is never
    negative, that is 0 exactly when the blend is within both the solids
    and the salt limit, and that does not fall when solids and salt
    rise. *)
Theorem calc_r_water_monotone (blend blend' : BlendProperties.t)
    (cfg : SystemConfig.t) :
  0 < solid_max_pct cfg → 0 < salt_max_ppm cfg →
  BlendProperties.solid_pct blend ≤ BlendProperties.solid_pct blend' →
  BlendProperties.salt_ppm blend ≤ BlendProperties.salt_ppm blend' →
  ∃ r_water r_water',
    calc_r_water blend cfg = Ok r_water ∧
    calc_r_water blend' cfg = Ok r_water' ∧
    0 ≤ r_water ∧ r_water ≤ r_water' ∧
    (r_water = 0 ↔
       BlendProperties.solid_pct blend ≤ solid_max_pct cfg ∧
       BlendProperties.salt_ppm blend ≤ salt_max_ppm cfg).
Proof.
  intros Hs Hp Hsolid Hsalt. unfold calc_r_water, div.
  rewrite !decide_False by by apply Qcpos_ne_0.
  cbn [mbind res_bind].
  set (r_solid := Qcmax 0 (BlendProperties.solid_pct blend / solid_max_pct cfg - 1)).
  set (r_salt := Qcmax 0 (BlendProperties.salt_ppm blend / salt_max_ppm cfg - 1)).
  pose proof (Qcmax_0_nonneg (BlendProperties.solid_pct blend / solid_max_pct cfg - 1))
    as Hs0.
  pose proof (Qcmax_0_nonneg (BlendProperties.salt_ppm blend / salt_max_ppm cfg - 1))
    as Hp0.
  fold r_solid in Hs0. fold r_salt in Hp0.
  pose proof (Qcmax_ge_l r_solid r_salt) as Hl.
  pose proof (Qcmax_ge_r r_solid r_salt) as Hr.
  assert (0 ≤ Qcmax r_solid r_salt) as H0 by by etrans.
  eexists _, _. split; [done|]. split; [done|]. split; [done|]. split.
  - apply Qcmax_mono; by apply excess_mono.
  - rewrite <-(undiluted (BlendProperties.solid_pct blend) (solid_max_pct cfg)),
      <-(undiluted (BlendProperties.salt_ppm blend) (salt_max_ppm cfg)) by done.
    fold r_solid r_salt. split.
    + intros E. rewrite E in Hl, Hr. done.
    + intros [H1 H2]. apply Qcle_antisym; [by apply Qcmax_lub|done].
Qed.

Lemma calc_r_water_monotone_witness :
  ∃ r_water r_water',
    calc_r_water (BlendProperties.mk (dec 2000 1) (dec 6 1) (dec 100 1) (dec 10 1)
                    (dec 4000 1)) defaults = Ok r_water ∧
    calc_r_water (BlendProperties.mk (dec 2000 1) (dec 6 1) (dec 100 1) (dec 30 1)
                    (dec 4000 1)) defaults = Ok r_water' ∧
    r_water = 0 ∧ r_water ≤ r_water'.
Proof.
  destruct (calc_r_water_monotone
    (BlendProperties.mk (dec 2000 1) (dec 6 1) (dec 100 1) (dec 10 1) (dec 4000 1))
    (BlendProperties.mk (dec 2000 1) (dec 6 1) (dec 100 1) (dec 30 1) (dec 4000 1))
    defaults) as (rw & rw' & Hrw & Hrw' & _ & Hle & Hiff); [by vm_compute..|].
  exists rw, rw'. split; [exact Hrw|]. split; [exact Hrw'|]. split; [|exact Hle].
  apply Hiff. split; by vm_compute.
Defined.



Lemma calc_r_water_returns blend cfg :
  solid_max_pct cfg ≠ 0 → salt_max_ppm cfg ≠ 0 →
  ∃ r_water, calc_r_water blend cfg = Ok r_water ∧ 0 ≤ r_water.
Proof.
  intros H1 H2. unfold calc_r_water, div.
  rewrite (decide_False (P := solid_max_pct cfg = 0)) by exact H1.
  rewrite (decide_False (P := salt_max_ppm cfg = 0)) by exact H2.
  cbn [mbind res_bind]. eexists. split; [reflexivity|].
  eapply Qcle_trans; [|apply Qcmax_ge_l]. apply Qcmax_ge_l.
Qed.

Lemma calc_r_diesel_returns blend r_water cfg :
  0 ≤ r_water → BTU_diesel cfg * eta cfg ≠ 0 →
  ∃ r_diesel, calc_r_diesel blend r_water cfg = Ok r_diesel ∧ 0 ≤ r_diesel.
Proof.
  intros Hw H3. unfold calc_r_diesel, div.
  rewrite (decide_False (P := 1 + r_water = 0))
    by exact (Qcpos_ne_0 _ (one_plus_pos _ Hw)).
  cbn [mbind res_bind].
  rewrite (decide_False (P := BTU_diesel cfg * eta cfg = 0)) by exact H3.
  cbn [mbind res_bind]. eexists. split; [reflexivity|apply Qcmax_ge_l].
Qed.

Lemma gatekeeper_returns blend cfg :
  solid_max_pct cfg ≠ 0 → salt_max_ppm cfg ≠ 0 → BTU_diesel cfg * eta cfg ≠ 0 →
  ∃ r_water r_diesel,
    gatekeeper blend cfg = Ok (r_water, r_diesel, calc_r_naoh blend cfg) ∧
    0 ≤ r_water ∧ 0 ≤ r_diesel.
Proof.
  intros H1 H2 H3.
  destruct (calc_r_water_returns blend cfg H1 H2) as (rw & Hrw & Hrw0).
  destruct (calc_r_diesel_returns blend rw cfg Hrw0 H3) as (rd & Hrd & Hrd0).
  exists rw, rd. unfold gatekeeper. rewrite Hrw. cbn [mbind res_bind].
  rewrite Hrd. cbn [mbind res_bind]. done.
Qed.

Lemma calc_r_naoh_nonneg blend cfg :
  0 ≤ K_ACID_TO_NAOH_VOL cfg → 0 ≤ calc_r_naoh blend cfg.
Proof.
  intros HK. unfold calc_r_naoh. apply Qcmult_nonneg_nonneg; [apply Qcmax_ge_l|done].
Qed.

Lemma calc_throughput_returns r_water r_diesel r_naoh cfg :
  0 ≤ r_water → 0 ≤ r_diesel → 0 ≤ r_naoh →
  ∃ W, calc_throughput r_water r_diesel r_naoh cfg = Ok W ∧
       W + W * r_water + W * r_diesel + W * r_naoh = F_total cfg ∧
       (0 ≤ F_total cfg → 0 ≤ W ∧ W ≤ F_total cfg) ∧
       (0 < F_total cfg → 0 < W) ∧
       (F_total cfg = 0 → W = 0).
Proof.
  intros Hw Hd Hn. unfold calc_throughput, div.
  set (r_ext := r_water + r_diesel + r_naoh).
  assert (0 ≤ r_ext) as Hext.
  { unfold r_ext. by repeat apply Qcplus_nonneg_nonneg. }
  pose proof (one_plus_pos r_ext Hext) as Hpos.
  pose proof (Qcpos_ne_0 _ Hpos) as Hne.
  rewrite decide_False by done.
  exists (F_total cfg / (1 + r_ext)). split; [done|]. split; [|split; [|split]].
  - unfold r_ext. field. done.
  - intros HF. split.
    + unfold Qcdiv. apply Qcmult_nonneg_nonneg; [done|].
      by apply Qclt_le_weak, Qcinv_pos.
    + apply Qcdiv_le_iff; [done|].
      rewrite Qcmult_plus_distr_r, Qcmult_1_r, <-(Qcplus_0_r (F_total cfg)) at 1.
      apply Qcplus_le_compat; [done|]. by apply Qcmult_nonneg_nonneg.
  - intros HF. by apply Qcdiv_pos.
  - intros ->. unfold Qcdiv. ring.
Qed.

(** [gatekeeper] raises exactly when a limit or the effective diesel
    heat value is zero, and then a [ZeroDivisionError]; otherwise it
    returns non-negative water and diesel rates and the NaOH rate of
    [calc_r_naoh]. *)
Theorem gatekeeper_raises_iff (blend : BlendProperties.t) (cfg : SystemConfig.t) :
  (solid_max_pct cfg = 0 ∨ salt_max_ppm cfg = 0 ∨ BTU_diesel cfg * eta cfg = 0 →
   gatekeeper blend cfg = Raise ZeroDivisionError) ∧
  (solid_max_pct cfg ≠ 0 → salt_max_ppm cfg ≠ 0 → BTU_diesel cfg * eta cfg ≠ 0 →
   ∃ r_water r_diesel,
     gatekeeper blend cfg = Ok (r_water, r_diesel, calc_r_naoh blend cfg) ∧
     0 ≤ r_water ∧ 0 ≤ r_diesel).
Proof.
  split; [|intros H1 H2 H3; by apply gatekeeper_returns].
  intros H. unfold gatekeeper.
  destruct (decide (solid_max_pct cfg = 0)) as [H1|H1].
  { unfold calc_r_water, div.
    rewrite (decide_True (P := solid_max_pct cfg = 0)) by exact H1. reflexivity. }
  destruct (decide (salt_max_ppm cfg = 0)) as [H2|H2].
  { unfold calc_r_water, div.
    rewrite (decide_False (P := solid_max_pct cfg = 0)) by exact H1.
    rewrite (decide_True (P := salt_max_ppm cfg = 0)) by exact H2. reflexivity. }
  assert (BTU_diesel cfg * eta cfg = 0) as H3 by (by destruct H as [?|[?|?]]).
  destruct (calc_r_water_returns blend cfg H1 H2) as (rw & -> & Hrw).
  cbn [mbind res_bind]. unfold calc_r_diesel, div.
  rewrite (decide_False (P := 1 + rw = 0))
    by exact (Qcpos_ne_0 _ (one_plus_pos _ Hrw)).
  cbn [mbind res_bind].
  rewrite (decide_True (P := BTU_diesel cfg * eta cfg = 0)) by exact H3. reflexivity.
Qed.

(** With non-negative chemical constants, the NaOH rate is never
    negative, and a blend with no more fluorine and no lower pH never
    needs more NaOH. *)
Theorem calc_r_naoh_monotone (blend blend' : BlendProperties.t)
    (cfg : SystemConfig.t) :
  0 ≤ K_F_TO_ACID cfg → 0 ≤ K_PH_TO_BASE cfg → 0 ≤ K_ACID_TO_NAOH_VOL cfg →
  BlendProperties.f_ppm blend ≤ BlendProperties.f_ppm blend' →
  BlendProperties.pH blend' ≤ BlendProperties.pH blend →
  0 ≤ calc_r_naoh blend cfg ∧ calc_r_naoh blend cfg ≤ calc_r_naoh blend' cfg.
Proof.
  intros HF HP HA Hf HpH. unfold calc_r_naoh.
  split; [apply Qcmult_nonneg_nonneg; [apply Qcmax_ge_l|done]|].
  apply Qcmult_le_compat_r; [|done].
  apply Qcmax_lub; [apply Qcmax_ge_l|]. etrans; [|apply Qcmax_ge_r].
  assert (BlendProperties.f_ppm blend * K_F_TO_ACID cfg
          ≤ BlendProperties.f_ppm blend' * K_F_TO_ACID cfg) as H1
    by by apply Qcmult_le_compat_r.
  assert (Qcmax 0 (BlendProperties.pH blend' - dec 7 1) * K_PH_TO_BASE cfg
          ≤ Qcmax 0 (BlendProperties.pH blend - dec 7 1) * K_PH_TO_BASE cfg) as H2.
  { apply Qcmult_le_compat_r; [|done]. apply Qcmax_lub; [apply Qcmax_ge_l|].
    etrans; [|apply Qcmax_ge_r]. qc_lra. }
  revert H1 H2.
  generalize (BlendProperties.f_ppm blend * K_F_TO_ACID cfg)
    (BlendProperties.f_ppm blend' * K_F_TO_ACID cfg)
    (Qcmax 0 (BlendProperties.pH blend' - dec 7 1) * K_PH_TO_BASE cfg)
    (Qcmax 0 (BlendProperties.pH blend - dec 7 1) * K_PH_TO_BASE cfg).
  intros a a' b' b H1 H2. qc_lra.
Qed.

Lemma calc_r_naoh_monotone_witness :
  calc_r_naoh (BlendProperties.mk (dec 2000 1) (dec 8 1) (dec 100 1) (dec 30 1)
                 (dec 4000 1)) defaults
  ≤ calc_r_naoh (BlendProperties.mk (dec 2000 1) (dec 6 1) (dec 5000 1) (dec 30 1)
                   (dec 4000 1)) defaults.
Proof. apply calc_r_naoh_monotone; by vm_compute. Defined.



End gatekeeper_facts.

(** * Every returned phase is a feasible blend *)

Section returned_phases.
Import Search Invariants Reference Gatekeeper SystemConfig Returned.
Local Open Scope Qc_scope.

Lemma gatekeeper_Ok_inv blend cfg rw rd rn :
  gatekeeper blend cfg = Ok (rw, rd, rn) →
  solid_max_pct cfg ≠ 0 ∧ salt_max_ppm cfg ≠ 0 ∧ BTU_diesel cfg * eta cfg ≠ 0 ∧
  rw = Qcmax (Qcmax 0 (BlendProperties.solid_pct blend / solid_max_pct cfg - 1))
             (Qcmax 0 (BlendProperties.salt_ppm blend / salt_max_ppm cfg - 1)) ∧
  rd = Qcmax 0 ((BTU_target cfg - BlendProperties.btu_per_lb blend / (1 + rw))
                / (BTU_diesel cfg * eta cfg)) ∧
  rn = calc_r_naoh blend cfg.
Proof.
  unfold gatekeeper, calc_r_water, calc_r_diesel.
  intros (rw' & (a & [Ha ->]%div_Ok & (b & [Hb ->]%div_Ok & [= <-])%res_bind_Ok)%res_bind_Ok
          & (rd' & (e & [He ->]%div_Ok & (d & [Hd ->]%div_Ok & [= <-])%res_bind_Ok)%res_bind_Ok
             & [= <- <- <-])%res_bind_Ok)%res_bind_Ok.
  done.
Qed.

Section with_pH.
Variable blend_pH : list Qc → list Z → Qc.

Lemma evaluate_inv cfg fc subset subset_streams ratios t :
  evaluate blend_pH cfg fc subset subset_streams ratios = Ok (Some t) →
  PhaseTemplate.blend t
    = Blending.calc_blend_properties blend_pH subset_streams ratios ∧
  gatekeeper (PhaseTemplate.blend t) cfg
    = Ok (PhaseTemplate.r_water t, PhaseTemplate.r_diesel t, PhaseTemplate.r_naoh t) ∧
  calc_throughput (PhaseTemplate.r_water t) (PhaseTemplate.r_diesel t)
    (PhaseTemplate.r_naoh t) cfg = Ok (PhaseTemplate.W t) ∧
  PhaseTemplate.r_ext t
    = PhaseTemplate.r_water t + PhaseTemplate.r_diesel t + PhaseTemplate.r_naoh t ∧
  W_min cfg ≤ PhaseTemplate.W t ∧
  BlendProperties.pH (PhaseTemplate.blend t) ≤ pH_max cfg.
Proof.
  unfold evaluate. case_decide as HpH; [done|].
  destruct (gatekeeper _ _) as [[[rw rd] rn]|] eqn:Hg; [|done]. cbn [mbind res_bind].
  destruct (calc_throughput _ _ _ _) as [W|] eqn:HW; [|done]. cbn [mbind res_bind].
  case_decide as HWm; [done|].
  destruct (div _ W) as [q|]; [|done]. cbn [mbind res_bind].
  intros [= <-]. cbn. repeat split; try done; by apply Qcnot_lt_le.
Qed.

Lemma index_template_evaluated streams cfg cache idx key ts t :
  _precompute_templates blend_pH streams cfg cache = Ok idx →
  (key, ts) ∈ idx → t ∈ ts →
  ∃ subset ratios,
    subset ∈ subsets (all_ids streams) ∧
    ratios ∈ default [[1%Z]] (cache !! length subset) ∧
    evaluate blend_pH cfg (fixed_cost_per_min cfg) subset
      (omap (λ sid, streams_map streams !! sid) subset) ratios = Ok (Some t).
Proof.
  intros Hidx Hin Ht. unfold _precompute_templates in Hidx.
  apply build_index_entries in Hidx as (_ & _ & Hback).
  destruct (Hback key ts Hin) as (subset & fs & Hsub & _ & Hfs & _ & ->).
  apply subseteq_take, elem_of_sort_by_key in Ht.
  apply (feasible_templates_elem _ _ _ _ _ _ _ Hfs) in Ht as (ratios & Hr & He).
  by exists subset, ratios.
Qed.

End with_pH.

Lemma search_phases_from_index (idx : index) cfg room inv memo :
  index_wf idx →
  map_Forall (λ _ (r : result), Forall (from_index idx cfg) r.2) memo →
  Forall (from_index idx cfg) (_search_from idx cfg room inv memo).1.2 ∧
  map_Forall (λ _ (r : result), Forall (from_index idx cfg) r.2)
    (_search_from idx cfg room inv memo).2.
Proof.
  intros Hwf.
  apply (search_rule idx cfg (λ _, True)
           (λ _ (r : result), Forall (from_index idx cfg) r.2)).
  - done.
  - constructor.
  - constructor.
  - intros inv' c tmpl n rc rps _ _ Hc Hr. cbn [snd] in *. constructor; [|done].
    destruct (candidate_inv idx inv' c tmpl n Hwf Hc) as (_ & _ & _ & _ & Hn & _).
    apply elem_of_candidates in Hc as (key & ts & Hin & _ & Ht & _ & _).
    by exists key, ts, tmpl, n.
  - done.
Qed.

Section with_pH.
Variable blend_pH : list Qc → list Z → Qc.

(** Every phase of the result of [search] comes from a feasible
    blend: its throughput is at least [W_min] and its blend pH at most
    [pH_max]; its rates are those the gatekeeper gives for its blend,
    water and diesel never negative, and its throughput is that of
    [calc_throughput] for these rates; and it consumes a positive
    quantity in a runtime of that quantity over the throughput. *)
Theorem returned_phases_are_feasible (streams : list WasteStream.t)
    (cfg : SystemConfig.t) (r : result) (p : PhaseResult.t) :
  search blend_pH streams cfg = Ok r → p ∈ r.2 →
  W_min cfg ≤ PhaseResult.W p ∧
  BlendProperties.pH (PhaseResult.blend_props p) ≤ pH_max cfg ∧
  gatekeeper (PhaseResult.blend_props p) cfg
    = Ok (PhaseResult.r_water p, PhaseResult.r_diesel p, PhaseResult.r_naoh p) ∧
  calc_throughput (PhaseResult.r_water p) (PhaseResult.r_diesel p)
    (PhaseResult.r_naoh p) cfg = Ok (PhaseResult.W p) ∧
  0 ≤ PhaseResult.r_water p ∧ 0 ≤ PhaseResult.r_diesel p ∧
  PhaseResult.r_ext p
    = PhaseResult.r_water p + PhaseResult.r_diesel p + PhaseResult.r_naoh p ∧
  0 < PhaseResult.Q_phase p ∧
  PhaseResult.runtime_min p = PhaseResult.Q_phase p / PhaseResult.W p.
Proof.
  intros (cache & idx & Hcache & Hok & Hidx & Hwf & _ & ->)%search_unfold Hp.
  destruct (search_phases_from_index idx cfg (length streams + 1)
              (inventory streams) ∅ Hwf) as [Hall _].
  { by intros ?? ?%lookup_empty_Some. }
  rewrite Forall_forall in Hall.
  destruct (Hall p Hp) as (key & ts & t & n & Hin & Ht & Hn & ->).
  destruct (Hwf key ts t Hin Ht) as [(Hids & _ & Hlen & Hpos & Hsum) _].
  destruct (index_template_evaluated blend_pH streams cfg cache idx key ts t
              Hidx Hin Ht) as (subset & ratios & _ & _ & He).
  destruct (evaluate_inv _ _ _ _ _ _ _ He) as (_ & Hg & HW & Hext & HWmin & HpH).
  pose proof Hg as (_ & _ & _ & Hrw & Hrd & _)%gatekeeper_Ok_inv.
  unfold make_phase. cbn [PhaseResult.W PhaseResult.blend_props PhaseResult.r_water
    PhaseResult.r_diesel PhaseResult.r_naoh PhaseResult.r_ext PhaseResult.Q_phase
    PhaseResult.runtime_min].
  split; [exact HWmin|]. split; [exact HpH|]. split; [exact Hg|].
  split; [exact HW|].
  split. { rewrite Hrw. eapply Qcle_trans; [|apply Qcmax_ge_l]. apply Qcmax_ge_l. }
  split. { rewrite Hrd. apply Qcmax_ge_l. }
  split; [exact Hext|]. split; [|reflexivity].
  apply Qcmult_pos_pos; [|exact Hn]. apply Z2Qc_pos. rewrite Hsum.
  pose proof (sum_ge_length _ Hpos).
  destruct (PhaseTemplate.stream_ids t); [done|]. simpl in Hlen. lia.
Qed.

End with_pH.

Lemma returned_phases_are_feasible_witness :
  ∃ r p, search Samples.pH_mean Samples.whole_litres defaults = Ok r ∧
         p ∈ r.2 ∧ W_min defaults ≤ PhaseResult.W p ∧
         BlendProperties.pH (PhaseResult.blend_props p) ≤ pH_max defaults.
Proof.
  eexists _, _. split; [vm_compute; reflexivity|].
  split; [cbn [snd]; left|].
  assert (∀ A B C D E F G H I : Prop,
            A ∧ B ∧ C ∧ D ∧ E ∧ F ∧ G ∧ H ∧ I → A ∧ B) as pick by tauto.
  eapply pick.
  eapply (returned_phases_are_feasible Samples.pH_mean Samples.whole_litres defaults);
    [vm_compute; reflexivity|cbn [snd]; left].
Defined.

End returned_phases.

(** * How many subsets and templates the pre-computation can keep *)

Section index_size.
Import Search Invariants.

Lemma combinations_beyond {A} (l : list A) k :
  (length l < k)%nat → combinations l k = [].
Proof.
  revert k. induction l as [|x xs IH]; intros [|k] Hk; simpl in *; try lia; [done|].
  rewrite !IH by lia. done.
Qed.

Lemma length_combinations_cons {A} (x : A) xs k :
  length (combinations (x :: xs) (S k))
  = (length (combinations xs k) + length (combinations xs (S k)))%nat.
Proof.
  change (combinations (x :: xs) (S k))
    with (((x ::.) <$> combinations xs k) ++ combinations xs (S k)).
  by rewrite length_app, length_fmap.
Qed.

(** The number of combinations of all sizes below [m]. *)
Lemma combinations_count {A} (l : list A) m :
  (length l < m)%nat →
  sum_list ((λ k, length (combinations l k)) <$> seq 0 m) = (2 ^ length l)%nat.
Proof.
  revert m. induction l as [|x xs IH]; intros m Hm.
  - destruct m as [|m]; [simpl in Hm; lia|]. simpl.
    assert (∀ a n, sum_list ((λ k, length (@combinations A [] k)) <$> seq (S a) n) = 0%nat)
      as H0.
    { intros a n. revert a. induction n as [|n IHn]; intros a; simpl; [done|].
      by rewrite IHn. }
    by rewrite H0.
  - destruct m as [|m]; [simpl in Hm; lia|]. simpl in Hm.
    assert (∀ n, sum_list ((λ k, length (combinations (x :: xs) k)) <$> seq 1 n)
                 = (sum_list ((λ k, length (combinations xs k)) <$> seq 0 n)
                    + sum_list ((λ k, length (combinations xs k)) <$> seq 1 n))%nat)
      as Hstep.
    { intros n. rewrite <-(fmap_S_seq 0 n), <-!list_fmap_compose.
      generalize (seq 0 n). intros ks. induction ks as [|k ks IHk]; [done|].
      rewrite !fmap_cons. cbn [sum_list]. rewrite IHk.
      change (((λ k0, length (combinations (x :: xs) k0)) ∘ S) k)
        with (length (combinations (x :: xs) (S k))).
      change (((λ k0, length (combinations xs k0)) ∘ S) k)
        with (length (combinations xs (S k))).
      rewrite length_combinations_cons. unfold id. lia. }
    pose proof (IH m ltac:(lia)) as IHm. pose proof (IH (S m) ltac:(lia)) as IHSm.
    rewrite <-cons_seq, fmap_cons in IHSm |- *. cbn [sum_list] in IHSm |- *.
    rewrite Hstep, IHm.
    assert (∀ l : list A, length (combinations l 0) = 1%nat) as H1 by by intros [|??].
    rewrite H1 in IHSm |- *.
    change (length (x :: xs)) with (S (length xs)). rewrite Nat.pow_succ_r'.
    unfold id in *. lia.
Qed.

Lemma length_subsets (ids : list string) :
  S (length (subsets ids)) = (2 ^ length ids)%nat.
Proof.
  rewrite <-(combinations_count ids (S (length ids))) by lia.
  rewrite <-cons_seq, fmap_cons. cbn [sum_list].
  replace (length (combinations ids 0)) with 1%nat by by destruct ids.
  unfold id at 1. cbn [Nat.add]. f_equal.
  unfold subsets. generalize (seq 1 (length ids)). intros ks.
  induction ks as [|k ks IH]; [done|].
  cbn [mbind list_bind fmap list_fmap sum_list]. by rewrite length_app, IH.
Qed.

Section with_pH.
Variable blend_pH : list Qc → list Z → Qc.

(** The pre-computation visits every non-empty subset of the distinct
    stream identifiers once, [2^n - 1] subsets for [n] identifiers; so
    the index has at most [2^N - 1] entries for [N] streams, each entry
    holds between 1 and 30 templates, and the index holds at most
    [30 * (2^N - 1)] templates in all. *)
Theorem index_size_bound (streams : list WasteStream.t) (cfg : SystemConfig.t)
    (ratio_cache : gmap nat (list (list Z))) (idx : index) :
  _precompute_templates blend_pH streams cfg ratio_cache = Ok idx →
  S (length (subsets (all_ids streams))) = (2 ^ length (all_ids streams))%nat ∧
  (S (length idx) ≤ 2 ^ length streams)%nat ∧
  Forall (λ e : gset string * list PhaseTemplate.t,
            (1 ≤ length e.2 ≤ _MAX_TEMPLATES_PER_SUBSET)%nat) idx ∧
  (sum_list (length <$> idx.*2) + _MAX_TEMPLATES_PER_SUBSET
   ≤ _MAX_TEMPLATES_PER_SUBSET * 2 ^ length streams)%nat.
Proof.
  intros Hidx. unfold _precompute_templates in Hidx.
  apply build_index_entries in Hidx as (Hsub & _ & Hback).
  pose proof (length_subsets (all_ids streams)) as Hlen.
  assert (length idx ≤ length (subsets (all_ids streams)))%nat as Hle.
  { apply sublist_length in Hsub. by rewrite !length_fmap in Hsub. }
  assert (2 ^ length (all_ids streams) ≤ 2 ^ length streams)%nat as Hpow.
  { apply Nat.pow_le_mono_r; [done|apply length_all_ids]. }
  assert (Forall (λ e : gset string * list PhaseTemplate.t,
            (1 ≤ length e.2 ≤ _MAX_TEMPLATES_PER_SUBSET)%nat) idx) as Hall.
  { apply Forall_forall. intros [key kept] Hin.
    destruct (Hback key kept Hin) as (subset & fs & _ & _ & _ & Hne & ->).
    cbn [snd]. rewrite length_take, length_sort_by_key.
    destruct fs; [done|]. cbn [length].
    split; [apply Nat.min_glb; unfold _MAX_TEMPLATES_PER_SUBSET; lia|].
    apply Nat.le_min_l. }
  assert (sum_list (length <$> idx.*2) ≤ _MAX_TEMPLATES_PER_SUBSET * length idx)%nat
    as Hsum.
  { clear -Hall. unfold _MAX_TEMPLATES_PER_SUBSET in *.
    induction Hall as [|e idx [_ He] _ IH]; [simpl; lia|].
    rewrite !fmap_cons.
    change (length e.2 + sum_list (length <$> idx.*2) ≤ 30 * S (length idx))%nat.
    lia. }
  split; [done|]. revert Hlen Hpow Hsum.
  generalize (2 ^ length (all_ids streams))%nat (2 ^ length streams)%nat
    (sum_list (length <$> idx.*2)).
  unfold _MAX_TEMPLATES_PER_SUBSET. intros a b c Hlen Hpow Hsum.
  split; [lia|]. split; [done|]. lia.
Qed.

End with_pH.

Lemma index_size_bound_witness :
  (S (length Samples.whole_litres_index) ≤ 2 ^ length Samples.whole_litres)%nat.
Proof.
  eapply (proj1 (proj2 (index_size_bound Samples.pH_mean Samples.whole_litres
                          SystemConfig.defaults Samples.cache_2 _ _))).
  Unshelve. apply whole_litres_index_eq.
Defined.

End index_size.

(** * Input validation *)

Section validation.
Import Errors Package.
Local Open Scope Qc_scope.

Lemma check_stream_Return s : check_stream s = Return () ↔ valid_stream s.
Proof.
  unfold check_stream, valid_stream.
  destruct (decide (WasteStream.quantity_L s ≤ 0)) as [H1|H1].
  { split; [done|]. intros (H & _). by apply Qclt_not_le in H. }
  destruct (decide (WasteStream.btu_per_lb s < 0)) as [H2|H2].
  { split; [done|]. intros (_ & H & _). by apply Qcle_not_lt in H. }
  destruct (decide (¬ (0 ≤ WasteStream.pH s ∧ WasteStream.pH s ≤ dec 14 1)))
    as [H3|H3].
  { split; [done|]. intros (_ & _ & Ha & Hb & _). by destruct H3. }
  destruct (decide (WasteStream.f_ppm s < 0)) as [H4|H4].
  { split; [done|]. intros (_ & _ & _ & _ & H & _). by apply Qcle_not_lt in H. }
  destruct (decide (¬ (0 ≤ WasteStream.solid_pct s
                       ∧ WasteStream.solid_pct s ≤ dec 100 1))) as [H5|H5].
  { split; [done|]. intros (_ & _ & _ & _ & _ & Ha & Hb & _). by destruct H5. }
  destruct (decide (WasteStream.salt_ppm s < 0)) as [H6|H6].
  { split; [done|]. intros (_ & _ & _ & _ & _ & _ & _ & H). by apply Qcle_not_lt in H. }
  split; [intros _|done].
  apply dec_stable in H3 as [??]. apply dec_stable in H5 as [??].
  repeat split; try done; try (by apply Qcnot_lt_le). by apply Qcnot_le_lt.
Qed.

Lemma check_stream_Throw s e :
  check_stream s = Throw e → ∃ m, e = ValueError m.
Proof. unfold check_stream. repeat case_decide; intros [= <-]; by eexists. Qed.

Lemma validate_loop_Return ids streams :
  validate_loop ids streams = Return () ↔
  (∀ s, s ∈ streams → WasteStream.stream_id s ∉ ids) ∧
  NoDup (WasteStream.stream_id <$> streams) ∧ Forall valid_stream streams.
Proof.
  revert ids. induction streams as [|s rest IH]; intros ids; simpl.
  { split; [|done]. intros _. split; [by intros ? ?%elem_of_nil|].
    split; constructor. }
  case_decide as Hin.
  { split; [done|]. intros (Hout & _). destruct (Hout s); [left|done]. }
  destruct (check_stream s) as [[]|e] eqn:Hc; simpl.
  - apply check_stream_Return in Hc. rewrite IH, NoDup_cons, Forall_cons. split.
    + intros (Hout & Hnd & Hall). split; [|split; [split|]]; try done.
      * intros s' [->|Hs']%elem_of_cons; [done|]. specialize (Hout s' Hs'). set_solver.
      * intros (s' & Heq & Hs')%list_elem_of_fmap. specialize (Hout s' Hs'). set_solver.
    + intros (Hout & [Hnotin Hnd] & [_ Hall]). split; [|done].
      intros s' Hs'. assert (WasteStream.stream_id s' ∉ ids) by (apply Hout; by right).
      assert (WasteStream.stream_id s' ≠ WasteStream.stream_id s).
      { intros Heq. apply Hnotin. rewrite <-Heq. by apply list_elem_of_fmap_2. }
      set_solver.
  - split; [done|]. intros (_ & _ & [Hv _]%Forall_cons).
    apply check_stream_Return in Hv. congruence.
Qed.

Lemma validate_loop_Throw ids streams e :
  validate_loop ids streams = Throw e → ∃ m, e = ValueError m.
Proof.
  revert ids. induction streams as [|s rest IH]; intros ids; simpl; [done|].
  case_decide; [intros [= <-]; by eexists|].
  destruct (check_stream s) as [[]|e'] eqn:Hc; simpl; [apply IH|].
  intros [= <-]. by eapply check_stream_Throw.
Qed.

End validation.

(** * Input validation on any float *)

Section validation_of_floats.
Import Errors Floats Unvalidated.
Local Open Scope Qc_scope.

Lemma not_xle_0 x : ¬ xle x (Num 0) ↔ positive_or_nan x.
Proof.
  destruct x as [q| | |]; simpl; try tauto. split.
  - apply Qcnot_le_lt.
  - apply Qclt_not_le.
Qed.

Lemma not_xlt_0 x : ¬ xlt x (Num 0) ↔ non_negative_or_nan x.
Proof.
  destruct x as [q| | |]; simpl; try tauto. split.
  - apply Qcnot_lt_le.
  - apply Qcle_not_lt.
Qed.

Lemma xle_within lo hi x : xle (Num lo) x ∧ xle x (Num hi) ↔ within lo hi x.
Proof. destruct x as [q| | |]; simpl; tauto. Qed.

Lemma check_stream_accepted s : check_stream s = Return () ↔ accepted s.
Proof.
  unfold check_stream, accepted.
  rewrite <-!not_xle_0, <-!not_xlt_0, <-!xle_within.
  repeat case_decide; split; try done; tauto.
Qed.

Lemma check_stream_raises s e :
  check_stream s = Throw e → ∃ m, e = ValueError m.
Proof. unfold check_stream. repeat case_decide; intros [= <-]; by eexists. Qed.

Lemma validate_loop_accepts ids streams :
  validate_loop ids streams = Return () ↔
  (∀ s, s ∈ streams → stream_id s ∉ ids) ∧
  NoDup (stream_id <$> streams) ∧ Forall accepted streams.
Proof.
  revert ids. induction streams as [|s rest IH]; intros ids; simpl.
  { split; [|done]. intros _. split; [by intros ? ?%elem_of_nil|].
    split; constructor. }
  case_decide as Hin.
  { split; [done|]. intros (Hout & _). destruct (Hout s); [left|done]. }
  destruct (check_stream s) as [[]|e] eqn:Hc; simpl.
  - apply check_stream_accepted in Hc. rewrite IH, NoDup_cons, Forall_cons. split.
    + intros (Hout & Hnd & Hall). split; [|split; [split|]]; try done.
      * intros s' [->|Hs']%elem_of_cons; [done|]. specialize (Hout s' Hs'). set_solver.
      * intros (s' & Heq & Hs')%list_elem_of_fmap. specialize (Hout s' Hs'). set_solver.
    + intros (Hout & [Hnotin Hnd] & [_ Hall]). split; [|done].
      intros s' Hs'. assert (stream_id s' ∉ ids) by (apply Hout; by right).
      assert (stream_id s' ≠ stream_id s).
      { intros Heq. apply Hnotin. rewrite <-Heq. by apply list_elem_of_fmap_2. }
      set_solver.
  - split; [done|]. intros (_ & _ & [Hv _]%Forall_cons).
    apply check_stream_accepted in Hv. congruence.
Qed.

Lemma validate_loop_raises ids streams e :
  validate_loop ids streams = Throw e → ∃ m, e = ValueError m.
Proof.
  revert ids. induction streams as [|s rest IH]; intros ids; simpl; [done|].
  case_decide; [intros [= <-]; by eexists|].
  destruct (check_stream s) as [[]|e'] eqn:Hc; simpl; [apply IH|].
  intros [= <-]. by eapply check_stream_raises.
Qed.

Lemma check_stream_finite s :
  check_stream (of_stream s) = Package.check_stream s.
Proof.
  unfold check_stream, Package.check_stream, of_stream. cbn [stream_id quantity_L
    btu_per_lb pH f_ppm solid_pct salt_ppm xle xlt].
  repeat case_decide; try done; tauto.
Qed.

Lemma validate_loop_finite ids streams :
  validate_loop ids (of_stream <$> streams) = Package.validate_loop ids streams.
Proof.
  revert ids. induction streams as [|s rest IH]; intros ids; [done|].
  cbn [fmap list_fmap validate_loop Package.validate_loop].
  change (stream_id (of_stream s)) with (WasteStream.stream_id s).
  case_decide; [done|]. by rewrite check_stream_finite, IH.
Qed.

(** [_validate_streams], on streams whose numeric fields are any float,
    accepts exactly the lists of one to five streams with pairwise
    distinct identifiers in which every quantity is positive, [inf] or
    [nan], every heat value, fluorine and salt content is non-negative,
    [inf] or [nan], every pH is a number within 0..14 and every solids
    content a number within 0..100.  It raises nothing but
    [ValueError]; an empty list or more than five streams is reported
    before any stream is looked at; and on streams with finite fields it
    is the validation of the pipeline. *)
Theorem validate_streams_accepts (streams : list stream) :
  (_validate_streams streams = Return () ↔
   (1 ≤ length streams ≤ 5)%nat ∧ NoDup (stream_id <$> streams) ∧
   Forall accepted streams) ∧
  (∀ e, _validate_streams streams = Throw e → ∃ m, e = ValueError m) ∧
  (streams = [] →
   _validate_streams streams = Throw (ValueError At_least_1_stream_required)) ∧
  ((5 < length streams)%nat →
   _validate_streams streams
   = Throw (ValueError (Maximum_5_streams_supported (length streams)))) ∧
  (∀ finite, streams = of_stream <$> finite →
   _validate_streams streams = Package._validate_streams finite).
Proof.
  unfold _validate_streams. split; [|split; [|split; [|split]]].
  - case_decide as Hnil.
    { subst. split; [done|]. simpl. lia. }
    case_decide as Hlen.
    { split; [done|]. lia. }
    rewrite validate_loop_accepts. split.
    + intros (_ & ? & ?). split; [|done]. destruct streams; [done|]. simpl in *. lia.
    + intros (_ & ? & ?). split; [|done]. intros ??. apply not_elem_of_empty.
  - repeat case_decide; try (intros e [= <-]; by eexists).
    intros e. apply validate_loop_raises.
  - intros ->. done.
  - intros Hlen. rewrite decide_False by (by intros ->; simpl in Hlen; lia).
    by rewrite decide_True.
  - intros finite ->. unfold Package._validate_streams. rewrite length_fmap.
    destruct finite as [|s rest]; [done|].
    rewrite (decide_False (P := of_stream <$> s :: rest = [])) by done.
    rewrite (decide_False (P := s :: rest = [])) by done.
    case_decide; [done|]. apply validate_loop_finite.
Qed.

End validation_of_floats.

(** * [evaluate_phase] and the template route *)

Section evaluate_phase_facts.
Import Errors Phase Search SystemConfig.
Local Open Scope Qc_scope.

Lemma dict_set_fresh d k v : k ∉ d.*1 → dict_set d k v = d ++ [(k, v)].
Proof.
  induction d as [|[k' v'] d IH]; intros Hk; simpl; [done|].
  rewrite fmap_cons, not_elem_of_cons in Hk. destruct Hk as [Hne Hk].
  rewrite decide_False by done. by rewrite IH.
Qed.

Lemma dict_NoDup pairs : NoDup pairs.*1 → dict pairs = pairs.
Proof.
  unfold dict. change pairs with ([] ++ pairs) at 1 3.
  generalize (@nil (string * Z)). induction pairs as [|[k v] pairs IH]; intros acc Hnd.
  { by rewrite app_nil_r. }
  simpl. rewrite dict_set_fresh.
  - rewrite (IH (acc ++ [(k, v)])); [by rewrite <-app_assoc|].
    by rewrite <-app_assoc.
  - rewrite fmap_app in Hnd. apply NoDup_app in Hnd as (_ & Hdisj & _).
    intros Hin. apply (Hdisj k Hin). left.
Qed.

Lemma quotients_Return inventory pairs :
  (∀ sid r, (sid, r) ∈ pairs → is_Some (inventory !! sid) ∧ r ≠ 0%Z) →
  quotients inventory pairs
  = Return ((λ '(sid, ratio), qty inventory sid / Z2Qc ratio) <$> pairs).
Proof.
  induction pairs as [|[sid r] pairs IH]; intros Hok; [done|].
  destruct (Hok sid r) as [[q Hq] Hr]; [left|].
  cbn [quotients fmap list_fmap]. unfold getitem, qty, div. rewrite Hq.
  cbn [mbind try_bind default]. rewrite decide_False by (intros ?%(Z2Qc_inj r 0); done).
  cbn [lift mbind try_bind]. rewrite IH by (intros; apply Hok; by right). done.
Qed.

Lemma zip_with_zip_fmap {A B C} (f : A → B → C) (l : list A) (k : list B) :
  zip_with f l k = (λ '(a, b), f a b) <$> zip l k.
Proof.
  revert k. induction l as [|a l IH]; intros [|b k]; simpl; [done..|]. by rewrite IH.
Qed.

Section with_pH.
Variable blend_pH : list Qc → list Z → Qc.

(** [evaluate_phase] and the pre-computation of the search agree.  For
    streams with pairwise distinct identifiers, all present in the
    inventory, blended with non-zero ratio parts, [evaluate_phase]
    returns [None] exactly when the pre-computation finds the
    combination infeasible and raises what the pre-computation raises.
    Otherwise it returns a phase with the streams and ratio parts given,
    the blend, the rates and the throughput of the pre-computed
    template, the quantity summed over the ratio parts at the batch
    count the search takes on that inventory, and a runtime of that
    quantity over the throughput. *)
Theorem evaluate_phase_agrees (streams : list WasteStream.t) (ratios : list Z)
    (inventory : gmap string Qc) (cfg : SystemConfig.t) :
  let stream_ids := WasteStream.stream_id <$> streams in
  NoDup stream_ids → streams ≠ [] → ratios ≠ [] →
  (∀ sid r, (sid, r) ∈ zip stream_ids ratios →
     is_Some (inventory !! sid) ∧ r ≠ 0%Z) →
  match evaluate blend_pH cfg (fixed_cost_per_min cfg) stream_ids streams ratios with
  | Ok (Some tmpl) =>
      ∃ p, evaluate_phase blend_pH streams ratios inventory cfg = Return (Some p) ∧
           PhaseResult.streams p = zip stream_ids ratios ∧
           PhaseResult.blend_props p = PhaseTemplate.blend tmpl ∧
           PhaseResult.r_water p = PhaseTemplate.r_water tmpl ∧
           PhaseResult.r_diesel p = PhaseTemplate.r_diesel tmpl ∧
           PhaseResult.r_naoh p = PhaseTemplate.r_naoh tmpl ∧
           PhaseResult.r_ext p = PhaseTemplate.r_ext tmpl ∧
           PhaseResult.W p = PhaseTemplate.W tmpl ∧
           PhaseResult.Q_phase p
           = Qcsum ((λ r, Z2Qc r * num_batches inventory tmpl) <$> ratios) ∧
           PhaseResult.runtime_min p = PhaseResult.Q_phase p / PhaseResult.W p
  | Ok None => evaluate_phase blend_pH streams ratios inventory cfg = Return None
  | Raise e => evaluate_phase blend_pH streams ratios inventory cfg = Throw (Builtin e)
  end.
Proof.
  intros ids Hnd Hs Hr Hok. unfold evaluate_phase, evaluate. fold ids.
  case_decide as HpH; [done|].
  destruct (Gatekeeper.gatekeeper _ cfg) as [[[rw rd] rn]|e]; [|done].
  cbn [lift mbind try_bind res_bind].
  destruct (Gatekeeper.calc_throughput rw rd rn cfg) as [W|e]; [|done].
  cbn [lift mbind try_bind res_bind].
  case_decide as HW; [done|].
  rewrite quotients_Return by done. cbn [mbind try_bind].
  assert (zip ids ratios ≠ []) as Hzip.
  { subst ids. destruct streams, ratios; done. }
  unfold min_of.
  destruct ((λ '(sid, ratio), qty inventory sid / Z2Qc ratio) <$> zip ids ratios)
    as [|x xs] eqn:Hqs.
  { apply fmap_nil_inv in Hqs. done. }
  rewrite <-Hqs. cbn [mbind try_bind].
  unfold div.
  destruct (decide (W = 0)) as [HW0|HW0];
    cbn [lift mbind try_bind res_bind]; [reflexivity|].
  eexists. split; [reflexivity|].
  cbn [PhaseResult.streams PhaseResult.blend_props PhaseResult.r_water
       PhaseResult.r_diesel PhaseResult.r_naoh PhaseResult.r_ext PhaseResult.W
       PhaseResult.Q_phase PhaseResult.runtime_min
       PhaseTemplate.blend PhaseTemplate.r_water PhaseTemplate.r_diesel
       PhaseTemplate.r_naoh PhaseTemplate.r_ext PhaseTemplate.W].
  split.
  { apply dict_NoDup. eapply sublist_NoDup; [apply Hnd|]. clear. revert ratios.
    induction ids as [|i ids IH]; intros [|r rs]; simpl; try done;
      [apply sublist_nil_l|]. by apply sublist_skip. }
  do 6 (split; [reflexivity|]). split; [|reflexivity].
  unfold num_batches.
  cbn [PhaseTemplate.stream_ids PhaseTemplate.ratios].
  by rewrite (zip_with_zip_fmap (λ sid ratio, qty inventory sid / Z2Qc ratio)).
Qed.

Lemma evaluate_phase_None streams ratios inventory cfg :
  evaluate blend_pH cfg (fixed_cost_per_min cfg) (WasteStream.stream_id <$> streams)
    streams ratios = Ok None →
  evaluate_phase blend_pH streams ratios inventory cfg = Return None.
Proof.
  unfold evaluate_phase, evaluate. case_decide as HpH; [done|].
  destruct (Gatekeeper.gatekeeper _ cfg) as [[[rw rd] rn]|e]; [|done].
  cbn [lift mbind try_bind res_bind].
  destruct (Gatekeeper.calc_throughput rw rd rn cfg) as [W|e]; [|done].
  cbn [lift mbind try_bind res_bind].
  case_decide as HW; [done|]. by destruct (div _ W).
Qed.

Lemma evaluate_phase_Some streams ratios inventory cfg t :
  evaluate blend_pH cfg (fixed_cost_per_min cfg) (WasteStream.stream_id <$> streams)
    streams ratios = Ok (Some t) →
  ∃ k : Qc → PhaseResult.t,
    evaluate_phase blend_pH streams ratios inventory cfg =
    (qs ← quotients inventory (zip (WasteStream.stream_id <$> streams) ratios);
     num_batches ← min_of qs;
     Return (Some (k num_batches))).
Proof.
  unfold evaluate_phase, evaluate. case_decide as HpH; [done|].
  destruct (Gatekeeper.gatekeeper _ cfg) as [[[rw rd] rn]|e]; [|done].
  cbn [lift mbind try_bind res_bind].
  destruct (Gatekeeper.calc_throughput rw rd rn cfg) as [W|e]; [|done].
  cbn [lift mbind try_bind res_bind].
  case_decide as HW; [done|]. unfold div.
  destruct (decide (W = 0)) as [HW0|HW0]; [done|]. intros _.
  eexists (λ n, PhaseResult.mk _ _ _ _ _ _ _ _ _ _ _ _ _ _ _).
  cbn [lift mbind try_bind]. reflexivity.
Qed.

Lemma quotients_app_Throw inventory pre rest e :
  (∀ sid' r', (sid', r') ∈ pre → is_Some (inventory !! sid') ∧ r' ≠ 0%Z) →
  quotients inventory rest = Throw e →
  quotients inventory (pre ++ rest) = Throw e.
Proof.
  induction pre as [|[sid' r'] pre IH]; intros Hok Hrest; [done|].
  destruct (Hok sid' r') as [[q' Hq'] Hr']; [left|].
  cbn [app quotients]. unfold getitem. rewrite Hq'. cbn [mbind try_bind].
  unfold div. rewrite decide_False by (intros ?%(Z2Qc_inj r' 0); done).
  cbn [lift mbind try_bind]. rewrite IH; [done| |done]. intros; apply Hok; by right.
Qed.

(** What [evaluate_phase] does with a faulty call.  An infeasible blend
    returns [None] before the inventory is looked at.  For a feasible
    blend, no stream or no ratio part is the [ValueError] of [min] on an
    empty sequence; and the first pair of stream and ratio part that is
    at fault decides the exception: a [KeyError] carrying the stream's
    identifier when the inventory lacks it, a [ZeroDivisionError] when
    the ratio part is 0. *)
Theorem evaluate_phase_faults (streams : list WasteStream.t) (ratios : list Z)
    (inventory : gmap string Qc) (cfg : SystemConfig.t) :
  let stream_ids := WasteStream.stream_id <$> streams in
  let feasibility :=
    evaluate blend_pH cfg (fixed_cost_per_min cfg) stream_ids streams ratios in
  (feasibility = Ok None →
   evaluate_phase blend_pH streams ratios inventory cfg = Return None) ∧
  (∀ t, feasibility = Ok (Some t) →
     (streams = [] ∨ ratios = [] →
      evaluate_phase blend_pH streams ratios inventory cfg
      = Throw (ValueError Min_arg_is_an_empty_sequence)) ∧
     (∀ pre sid r post,
        zip stream_ids ratios = pre ++ (sid, r) :: post →
        (∀ sid' r', (sid', r') ∈ pre → is_Some (inventory !! sid') ∧ r' ≠ 0%Z) →
        (inventory !! sid = None →
         evaluate_phase blend_pH streams ratios inventory cfg = Throw (KeyError sid)) ∧
        (is_Some (inventory !! sid) → r = 0%Z →
         evaluate_phase blend_pH streams ratios inventory cfg
         = Throw (Builtin ZeroDivisionError)))).
Proof.
  intros ids feas. subst feas. split; [apply evaluate_phase_None|].
  intros t Ht. destruct (evaluate_phase_Some streams ratios inventory cfg t Ht)
    as [k Hk].
  rewrite Hk. fold ids. split.
  - intros Hnil. assert (zip ids ratios = []) as ->.
    { subst ids. destruct Hnil as [->| ->]; [done|]. by destruct streams. }
    done.
  - intros pre sid r post Hzip Hpre. rewrite Hzip. split.
    + intros Hnone. rewrite (quotients_app_Throw _ _ _ (KeyError sid)); [done..|].
      cbn [quotients]. unfold getitem. by rewrite Hnone.
    + intros [q Hq] ->.
      rewrite (quotients_app_Throw _ _ _ (Builtin ZeroDivisionError)); [done..|].
      cbn [quotients]. unfold getitem. rewrite Hq. cbn [mbind try_bind].
      unfold div. by rewrite decide_True.
Qed.

End with_pH.

Lemma evaluate_phase_agrees_witness :
  ∃ t p,
    evaluate Samples.pH_mean defaults (fixed_cost_per_min defaults)
      ["A"; "B"]%string Samples.whole_litres [1; 2]%Z = Ok (Some t) ∧
    evaluate_phase Samples.pH_mean Samples.whole_litres [1; 2]%Z
      (inventory Samples.whole_litres) defaults = Return (Some p) ∧
    PhaseResult.W p = PhaseTemplate.W t.
Proof.
  assert (∃ t, evaluate Samples.pH_mean defaults (fixed_cost_per_min defaults)
      ["A"; "B"]%string Samples.whole_litres [1; 2]%Z = Ok (Some t)) as [t Ht]
    by (eexists; vm_compute; reflexivity).
  exists t.
  pose proof (evaluate_phase_agrees Samples.pH_mean Samples.whole_litres [1; 2]%Z
                (inventory Samples.whole_litres) defaults) as H.
  cbv zeta in H.
  change (WasteStream.stream_id <$> Samples.whole_litres) with ["A"; "B"]%string in H.
  rewrite Ht in H.
  destruct H as (p & Hp & _ & _ & _ & _ & _ & _ & HW & _).
  - apply (bool_decide_unpack _). vm_compute. exact I.
  - done.
  - done.
  - intros sid r Hin. cbn [zip zip_with] in Hin.
    apply elem_of_cons in Hin as [[= -> ->]|Hin];
      [|apply list_elem_of_singleton in Hin as [= -> ->]];
      (split; [vm_compute; by eexists|done]).
  - exists p. split; [exact Ht|]. split; [exact Hp|exact HW].
Defined.

End evaluate_phase_facts.

(** * The baseline *)

Section baseline_facts.
Import Floats Baseline SystemConfig.
Local Open Scope Qc_scope.

(** The blend [calc_baseline] takes for a stream on its own. *)
Lemma calc_phase_cost_Num W rw rd rn t cfg :
  calc_phase_cost W rw rd rn (Num t) cfg =
  let c := Gatekeeper.calc_phase_cost W rw rd rn t cfg in
  (Num (Gatekeeper.cost_diesel c), Num (Gatekeeper.cost_naoh c),
   Num (Gatekeeper.cost_water c), Num (Gatekeeper.cost_electricity c),
   Num (Gatekeeper.cost_labor c), Num (Gatekeeper.cost_total c)).
Proof. done. Qed.

Lemma xsum_Num (l : list Qc) : xsum (Num <$> l) = Num (Qcsum l).
Proof.
  assert (∀ a, foldl xadd (Num a) (Num <$> l) = Num (a + Qcsum l)) as H.
  { induction l as [|x l IH]; intros a.
    - rewrite Qcsum_nil. cbn. f_equal. ring.
    - rewrite fmap_cons. cbn [foldl xadd]. rewrite IH, Qcsum_cons. f_equal. ring. }
  unfold xsum. rewrite H. f_equal. ring.
Qed.

Lemma foldl_xadd_NaN l : foldl xadd NaN l = NaN.
Proof. induction l as [|x l IH]; [done|]. simpl. by destruct x. Qed.

Lemma xsum_NaN l : NaN ∈ l → xsum l = NaN.
Proof.
  unfold xsum. generalize (Num 0). induction l as [|x l IH]; intros a Hin.
  - by apply elem_of_nil in Hin.
  - simpl. apply elem_of_cons in Hin as [<-|Hin]; [|by apply IH].
    replace (xadd a NaN) with NaN by by destruct a. apply foldl_xadd_NaN.
Qed.

Lemma solo_phase_returns s cfg :
  solid_max_pct cfg ≠ 0 → salt_max_ppm cfg ≠ 0 → BTU_diesel cfg * eta cfg ≠ 0 →
  0 ≤ K_ACID_TO_NAOH_VOL cfg →
  ∃ rw rd W,
    Gatekeeper.gatekeeper (solo_blend s) cfg
      = Ok (rw, rd, Gatekeeper.calc_r_naoh (solo_blend s) cfg) ∧
    Gatekeeper.calc_throughput rw rd (Gatekeeper.calc_r_naoh (solo_blend s) cfg) cfg
      = Ok W ∧
    0 ≤ rw ∧ 0 ≤ rd ∧
    (0 ≤ F_total cfg → 0 ≤ W ∧ W ≤ F_total cfg) ∧
    (0 < F_total cfg → 0 < W) ∧ (F_total cfg = 0 → W = 0) ∧
    ∃ p, solo_phase s cfg = Ok p ∧
      streams p = [(WasteStream.stream_id s, 1%Z)] ∧
      blend_props p = solo_blend s ∧
      r_water p = rw ∧ r_diesel p = rd ∧
      r_naoh p = Gatekeeper.calc_r_naoh (solo_blend s) cfg ∧
      Baseline.W p = W ∧ Q_phase p = WasteStream.quantity_L s ∧
      runtime_min p
        = (if decide (0 < W) then Num (WasteStream.quantity_L s / W) else PInf) ∧
      (cost_diesel p, cost_naoh p, cost_water p, cost_electricity p, cost_labor p,
       cost_total p)
        = calc_phase_cost W rw rd (Gatekeeper.calc_r_naoh (solo_blend s) cfg)
            (runtime_min p) cfg.
Proof.
  intros H1 H2 H3 HK.
  destruct (gatekeeper_returns (solo_blend s) cfg H1 H2 H3) as (rw & rd & Hg & Hrw & Hrd).
  pose proof (calc_r_naoh_nonneg (solo_blend s) cfg HK) as Hrn.
  destruct (calc_throughput_returns rw rd _ cfg Hrw Hrd Hrn)
    as (W & HW & _ & Hle & Hpos & H0).
  exists rw, rd, W. do 7 (split; [done|]).
  unfold solo_phase. rewrite Hg. cbn [mbind res_bind]. rewrite HW. cbn [mbind res_bind].
  destruct (calc_phase_cost W rw rd _ _ cfg) as [[[[[cd cn] cw] ce] cl] ct] eqn:Hc.
  eexists. split; [done|]. cbn. by rewrite Hc.
Qed.

(** With a positive feed capacity (and limits, diesel heat value and
    NaOH constant such that the gatekeeper runs), [calc_baseline]
    returns one phase per stream, in order: the phase processes the
    stream alone, ratio part 1, consumes its whole quantity at a
    positive throughput no greater than the capacity, and all its
    figures are finite; the totals are the sums over the phases. *)
Theorem calc_baseline_finite (streams : list WasteStream.t) (cfg : SystemConfig.t) :
  solid_max_pct cfg ≠ 0 → salt_max_ppm cfg ≠ 0 → BTU_diesel cfg * eta cfg ≠ 0 →
  0 ≤ K_ACID_TO_NAOH_VOL cfg → 0 < F_total cfg →
  ∃ b costs,
    calc_baseline streams cfg = Ok b ∧
    Forall2 (λ s p,
      Baseline.streams p = [(WasteStream.stream_id s, 1%Z)] ∧
      Q_phase p = WasteStream.quantity_L s ∧
      0 < Baseline.W p ∧ Baseline.W p ≤ F_total cfg ∧
      runtime_min p = Num (WasteStream.quantity_L s / Baseline.W p))
      streams (phases b) ∧
    Forall2 (λ p c,
      cost_total p = Num c ∧
      c = Gatekeeper.cost_total
            (Gatekeeper.calc_phase_cost (Baseline.W p) (r_water p) (r_diesel p)
               (r_naoh p) (Q_phase p / Baseline.W p) cfg))
      (phases b) costs ∧
    total_cost b = Num (Qcsum costs).
Proof.
  intros H1 H2 H3 HK HF. unfold calc_baseline.
  assert (∃ ps costs, solo_phases streams cfg = Ok ps ∧
    Forall2 (λ s p,
      Baseline.streams p = [(WasteStream.stream_id s, 1%Z)] ∧
      Q_phase p = WasteStream.quantity_L s ∧
      0 < Baseline.W p ∧ Baseline.W p ≤ F_total cfg ∧
      runtime_min p = Num (WasteStream.quantity_L s / Baseline.W p)) streams ps ∧
    Forall2 (λ p c,
      cost_total p = Num c ∧
      c = Gatekeeper.cost_total
            (Gatekeeper.calc_phase_cost (Baseline.W p) (r_water p) (r_diesel p)
               (r_naoh p) (Q_phase p / Baseline.W p) cfg)) ps costs)
    as (ps & costs & Hps & Hall & Hcosts).
  { induction streams as [|s rest (ps & costs & Hps & Hall & Hcosts)].
    { exists [], []. split; [done|]. split; constructor. }
    destruct (solo_phase_returns s cfg H1 H2 H3 HK)
      as (rw & rd & W & _ & _ & _ & _ & Hle & Hpos & _ & p & Hp & Hs & _ & Hrw & Hrd
          & Hrn & HW & HQ & Hrt & Hc).
    specialize (Hpos HF). rewrite decide_True in Hrt by done.
    rewrite Hrt, calc_phase_cost_Num in Hc. injection Hc as _ _ _ _ _ Hct.
    eexists (p :: ps), (_ :: costs). cbn [solo_phases]. rewrite Hp, Hps.
    split; [done|]. split.
    - constructor; [|done]. rewrite HW. repeat split; try done.
      apply Hle. by apply Qclt_le_weak.
    - constructor; [|done]. split; [exact Hct|]. by rewrite HW, Hrw, Hrd, Hrn, HQ. }
  rewrite Hps. cbn [mbind res_bind]. eexists _, costs. split; [done|].
  split; [done|]. split; [done|]. cbn [total_cost].
  rewrite <-xsum_Num. f_equal. clear -Hcosts.
  induction Hcosts as [|p c ps cs [Hc _] _ IH]; [done|].
  rewrite !fmap_cons. by rewrite Hc, IH.
Qed.

Lemma calc_baseline_finite_witness :
  ∃ b c, calc_baseline Samples.whole_litres defaults = Ok b ∧
         total_cost b = Num c ∧ length (phases b) = 2%nat.
Proof.
  destruct (calc_baseline_finite Samples.whole_litres defaults)
    as (b & costs & Hb & Hall & _ & Htotal); [done..|].
  exists b, (Qcsum costs). split; [done|]. split; [done|].
  by apply Forall2_length in Hall.
Defined.

(** With a feed capacity of zero, every stream gets throughput 0 and an
    infinite runtime, and its cost is [nan], not a large number:
    [0 * inf]; so the baseline's total cost is [nan] and its total
    runtime infinite as soon as there is a stream. *)
Theorem calc_baseline_zero_capacity (streams : list WasteStream.t)
    (cfg : SystemConfig.t) :
  solid_max_pct cfg ≠ 0 → salt_max_ppm cfg ≠ 0 → BTU_diesel cfg * eta cfg ≠ 0 →
  0 ≤ K_ACID_TO_NAOH_VOL cfg → F_total cfg = 0 → streams ≠ [] →
  ∃ b, calc_baseline streams cfg = Ok b ∧
       Forall (λ p, Baseline.W p = 0 ∧ runtime_min p = PInf ∧ cost_total p = NaN)
         (phases b) ∧
       length (phases b) = length streams ∧
       total_cost b = NaN ∧ total_runtime_min b = PInf.
Proof.
  intros H1 H2 H3 HK HF Hne. unfold calc_baseline.
  assert (∃ ps, solo_phases streams cfg = Ok ps ∧ length ps = length streams ∧
    Forall (λ p, Baseline.W p = 0 ∧ runtime_min p = PInf ∧ cost_total p = NaN) ps)
    as (ps & Hps & Hlen & Hall).
  { clear Hne. induction streams as [|s rest (ps & Hps & Hlen & Hall)].
    { exists []. split; [done|]. split; [done|constructor]. }
    destruct (solo_phase_returns s cfg H1 H2 H3 HK)
      as (rw & rd & W & _ & _ & _ & _ & _ & _ & H0 & p & Hp & _ & _ & _ & _
          & _ & HW & _ & Hrt & Hc).
    specialize (H0 HF). subst W.
    rewrite decide_False in Hrt by apply (irreflexivity Qclt).
    rewrite Hrt in Hc. unfold calc_phase_cost in Hc. rewrite !Qcmult_0_l in Hc.
    injection Hc as _ _ _ _ _ Hct.
    exists (p :: ps). cbn [solo_phases]. rewrite Hp, Hps. split; [done|].
    split; [simpl; by rewrite Hlen|]. constructor; [|done]. done. }
  rewrite Hps. cbn [mbind res_bind]. eexists. split; [done|]. cbn [phases].
  split; [done|]. split; [done|]. cbn [total_cost total_runtime_min].
  destruct ps as [|p ps]; [by destruct streams|].
  apply Forall_cons in Hall as [(_ & Hrt & Hct) Hall]. split.
  - apply xsum_NaN. rewrite fmap_cons, Hct. left.
  - rewrite fmap_cons, Hrt. unfold xsum. cbn [foldl xadd].
    clear -Hall. induction Hall as [|q qs (_ & Hq & _) _ IH]; [done|].
    rewrite fmap_cons, Hq. done.
Qed.

Lemma calc_baseline_zero_capacity_witness :
  ∃ b, calc_baseline [Samples.stream_A]
         (SystemConfig.mk 0 (dec 400 1) (dec 18300 1) (dec 89 100) (dec 2200 1)
            (dec 15 1) (dec 6 1) (dec 9 1) (dec 5000 1) (dec 53 1000) (dec 50 1)
            (dec 828 10000000) (dec 1 1) (dec 151 100) (dec 199 100000)
            (dec 12 100) (dec 100 1) 11 (dec 1 2)) = Ok b ∧
       total_cost b = NaN.
Proof.
  destruct (calc_baseline_zero_capacity [Samples.stream_A]
    (SystemConfig.mk 0 (dec 400 1) (dec 18300 1) (dec 89 100) (dec 2200 1)
       (dec 15 1) (dec 6 1) (dec 9 1) (dec 5000 1) (dec 53 1000) (dec 50 1)
       (dec 828 10000000) (dec 1 1) (dec 151 100) (dec 199 100000)
       (dec 12 100) (dec 100 1) 11 (dec 1 2)))
    as (b & Hb & _ & _ & Ht & _); [done..|].
  exists b. split; [exact Hb|exact Ht].
Defined.

End baseline_facts.

(** * The pipeline *)

Section pipeline.
Import Search Invariants Reference Errors Floats Baseline Package Pipeline
  SystemConfig.
Local Open Scope Qc_scope.

Lemma validate_streams_Return streams :
  valid_streams streams → _validate_streams streams = Return ().
Proof.
  intros (Hlen & Hnd & Hall). unfold _validate_streams.
  rewrite decide_False by (intros ->; simpl in Hlen; lia).
  rewrite decide_False by lia.
  apply validate_loop_Return. split; [|done]. intros ??. apply not_elem_of_empty.
Qed.

Lemma validate_streams_Throw streams :
  ¬ valid_streams streams → ∃ m, _validate_streams streams = Throw (ValueError m).
Proof.
  intros Hinv. unfold _validate_streams.
  case_decide; [by eexists|]. case_decide; [by eexists|].
  destruct (validate_loop ∅ streams) as [[]|e] eqn:Hv.
  - destruct Hinv. apply validate_loop_Return in Hv as (_ & Hnd & Hall).
    split; [|done]. destruct streams; [done|]. simpl in *. lia.
  - apply validate_loop_Throw in Hv as [m ->]. by eexists.
Qed.

Lemma solo_phases_returns streams cfg :
  solid_max_pct cfg ≠ 0 → salt_max_ppm cfg ≠ 0 → BTU_diesel cfg * eta cfg ≠ 0 →
  0 ≤ K_ACID_TO_NAOH_VOL cfg →
  ∃ ps, solo_phases streams cfg = Ok ps.
Proof.
  intros H1 H2 H3 HK. induction streams as [|s rest [ps IH]]; [by eexists|].
  destruct (solo_phase_returns s cfg H1 H2 H3 HK)
    as (rw & rd & W & _ & _ & _ & _ & _ & _ & _ & p & Hp & _).
  cbn [solo_phases]. rewrite Hp, IH. by eexists.
Qed.

Section with_pH.
Variable blend_pH : list Qc → list Z → Qc.

Lemma evaluate_returns cfg fixed subset subset_streams ratios :
  solid_max_pct cfg ≠ 0 → salt_max_ppm cfg ≠ 0 → BTU_diesel cfg * eta cfg ≠ 0 →
  0 ≤ K_ACID_TO_NAOH_VOL cfg → 0 < W_min cfg →
  ∃ o, evaluate blend_pH cfg fixed subset subset_streams ratios = Ok o.
Proof.
  intros H1 H2 H3 HK HW. unfold evaluate.
  set (blend := Blending.calc_blend_properties blend_pH subset_streams ratios).
  case_decide; [by eexists|].
  destruct (gatekeeper_returns blend cfg H1 H2 H3) as (rw & rd & Hg & Hrw & Hrd).
  pose proof (calc_r_naoh_nonneg blend cfg HK) as Hrn.
  destruct (calc_throughput_returns rw rd _ cfg Hrw Hrd Hrn) as (W & HWeq & _).
  rewrite Hg. cbn [mbind res_bind]. rewrite HWeq. cbn [mbind res_bind].
  destruct (decide (W < W_min cfg)) as [|Hge]; [by eexists|].
  apply Qcnot_lt_le in Hge. unfold div.
  rewrite decide_False; [cbn [mbind res_bind]; by eexists|].
  apply Qcpos_ne_0. by eapply Qclt_le_trans.
Qed.

Lemma feasible_templates_returns cfg fixed subset subset_streams ratios_list :
  solid_max_pct cfg ≠ 0 → salt_max_ppm cfg ≠ 0 → BTU_diesel cfg * eta cfg ≠ 0 →
  0 ≤ K_ACID_TO_NAOH_VOL cfg → 0 < W_min cfg →
  ∃ ts, feasible_templates blend_pH cfg fixed subset subset_streams ratios_list
        = Ok ts.
Proof.
  intros H1 H2 H3 HK HW. induction ratios_list as [|ratios rest [ts IH]];
    [by eexists|].
  destruct (evaluate_returns cfg fixed subset subset_streams ratios H1 H2 H3 HK HW)
    as [o Ho].
  cbn [feasible_templates]. rewrite Ho, IH. by eexists.
Qed.

Lemma build_index_returns cfg fixed smap cache todo :
  solid_max_pct cfg ≠ 0 → salt_max_ppm cfg ≠ 0 → BTU_diesel cfg * eta cfg ≠ 0 →
  0 ≤ K_ACID_TO_NAOH_VOL cfg → 0 < W_min cfg →
  ∃ idx, build_index blend_pH cfg fixed smap cache todo = Ok idx.
Proof.
  intros H1 H2 H3 HK HW. induction todo as [|subset rest [idx IH]]; [by eexists|].
  cbn [build_index].
  destruct (feasible_templates_returns cfg fixed subset
              (omap (λ sid, smap !! sid) subset)
              (default [[1%Z]] (cache !! length subset)) H1 H2 H3 HK HW) as [ts Hts].
  rewrite Hts, IH. by eexists.
Qed.

Lemma search_returns streams cfg :
  solid_max_pct cfg ≠ 0 → salt_max_ppm cfg ≠ 0 → BTU_diesel cfg * eta cfg ≠ 0 →
  0 ≤ K_ACID_TO_NAOH_VOL cfg → 0 < W_min cfg →
  ∃ r, search blend_pH streams cfg = Ok r.
Proof.
  intros H1 H2 H3 HK HW. unfold search.
  destruct (build_ratio_cache_ok (length streams) (ratio_sum_max cfg))
    as (cache & -> & _).
  cbn [mbind res_bind]. unfold _precompute_templates.
  destruct (build_index_returns cfg (fixed_cost_per_min cfg) (streams_map streams)
              cache (subsets (all_ids streams)) H1 H2 H3 HK HW) as [idx ->].
  by eexists.
Qed.

End with_pH.
End pipeline.

Section run.
Import Search Invariants Reference Errors Floats Baseline Package Pipeline
  SystemConfig.
Local Open Scope Qc_scope.

(** The savings never fail to compute: the division is guarded. *)
Lemma savings_returns (optimized : option Schedule.t) (b : schedule) :
  ∃ v,
    match optimized with
    | Some schedule =>
        if decide (xpos (total_cost b)) then
          ratio ← lift (xdiv (of_cost (Schedule.total_cost schedule)) (total_cost b));
          Return (xmul (xadd (Num 1) (xopp ratio)) (Num (dec 100 1)))
        else Return (Num 0)
    | None => Return (Num 0)
    end = Return v.
Proof.
  destruct optimized as [sched|]; [|by eexists].
  case_decide as Hpos; [|by eexists].
  destruct (total_cost b) as [B| | |]; try done; cbn [xdiv xpos] in *.
  - rewrite decide_False by by apply Qcpos_ne_0. by eexists.
  - by eexists.
Qed.

Section with_pH.
Variable blend_pH : list Qc → list Z → Qc.

(** With limits, effective diesel heat value, NaOH constant and minimum
    throughput such that nothing divides by zero ([cfg] absent stands
    for the defaults), [run_optimization] raises exactly on the input
    [_validate_streams] rejects, and then its [ValueError]; on every
    other input it returns the baseline of [calc_baseline] and the
    schedule of [build_optimized_schedule]. *)
Theorem run_optimization_raises_iff_invalid (streams : list WasteStream.t)
    (cfg : option SystemConfig.t) :
  let c := default SystemConfig.defaults cfg in
  solid_max_pct c ≠ 0 → salt_max_ppm c ≠ 0 → BTU_diesel c * eta c ≠ 0 →
  0 ≤ K_ACID_TO_NAOH_VOL c → 0 < W_min c →
  (valid_streams streams →
   ∃ o, run_optimization blend_pH streams cfg = Return o ∧
        calc_baseline streams c = Ok (baseline o) ∧
        build_optimized_schedule blend_pH streams c = Ok (optimized o)) ∧
  (¬ valid_streams streams →
   ∃ m, run_optimization blend_pH streams cfg = Throw (ValueError m)).
Proof.
  intros c H1 H2 H3 HK HW. unfold run_optimization. fold c. split.
  - intros Hvalid. rewrite (validate_streams_Return streams Hvalid).
    cbn [mbind try_bind].
    destruct (solo_phases_returns streams c H1 H2 H3 HK) as [ps Hps].
    unfold calc_baseline. rewrite Hps. cbn [mbind res_bind lift try_bind].
    destruct (search_returns blend_pH streams c H1 H2 H3 HK HW) as [[best ph] Hr].
    unfold build_optimized_schedule. rewrite Hr. cbn [mbind res_bind].
    set (b := {| phases := ps |}).
    destruct (decide (best = Inf)) as [Hinf|Hfin]; cbn [mbind lift try_bind].
    + by eexists.
    + set (sched := {| Schedule.phases := ph |}).
      destruct (savings_returns (Some sched) b) as [v Hv].
      cbn beta iota in Hv. rewrite Hv. cbn [mbind try_bind]. by eexists.
  - intros Hinv. destruct (validate_streams_Throw streams Hinv) as [m Hm].
    rewrite Hm. by exists m.
Qed.

End with_pH.

Lemma run_optimization_raises_iff_invalid_witness :
  valid_streams Samples.whole_litres ∧
  ∃ o, run_optimization Samples.pH_mean Samples.whole_litres None = Return o ∧
       calc_baseline Samples.whole_litres SystemConfig.defaults = Ok (baseline o) ∧
       build_optimized_schedule Samples.pH_mean Samples.whole_litres
         SystemConfig.defaults = Ok (optimized o).
Proof.
  assert (valid_streams Samples.whole_litres) as Hvalid.
  { split; [simpl; lia|]. split.
    - apply (bool_decide_unpack _). vm_compute. exact I.
    - repeat constructor; by vm_compute. }
  split; [exact Hvalid|].
  apply (run_optimization_raises_iff_invalid Samples.pH_mean Samples.whole_litres None);
    try done; by vm_compute.
Defined.

End run.
